(** * Auto-export scheduling of Better BibTeX: [content/auto-export.ts]

    A shallow embedding of the two-stage auto-export pipeline (the debounce
    queue [scheduler] feeding the run queue [scheduled]), of the trigger
    controller (preference handler and idle observer) and of the
    [AutoExport] singleton, together with the properties stated about them.

    JavaScript objects that are shared and mutated (the task objects handed
    to the queue workers) live in an explicit heap, so that aliasing and
    copying are visible.  Asynchronous handlers are split at their [await]:
    the part that runs when the worker starts, and the continuation that
    runs when the awaited promise settles. *)

From Stdlib Require Import Ascii.
From stdpp Require Import base numbers option list strings pretty gmap.

Local Open Scope Z_scope.

(** ** Values *)

(** A thrown JavaScript value: an [Error] object (with its [name] and
    [message]) or any other value, kept through its string conversion. *)
Inductive JsThrown :=
  | JsError (name message : string)
  | JsOther (text : string).

(** The conversion done by a template literal [`${err}`]:
    [Error.prototype.toString] for an error object. *)
Definition template (err : JsThrown) : string :=
  match err with
  | JsError name message =>
      if decide (name = "") then message
      else if decide (message = "") then name
      else name +:+ ": " +:+ message
  | JsOther text => text
  end.

(** [new Error(`AutoExport ${task.id} not found`)] *)
Definition not_found (task_id : Z) : JsThrown :=
  JsError "Error" ("AutoExport " +:+ pretty task_id +:+ " not found").

(** ** Definitions (the records of the [autoexport] collection) *)

Inductive Status := St_scheduled | St_running | St_done.

Inductive ScopeType := collection | library | other_type (s : string).

Inductive Mode := Off | Immediate | Idle.

#[global] Instance Status_eq_dec : EqDecision Status.
Proof. solve_decision. Defined.
#[global] Instance ScopeType_eq_dec : EqDecision ScopeType.
Proof. solve_decision. Defined.
#[global] Instance Mode_eq_dec : EqDecision Mode.
Proof. solve_decision. Defined.
#[global] Instance JsThrown_eq_dec : EqDecision JsThrown.
Proof. solve_decision. Defined.

(** The plain object given to [AutoExport.add]. *)
Record AutoExportDef := {
  type : ScopeType;
  id : Z;
  path : string;
  translatorID : string;
  exportNotes : bool;
  useJournalAbbreviation : bool;
  status : Status;
  error : string;
}.

(** A stored document: the object together with its [$loki] key. *)
Record Doc := { loki : Z; obj : AutoExportDef }.

#[global] Instance AutoExportDef_eq_dec : EqDecision AutoExportDef.
Proof. solve_decision. Defined.
#[global] Instance Doc_eq_dec : EqDecision Doc.
Proof. solve_decision. Defined.

Definition set_status (s : Status) (ae : Doc) : Doc :=
  {| loki := loki ae;
     obj := {| type := type (obj ae); id := id (obj ae); path := path (obj ae);
               translatorID := translatorID (obj ae);
               exportNotes := exportNotes (obj ae);
               useJournalAbbreviation := useJournalAbbreviation (obj ae);
               status := s; error := error (obj ae) |} |}.

Definition set_error (e : string) (ae : Doc) : Doc :=
  {| loki := loki ae;
     obj := {| type := type (obj ae); id := id (obj ae); path := path (obj ae);
               translatorID := translatorID (obj ae);
               exportNotes := exportNotes (obj ae);
               useJournalAbbreviation := useJournalAbbreviation (obj ae);
               status := status (obj ae); error := e |} |}.

(** ** The definition store *)

Module DB.

(** Modelled from the spec: the store behind [DB.getCollection('autoexport')]
    ([./db/main.ts], not among the sources), with the operations section 6
    lists: [get], [update], [insert], [remove], [removeWhere] and [find]
    with equality and set-membership predicates.  Documents are kept in
    insertion order; [insert] hands out the next [$loki]; [get] returns the
    live document, so that assigning a field and calling [update] amounts to
    replacing the document stored under that [$loki]. *)
Record Collection := { data : list Doc; maxId : Z }.

Definition get (k : Z) (c : Collection) : option Doc :=
  head (filter (λ d, loki d = k) (data c)).

(** [update] raises when the collection holds no document under the
    record's [$loki] (the record was removed in the meantime): [None]. *)
Definition update (ae : Doc) (c : Collection) : option Collection :=
  match get (loki ae) c with
  | Some _ =>
      Some {| data := (λ d, if decide (loki d = loki ae) then ae else d) <$> data c;
              maxId := maxId c |}
  | None => None
  end.

(** The error [update] raises then. *)
Definition not_in_collection : JsThrown :=
  JsError "Error" "Trying to update document not in collection".

Definition insert (ae : AutoExportDef) (c : Collection) : Collection :=
  {| data := data c ++ [ {| loki := maxId c + 1; obj := ae |} ];
     maxId := maxId c + 1 |}.

Definition remove (ae : Doc) (c : Collection) : Collection :=
  {| data := filter (λ d, loki d ≠ loki ae) (data c); maxId := maxId c |}.

(** [removeWhere({ path })] *)
Definition removeWhere_path (p : string) (c : Collection) : Collection :=
  {| data := filter (λ d, path (obj d) ≠ p) (data c); maxId := maxId c |}.

(** [find({ path })] *)
Definition find_path (p : string) (c : Collection) : list Doc :=
  filter (λ d, path (obj d) = p) (data c).

(** [find({ status: { $ne: 'done' } })] *)
Definition find_not_done (c : Collection) : list Doc :=
  filter (λ d, status (obj d) ≠ St_done) (data c).

(** [find({ type, id: { $in: ids } })] *)
Definition find_scope (ty : ScopeType) (ids : list Z) (c : Collection) : list Doc :=
  filter (λ d, type (obj d) = ty ∧ id (obj d) ∈ ids) (data c).

End DB.

(** ** Task objects and the two queues *)

(** A task object [{ id, cancelled }]; [cancelled] is absent (falsy) on a
    freshly made task. *)
Record Task := { task_id : Z; cancelled : bool }.

(** References into the heap of task objects. *)
Abbreviation ref := nat.

(** The arguments of one call of [Translators.translate]. *)
Inductive Items := ItemsCollection (c : Z) | ItemsLibrary (l : Z).

Record Translate := {
  t_translatorID : string;
  t_exportNotes : bool;
  t_useJournalAbbreviation : bool;
  t_items : option Items;
  t_path : string;
}.

(** What a started handler is suspended on. *)
Inductive Await :=
  | Delay (due : Z)
  | Export (call : Translate).

(** A worker whose handler is suspended.  [w_task] is the object the queue
    passed to the function built by [queueHandler]: the one its [cancel]
    closure writes to.  [w_local] is the handler's own variable [task]. *)
Record Worker := { w_task : ref; w_local : ref; w_await : Await }.

#[global] Instance Items_eq_dec : EqDecision Items.
Proof. solve_decision. Defined.
#[global] Instance Translate_eq_dec : EqDecision Translate.
Proof. solve_decision. Defined.
#[global] Instance Await_eq_dec : EqDecision Await.
Proof. solve_decision. Defined.
#[global] Instance Worker_eq_dec : EqDecision Worker.
Proof. solve_decision. Defined.

(** Modelled from the spec: the queue engine ([better-queue] with a memory
    store, not among the sources), as sections 4.1, 4.2 and 9 describe it:
    a task queue keyed by the task's [id], with cancel-by-key, [pause] and
    [resume].  [tasks] are the queued, not yet started entries, at most one
    per key (a push for a queued key replaces its task); [workers] are the
    started handlers that have not settled; [pushes] and [finished] record
    the calls of [push] and of the worker callback [cb]. *)
Record Queue := {
  stopped : bool;
  tasks : list (Z * ref);
  workers : list Worker;
  pushes : list Z;
  finished : list (Z * option JsThrown);
}.

Inductive Kind := Kscheduler | Kscheduled.

Record State := {
  db : DB.Collection;
  heap : list Task;
  scheduler : Queue;
  scheduled : Queue;
  translations : list (Z * Translate);
  autoExport : Mode;
  now : Z;
}.

(** *** Field updates *)

Definition with_db (f : DB.Collection → DB.Collection) (st : State) : State :=
  {| db := f (db st); heap := heap st; scheduler := scheduler st;
     scheduled := scheduled st; translations := translations st;
     autoExport := autoExport st; now := now st |}.

Definition with_heap (f : list Task → list Task) (st : State) : State :=
  {| db := db st; heap := f (heap st); scheduler := scheduler st;
     scheduled := scheduled st; translations := translations st;
     autoExport := autoExport st; now := now st |}.

Definition with_translations
    (f : list (Z * Translate) → list (Z * Translate)) (st : State) : State :=
  {| db := db st; heap := heap st; scheduler := scheduler st;
     scheduled := scheduled st; translations := f (translations st);
     autoExport := autoExport st; now := now st |}.

Definition with_autoExport (m : Mode) (st : State) : State :=
  {| db := db st; heap := heap st; scheduler := scheduler st;
     scheduled := scheduled st; translations := translations st;
     autoExport := m; now := now st |}.

Definition with_now (f : Z → Z) (st : State) : State :=
  {| db := db st; heap := heap st; scheduler := scheduler st;
     scheduled := scheduled st; translations := translations st;
     autoExport := autoExport st; now := f (now st) |}.

Definition queue_of (k : Kind) (st : State) : Queue :=
  match k with Kscheduler => scheduler st | Kscheduled => scheduled st end.

Definition with_queue (k : Kind) (f : Queue → Queue) (st : State) : State :=
  match k with
  | Kscheduler =>
      {| db := db st; heap := heap st; scheduler := f (scheduler st);
         scheduled := scheduled st; translations := translations st;
         autoExport := autoExport st; now := now st |}
  | Kscheduled =>
      {| db := db st; heap := heap st; scheduler := scheduler st;
         scheduled := f (scheduled st); translations := translations st;
         autoExport := autoExport st; now := now st |}
  end.

Definition with_stopped (b : bool) (q : Queue) : Queue :=
  {| stopped := b; tasks := tasks q; workers := workers q;
     pushes := pushes q; finished := finished q |}.

Definition with_tasks (f : list (Z * ref) → list (Z * ref)) (q : Queue) : Queue :=
  {| stopped := stopped q; tasks := f (tasks q); workers := workers q;
     pushes := pushes q; finished := finished q |}.

Definition with_workers (f : list Worker → list Worker) (q : Queue) : Queue :=
  {| stopped := stopped q; tasks := tasks q; workers := f (workers q);
     pushes := pushes q; finished := finished q |}.

Definition log_push (key : Z) (q : Queue) : Queue :=
  {| stopped := stopped q; tasks := tasks q; workers := workers q;
     pushes := pushes q ++ [key]; finished := finished q |}.

Definition log_finished (key : Z) (r : option JsThrown) (q : Queue) : Queue :=
  {| stopped := stopped q; tasks := tasks q; workers := workers q;
     pushes := pushes q; finished := finished q ++ [(key, r)] |}.

(** *** [queueHandler] (lines 14-30) *)

(** What a handler has done when control returns to the event loop. *)
Inductive Outcome :=
  | Suspended (local : ref) (a : Await)
  | Fulfilled
  | Threw (err : JsThrown).

Definition Handler := ref → State → option (State * Outcome).
Definition Continuation := Worker → State → option (State * Outcome).

(** [.then(() => cb(null))] and [.catch(err => cb(err))]; a handler that is
    suspended stays among the workers of its queue. *)
Definition settle (kind : Kind) (key : Z) (task : ref) (o : Outcome) (st : State) : State :=
  match o with
  | Suspended local a =>
      with_queue kind
        (with_workers (λ ws, ws ++ [ {| w_task := task; w_local := local; w_await := a |} ])) st
  | Fulfilled => with_queue kind (log_finished key None) st
  | Threw err => with_queue kind (log_finished key (Some err)) st
  end.

(** The function [(task, cb) => ...] that [queueHandler(kind, handler)]
    returns, up to the handler's first suspension. *)
Definition queueHandler (kind : Kind) (handler : Handler) (task : ref) (st : State)
    : option State :=
  t ← heap st !! task;
  '(st', o) ← handler task st;
  Some (settle kind (task_id t) task o st').

(** The rest of the promise chain, run when what worker [w] awaits settles. *)
Definition queueHandler_resume (kind : Kind) (k : Continuation) (w : Worker) (st : State)
    : option State :=
  if decide (w ∈ workers (queue_of kind st)) then
    t ← heap st !! w_task w;
    '(st', o) ← k w (with_queue kind (with_workers (λ ws, list_difference ws [w])) st);
    Some (settle kind (task_id t) (w_task w) o st')
  else None.

(** The object the worker function returns: [cancel() { task.cancelled = true }],
    where [task] is the worker function's own parameter. *)
Definition handle_cancel (w : Worker) (h : list Task) : list Task :=
  alter (λ t, {| task_id := task_id t; cancelled := true |}) (w_task w) h.

(** *** The engine's operations *)

Definition cancelIfRunning (k : Kind) : bool :=
  match k with Kscheduler => true | Kscheduled => false end.

(** Cancel the workers that run a task with the given key. *)
Definition cancel_running (k : Kind) (key : Z) (st : State) : State :=
  with_heap (λ h,
    foldr (λ w h', if decide (task_id <$> h !! w_task w = Some key)
                   then handle_cancel w h' else h')
          h (workers (queue_of k st))) st.

Definition put (key : Z) (r : ref) (l : list (Z * ref)) : list (Z * ref) :=
  if decide (key ∈ l.*1)
  then (λ e, if decide (e.1 = key) then (key, r) else e) <$> l
  else l ++ [(key, r)].

(** [queue.push(task)] for the task object at [r], whose [id] is [key]. *)
Definition queue_push (k : Kind) (key : Z) (r : ref) (st : State) : State :=
  let st1 := if cancelIfRunning k then cancel_running k key st else st in
  with_queue k (λ q, log_push key (with_tasks (put key r) q)) st1.

(** [queue.push({ id: key })]: a fresh task object. *)
Definition queue_push_new (k : Kind) (key : Z) (st : State) : State :=
  queue_push k key (length (heap st))
    (with_heap (λ h, h ++ [ {| task_id := key; cancelled := false |} ]) st).

(** [queue.cancel(key)] *)
Definition queue_cancel (k : Kind) (key : Z) (st : State) : State :=
  with_queue k (with_tasks (filter (λ e, e.1 ≠ key))) (cancel_running k key st).

Definition queue_pause (k : Kind) (st : State) : State :=
  with_queue k (with_stopped true) st.

Definition queue_resume (k : Kind) (st : State) : State :=
  with_queue k (with_stopped false) st.

(** The engine takes the first queued task and starts a worker on it; a
    stopped queue starts nothing.  When the engine does so is left open
    (how many workers it lets run at once is not modelled): a property of
    all runs holds whatever the engine's policy. *)
Definition queue_start (k : Kind) (handler : Handler) (st : State) : option State :=
  if stopped (queue_of k st) then None
  else match tasks (queue_of k st) with
       | [] => None
       | (_, r) :: rest => queueHandler k handler r (with_queue k (with_tasks (λ _, rest)) st)
       end.

(** ** The two queues and their handlers *)

(** *** [scheduled]: the run queue (lines 34-96) *)

(** The [switch (ae.type)] of lines 47-56. *)
Definition items_of (ae : Doc) : option Items :=
  match type (obj ae) with
  | collection => Some (ItemsCollection (id (obj ae)))
  | library => Some (ItemsLibrary (id (obj ae)))
  | other_type _ => None
  end.

Definition translate_call (ae : Doc) : Translate :=
  {| t_translatorID := translatorID (obj ae);
     t_exportNotes := exportNotes (obj ae);
     t_useJournalAbbreviation := useJournalAbbreviation (obj ae);
     t_items := items_of ae;
     t_path := path (obj ae) |}.

(** Lines 36-74, up to [await Translators.translate(...)].  The overleaf
    detection of lines 60-70 and 73/75 only feeds [debug] and catches its
    own failures; it leaves no trace in the state. *)
Definition scheduled_handler : Handler := λ task st,
  t ← heap st !! task;
  match DB.get (task_id t) (db st) with
  | None => Some (st, Threw (not_found (task_id t)))
  | Some ae =>
      match DB.update (set_status St_running ae) (db st) with
      | None => Some (st, Threw DB.not_in_collection)
      | Some c =>
          let call := translate_call ae in
          Some (with_translations (λ l, l ++ [(loki ae, call)]) (with_db (λ _, c) st),
                Suspended task (Export call))
      end
  end.

(** Lines 74-86: [result] is how the export ended, [None] when it completed
    and [Some err] when it threw [err].  [ae] is the live document, found
    again under its key. *)
Definition scheduled_settled (result : option JsThrown) : Continuation := λ w st,
  t ← heap st !! w_local w;
  let err_text := match result with None => "" | Some err => template err end in
  match DB.get (task_id t) (db st) with
  | None => Some (st, Threw DB.not_in_collection)
  | Some ae =>
      match DB.update (set_status St_done (set_error err_text ae)) (db st) with
      | None => Some (st, Threw DB.not_in_collection)
      | Some c => Some (with_db (λ _, c) st, Fulfilled)
      end
  end.

(** *** [scheduler]: the debounce queue (lines 98-132) *)

Definition debounce_delay : Z := 1000.

(** Lines 101-113, up to [await Zotero.Promise.delay(debounce_delay)].
    [task = {...task}] makes the handler's [task] a fresh copy of the object
    it was called with. *)
Definition scheduler_handler : Handler := λ task st,
  t ← heap st !! task;
  let copy := length (heap st) in
  let st1 := with_heap (λ h, h ++ [t]) st in
  match DB.get (task_id t) (db st1) with
  | None => Some (st1, Threw (not_found (task_id t)))
  | Some ae =>
      match DB.update (set_status St_scheduled ae) (db st1) with
      | None => Some (st1, Threw DB.not_in_collection)
      | Some c =>
          Some (with_db (λ _, c) st1, Suspended copy (Delay (now st + debounce_delay)))
      end
  end.

(** Lines 115-122: woken after the delay, the handler tests the [cancelled]
    field of its own [task] and otherwise pushes that object onto
    [scheduled]. *)
Definition scheduler_woken : Continuation := λ w st,
  t ← heap st !! w_local w;
  if cancelled t then Some (st, Fulfilled)
  else Some (queue_push Kscheduled (task_id t) (w_local w) st, Fulfilled).

(** *** What the event loop may do next *)

Inductive Event :=
  | Tick (dt : Z)
  | SchedulerStart
  | SchedulerWake (w : Worker)
  | ScheduledStart
  | ScheduledSettle (w : Worker) (result : option JsThrown).

(** A delay promise resolves no earlier than its due time; an export
    settles whenever the translator is done.  Pausing a queue does not hold
    back a handler that is already waiting: the worker function returns no
    [pause]. *)
Definition engine_step (e : Event) (st : State) : option State :=
  match e with
  | Tick dt => if decide (0 ≤ dt) then Some (with_now (λ t, t + dt) st) else None
  | SchedulerStart => queue_start Kscheduler scheduler_handler st
  | SchedulerWake w =>
      match w_await w with
      | Delay due =>
          if decide (due ≤ now st)
          then queueHandler_resume Kscheduler scheduler_woken w st
          else None
      | Export _ => None
      end
  | ScheduledStart => queue_start Kscheduled scheduled_handler st
  | ScheduledSettle w result =>
      match w_await w with
      | Export _ => queueHandler_resume Kscheduled (scheduled_settled result) w st
      | Delay _ => None
      end
  end.

Fixpoint engine_run (es : list Event) (st : State) : option State :=
  match es with
  | [] => Some st
  | e :: es' => st' ← engine_step e st; engine_run es' st'
  end.

(** ** The trigger controller (lines 96, 134, 143-173) *)

(** The topics the idle service notifies; the observer's [switch] knows
    three of them. *)
Inductive Topic := T_idle | T_active | T_back | T_other (s : string).

Definition fresh_queue (b : bool) : Queue :=
  {| stopped := b; tasks := []; workers := []; pushes := []; finished := [] |}.

(** Loading the module: two new queues (whatever state [b] the engine makes
    them in), [scheduled.resume()] at line 96 and the conditional
    [scheduler.pause()] at line 134. *)
Definition module_load (c : DB.Collection) (m : Mode) (b : bool) : State :=
  let st := {| db := c; heap := []; scheduler := fresh_queue b;
               scheduled := fresh_queue b; translations := [];
               autoExport := m; now := 0 |} in
  let st := queue_resume Kscheduled st in
  if decide (autoExport st ≠ Immediate) then queue_pause Kscheduler st else st.

(** [idleObserver.observe(subject, topic, data)] *)
Definition idleObserver_observe (topic : Topic) (st : State) : State :=
  if decide (autoExport st ≠ Idle) then st
  else match topic with
       | T_back | T_active => queue_pause Kscheduler st
       | T_idle => queue_resume Kscheduler st
       | T_other _ => st
       end.

(** The listener of ['preference-changed']. *)
Definition preference_changed (pref : string) (st : State) : State :=
  if decide (pref ≠ "autoExport") then st
  else match autoExport st with
       | Immediate => queue_resume Kscheduler st
       | Off | Idle => queue_pause Kscheduler st
       end.

(** The preference takes the value [m] and its change is announced. *)
Definition set_autoExport (m : Mode) (st : State) : State :=
  preference_changed "autoExport" (with_autoExport m st).

(** ** The [AutoExport] singleton (lines 176-249) *)

Record Item := { libraryID : Z; getCollections : list Z }.

Inductive Emitted :=
  | CollectionsChanged (ids : list Z)
  | LibrariesChanged (ids : list Z).

#[global] Instance Emitted_eq_dec : EqDecision Emitted.
Proof. solve_decision. Defined.

(** A JavaScript [Set] of numbers: its elements in insertion order. *)
Definition set_add (x : Z) (s : list Z) : list Z :=
  if decide (x ∈ s) then s else s ++ [x].

(** The truth value of a number. *)
Definition truthy (c : Z) : bool := bool_decide (c ≠ 0).

Module AutoExport.

Definition init (st : State) : State :=
  let st := foldl (λ st ae, queue_push_new Kscheduler (loki ae) st) st
                  (DB.find_not_done (db st)) in
  if decide (autoExport st = Immediate) then queue_resume Kscheduler st else st.

Definition add (ae : AutoExportDef) (st : State) : State :=
  with_db (λ c, DB.insert ae (DB.removeWhere_path (path ae) c)) st.

Definition schedule (ty : ScopeType) (ids : list Z) (st : State) : State :=
  foldl (λ st ae, queue_push_new Kscheduler (loki ae) st) st
        (DB.find_scope ty ids (db st)).

(** One turn of the loop of [remove] (lines 235-237). *)
Definition remove_one (st : State) (ae : Doc) : State :=
  with_db (DB.remove ae)
    (queue_cancel Kscheduler (loki ae) (queue_cancel Kscheduled (loki ae) st)).

Definition remove (ty : ScopeType) (ids : list Z) (st : State) : State :=
  foldl remove_one st (DB.find_scope ty ids (db st)).

(** [run(ae)] with a number; [None] when a step raises. *)
Definition run (k : Z) (st : State) : option State :=
  ae ← DB.get k (db st);
  c ← DB.update (set_status St_scheduled ae) (db st);
  Some (queue_push_new Kscheduled (loki ae) (with_db (λ _, c) st)).

(** The subscriptions made in the constructor (lines 180-183), for the two
    events [changed] emits. *)
Definition on_emitted (e : Emitted) (st : State) : State :=
  match e with
  | CollectionsChanged ids => schedule collection ids st
  | LibrariesChanged ids => schedule library ids st
  end.

Section changed.

(** [Zotero.Collections.get(collectionID).parentID]: the parent's id, or
    [None] for [false]. *)
Variable parentID : Z → option Z.

(** The [while (collectionID)] loop of lines 213-216; [None] when [fuel]
    iterations do not end it. *)
Fixpoint walk (fuel : nat) (collectionID : option Z) (cs : list Z) : option (list Z) :=
  match collectionID with
  | None => Some cs
  | Some c =>
      if truthy c then
        match fuel with
        | O => None
        | S n => walk n (parentID c) (set_add c cs)
        end
      else Some cs
  end.

(** One turn of the inner [for] loop (lines 210-217). *)
Definition visit (fuel : nat) (acc : option (list Z)) (c : Z) : option (list Z) :=
  cs ← acc;
  if decide (c ∈ cs) then Some cs else walk fuel (Some c) cs.

(** The outer loop: the sets [changed.collections] and [changed.libraries]. *)
Definition changed_sets (fuel : nat) (items : list Item) : option (list Z * list Z) :=
  foldl (λ acc item,
           '(cs, ls) ← acc;
           let ls' := set_add (libraryID item) ls in
           cs' ← foldl (visit fuel) (Some cs) (getCollections item);
           Some (cs', ls'))
        (Some ([], [])) items.

(** Lines 220-221. *)
Definition emitted (cs ls : list Z) : list Emitted :=
  (if decide (length cs ≠ 0%nat) then [CollectionsChanged cs] else [])
  ++ (if decide (length ls ≠ 0%nat) then [LibrariesChanged ls] else []).

Definition changed_events (fuel : nat) (items : list Item) : option (list Emitted) :=
  '(cs, ls) ← changed_sets fuel items;
  Some (emitted cs ls).

Definition changed (fuel : nat) (items : list Item) (st : State) : option State :=
  es ← changed_events fuel items;
  Some (foldl (λ st e, on_emitted e st) st es).

End changed.

End AutoExport.

(** ** Everything that can happen to the module *)

Inductive Call :=
  | Init
  | Add (ae : AutoExportDef)
  | Changed (parentID : Z → option Z) (fuel : nat) (items : list Item)
  | Schedule (ty : ScopeType) (ids : list Z)
  | Remove (ty : ScopeType) (ids : list Z)
  | Run (k : Z)
  | SetAutoExport (m : Mode)
  | PreferenceChanged (pref : string)
  | Observe (topic : Topic)
  | Engine (e : Event).

Definition call_step (c : Call) (st : State) : option State :=
  match c with
  | Init => Some (AutoExport.init st)
  | Add ae => Some (AutoExport.add ae st)
  | Changed parentID fuel items => AutoExport.changed parentID fuel items st
  | Schedule ty ids => Some (AutoExport.schedule ty ids st)
  | Remove ty ids => Some (AutoExport.remove ty ids st)
  | Run k => AutoExport.run k st
  | SetAutoExport m => Some (set_autoExport m st)
  | PreferenceChanged pref => Some (preference_changed pref st)
  | Observe topic => Some (idleObserver_observe topic st)
  | Engine e => engine_step e st
  end.

(** A sequence of calls into the module and of steps of the queues, in the
    order they happen; [None] when one of them raises or cannot happen. *)
Fixpoint call_run (cs : list Call) (st : State) : option State :=
  match cs with
  | [] => Some st
  | c :: cs' => st' ← call_step c st; call_run cs' st'
  end.

(** The part of the state the controller owns: the trigger mode and the
    paused flag of [scheduler]. *)
Definition ctl (st : State) : Mode * bool := (autoExport st, stopped (scheduler st)).

(** The last of the three topics the observer knows that the idle service
    has notified: the environment signal. *)
Definition signal_after (c : Call) (sg : option Topic) : option Topic :=
  match c with
  | Observe (T_other _) => sg
  | Observe topic => Some topic
  | _ => sg
  end.

(** The states the module gets into, from its loading and [init] on, with
    the environment signal at that point. *)
Inductive reachable : State → option Topic → Prop :=
  | reachable_init c m b : reachable (AutoExport.init (module_load c m b)) None
  | reachable_call st sg c st' :
      reachable st sg → call_step c st = Some st' →
      reachable st' (signal_after c sg).

(** ** Ancestry of collections *)

(** [chain parentID c a]: [a] is the collection [c] itself or one of its
    ancestors, following the parent links from [c] for as long as the id at
    hand is a truthy number. *)
Inductive chain (parentID : Z → option Z) : Z → Z → Prop :=
  | chain_self c : c ≠ 0 → chain parentID c c
  | chain_parent c p a :
      c ≠ 0 → parentID c = Some p → chain parentID p a → chain parentID c a.

(** A set of collections that holds, with each member, its whole chain. *)
Definition closed (parentID : Z → option Z) (cs : list Z) : Prop :=
  ∀ c a, c ∈ cs → chain parentID c a → a ∈ cs.

(** ** Auxiliary notions for the queues *)

(** The heap [h'] comes from [h] by setting [cancelled] flags: every object
    of [h] is still there, with its [id], and stays cancelled once it is. *)
Definition heap_le (h h' : list Task) : Prop :=
  ∀ r t, h !! r = Some t →
         ∃ t', h' !! r = Some t' ∧ task_id t' = task_id t
               ∧ (cancelled t = true → cancelled t' = true).

(** The store and the exports made so far. *)
Definition dbt (st : State) : DB.Collection * list (Z * Translate) :=
  (db st, translations st).

(** The exports made for the definition with key [k]. *)
Definition exports_of (k : Z) (st : State) : list (Z * Translate) :=
  filter (λ e, e.1 = k) (translations st).

(** Going from [st] to [st'] neither brings a definition with key [k] into
    the store nor exports for it, if the store has none. *)
Definition quiet (k : Z) (st st' : State) : Prop :=
  DB.get k (db st) = None →
  DB.get k (db st') = None ∧ exports_of k st' = exports_of k st.

(** ** Sample data *)

Definition sample_def (s : Status) : AutoExportDef :=
  {| type := collection; id := 7; path := "/home/u/refs.bib";
     translatorID := "better-bibtex"; exportNotes := false;
     useJournalAbbreviation := false; status := s; error := "" |}.

Definition sample_db (s : Status) : DB.Collection :=
  DB.insert (sample_def s) {| DB.data := []; DB.maxId := 0 |}.

(** The module loaded over [sample_db], with queues that start running. *)
Definition sample_state (s : Status) (m : Mode) : State :=
  module_load (sample_db s) m false.

(** ** Scenarios for the debounce queue *)

(** The module loaded in mode [immediate] over the sample definition (key 1,
    collection 7, status [done]), after [init]. *)
Definition ready : State := AutoExport.init (sample_state St_done Immediate).

(** The collection of the sample definition is touched. *)
Definition touch (st : State) : State := AutoExport.schedule collection [7] st.

(** The workers of the first and of the second push: task objects 0 and 2,
    their copies 1 and 3. *)
Definition first_worker : Worker :=
  {| w_task := 0; w_local := 1; w_await := Delay 1000 |}.

Definition second_worker (due : Z) : Worker :=
  {| w_task := 2; w_local := 3; w_await := Delay due |}.

(** A push at time 0, whose worker starts, and a second push at time 500,
    within the quiet period of the first. *)
Definition pushed_twice : option State :=
  st ← engine_run [SchedulerStart; Tick 500] (touch ready);
  Some (touch st).

(** The second worker starts at once; both waits then elapse. *)
Definition overlapping : list Event :=
  [SchedulerStart; Tick 500; SchedulerWake first_worker;
   Tick 500; SchedulerWake (second_worker 1500)].

(** The second worker starts only when the first handler is done. *)
Definition serial : list Event :=
  [Tick 500; SchedulerWake first_worker; SchedulerStart;
   Tick 1000; SchedulerWake (second_worker 2000)].

(** A push at time 0, whose worker starts, [scheduler.cancel(1)] at time
    500, and the end of the wait at time 1000. *)
Definition cancelled_then_woken : option State :=
  st ← engine_run [SchedulerStart; Tick 500] (touch ready);
  engine_run [Tick 500; SchedulerWake first_worker] (queue_cancel Kscheduler 1 st).

(** ** More sample states *)

Definition sample_doc : Doc := {| loki := 1; obj := sample_def St_done |}.

(** [scheduled.push({ id: 1 })] on the ready module. *)
Definition run_queued : State := queue_push_new Kscheduled 1 ready.

Definition run_worker : Worker :=
  {| w_task := 0; w_local := 0; w_await := Export (translate_call sample_doc) |}.


(** Collection 3 in collection 2 in collection 1. *)
Definition nested_parent (c : Z) : option Z :=
  if decide (c = 3) then Some 2 else if decide (c = 2) then Some 1 else None.

Definition nested_rank (c : Z) : nat := Z.to_nat c.

Definition nested_item : Item := {| libraryID := 1; getCollections := [3] |}.

Definition unfiled_item : Item := {| libraryID := 1; getCollections := [] |}.

(** Mode [idle], and the idle service has notified [idle]. *)
Definition idle_state : State :=
  idleObserver_observe T_idle
    (AutoExport.init (module_load (sample_db St_done) Idle false)).


(** ** Scenarios for [remove] *)

(** [run(1)], the run executor starts on the entry, and the definition is
    removed while the export is under way. *)
Definition export_started : list Call := [Run 1; Engine ScheduledStart].

Definition removed_during_export : list Call :=
  export_started ++ [Remove collection [7]].

(** The export then fails. *)
Definition disk_full : JsThrown := JsError "Error" "disk full".

Definition removed_then_settled : list Call :=
  removed_during_export ++ [Engine (ScheduledSettle run_worker (Some disk_full))].

(** A push for the sample definition, whose worker has started and is
    waiting when the definition is removed, half way through the quiet
    period. *)
Definition removed_while_waiting : list Call :=
  [Schedule collection [7]; Engine SchedulerStart; Engine (Tick 500);
   Remove collection [7]].

(** The wait ends, and the run queue starts on what it holds. *)
Definition woken_after_remove : list Call :=
  removed_while_waiting
  ++ [Engine (Tick 500); Engine (SchedulerWake first_worker); Engine ScheduledStart].

(** ** Well-formed stores *)

(** The keys in the store are distinct and were handed out by [insert], and
    no two definitions share an output path. *)
Definition db_wf (c : DB.Collection) : Prop :=
  NoDup (loki <$> DB.data c)
  ∧ (∀ d, d ∈ DB.data c → loki d ≤ DB.maxId c)
  ∧ NoDup ((λ d, path (obj d)) <$> DB.data c).

(** * Searching the PATH (lines 250-351 of the source)

    The second module of the source: [getEnv], [expandWinVars] and
    [pathSearch].  The process environment, the platform flag, the
    [permutater] package and the file objects are parameters; the cache
    [alias] is threaded through as a finite map. *)

Module PathSearch.

(** The truth value of a string. *)
Definition truthy (s : string) : bool := bool_decide (s ≠ "").

(** [s.split(sep)] for a separator of one character. *)
Fixpoint split (sep : Ascii.ascii) (s : string) : list string :=
  match s with
  | EmptyString => [""]
  | String c s' =>
      if decide (c = sep) then "" :: split sep s'
      else match split sep s' with
           | [] => [String c ""]
           | p :: ps => String c p :: ps
           end
  end.

(** [c.toUpperCase()] and [c.toLowerCase()] on the characters of a name:
    the letters of ASCII change case, every other character stays. *)
Definition toUpperCase (c : Ascii.ascii) : Ascii.ascii :=
  let n := Ascii.nat_of_ascii c in
  if ((97 <=? n) && (n <=? 122))%nat then Ascii.ascii_of_nat (n - 32) else c.

Definition toLowerCase (c : Ascii.ascii) : Ascii.ascii :=
  let n := Ascii.nat_of_ascii c in
  if ((65 <=? n) && (n <=? 90))%nat then Ascii.ascii_of_nat (n + 32) else c.

(** The character class [[A-Zaz]] of the pattern at line 295: the capital
    letters, [a] and [z]. *)
Definition var_char (c : Ascii.ascii) : bool :=
  let n := Ascii.nat_of_ascii c in
  (((65 <=? n) && (n <=? 90)) || (n =? 97) || (n =? 122))%nat.

(** The longest run of [var_char]s a string starts with, and what follows. *)
Fixpoint span_name (s : string) : string * string :=
  match s with
  | EmptyString => ("", "")
  | String c s' =>
      if var_char c then let '(name, rest) := span_name s' in (String c name, rest)
      else ("", s)
  end.

(** A match of [/%([A-Zaz]+)%/] at the very start of [s]: the captured name
    and what follows the match.  A name cannot hold a [%], so the greedy
    [+] has one way to match. *)
Definition match_ref (s : string) : option (string * string) :=
  match s with
  | String c s' =>
      if decide (c = "%"%char) then
        match span_name s' with
        | (String n name, String c' rest) =>
            if decide (c' = "%"%char) then Some (String n name, rest) else None
        | _ => None
        end
      else None
  | EmptyString => None
  end.

(** Whether the pattern matches somewhere in [s]. *)
Fixpoint has_ref (s : string) : bool :=
  match match_ref s with
  | Some _ => true
  | None => match s with
            | EmptyString => false
            | String _ s' => has_ref s'
            end
  end.

(** The number of [%] in a string. *)
Fixpoint count_percent (s : string) : nat :=
  match s with
  | EmptyString => 0
  | String c s' => (if decide (c = "%"%char) then 1 else 0) + count_percent s'
  end.

(** A name the pattern can capture whole: made of [var_char]s only. *)
Fixpoint is_name (s : string) : bool :=
  match s with
  | EmptyString => true
  | String c s' => var_char c && is_name s'
  end.

(** A file object: each test answers or throws ([None]). *)
Record File := {
  file_exists : option bool;
  file_isFile : option bool;
  file_isExecutable : option bool;
  file_path : string;
}.

(** [cmd.exists() && cmd.isFile() && cmd.isExecutable()] (line 339), left
    to right and only as far as needed; [None] when a test throws. *)
Definition is_command (cmd : File) : option bool :=
  match file_exists cmd with
  | None => None
  | Some false => Some false
  | Some true =>
      match file_isFile cmd with
      | None => None
      | Some false => Some false
      | Some true => file_isExecutable cmd
      end
  end.

(** What reading [alias[variable]] on the plain object [alias] gives: an
    entry stored in it, a member every object inherits from
    [Object.prototype] (a function, or the prototype itself for
    [__proto__]), kept through its string conversion, or [undefined]. *)
Inductive Member :=
  | Own (a : string)
  | Inherited (text : string)
  | Undefined.

Section env.

(** [Zotero.isWin] *)
Variable isWin : bool.

(** [ENV.get(name)]: the empty string for a variable that is not set. *)
Variable ENV_get : string → string.

(** The [permutater] package, applied to the [charactersAt] table. *)
Variable permutater : list (list string) → list string.

(** [new FileUtils.File(name)]; [None] when the constructor throws. *)
Variable FileUtils_File : string → option File.

Abbreviation Alias := (gmap string string).

(** Lines 259-269 *)
Definition permutations (word : string) : list string :=
  permutater ((λ c, [String (toUpperCase c) ""; String (toLowerCase c) ""])
                <$> String.list_ascii_of_string word).

(** The loop of lines 279-284: the first permutation that is set, or the
    empty string the entry starts with. *)
Fixpoint first_set (perms : list string) : string :=
  match perms with
  | [] => ""
  | p :: ps => if truthy (ENV_get p) then p else first_set ps
  end.

(** Lines 272-289, for the names of variables that are not names of
    members every object inherits ([getEnv_object] below covers those as
    well): the cache [alias] is read as the map of the entries stored in
    it; the entry is written once, with the spelling the loop ends on. *)
Definition getEnv (variable : string) (alias : Alias) : string * Alias :=
  let value := ENV_get variable in
  if truthy value || negb isWin then (value, alias)
  else
    let alias :=
      match alias !! variable with
      | None => <[variable := first_set (permutations variable)]> alias
      | Some _ => alias
      end in
    match alias !! variable with
    | Some a => if truthy a then (ENV_get a, alias) else ("", alias)
    | None => ("", alias)
    end.

(** [value.replace(/%([A-Zaz]+)%/g, callback)] with the callback of lines
    295-298: the matches are found from left to right, each replaced by
    what [getEnv] returns for its name; the flag tells whether the callback
    ran.  [fuel] bounds the recursion, and the length of the string, plus
    one, is enough. *)
Fixpoint replace_refs (fuel : nat) (s : string) (alias : Alias)
    : string * Alias * bool :=
  match fuel with
  | O => (s, alias, false)
  | S n =>
      match match_ref s with
      | Some (name, rest) =>
          let '(v, alias1) := getEnv name alias in
          let '(out, alias2, _) := replace_refs n rest alias1 in
          (v +:+ out, alias2, true)
      | None =>
          match s with
          | EmptyString => ("", alias, false)
          | String c s' =>
              let '(out, alias1, more) := replace_refs n s' alias in
              (String c out, alias1, more)
          end
      end
  end.

Definition replace (s : string) (alias : Alias) : string * Alias * bool :=
  replace_refs (S (String.length s)) s alias.

(** Lines 291-301; [None] when [fuel] rounds of the [while] loop do not
    end it. *)
Fixpoint expandWinVars (fuel : nat) (value : string) (alias : Alias)
    : option (string * Alias) :=
  match fuel with
  | O => None
  | S n =>
      let '(value', alias', more) := replace value alias in
      if more then expandWinVars n value' alias' else Some (value', alias')
  end.

(** [.map(expandWinVars)] (line 314) *)
Fixpoint expand_all (fuel : nat) (paths : list string) (alias : Alias)
    : option (list string * Alias) :=
  match paths with
  | [] => Some ([], alias)
  | p :: ps =>
      '(p', alias1) ← expandWinVars fuel p alias;
      '(ps', alias2) ← expand_all fuel ps alias1;
      Some (p' :: ps', alias2)
  end.

(** [pe.length > 1 && pe.startsWith('.')] (line 315) *)
Definition is_pathext (pe : string) : bool :=
  match pe with
  | String c (String _ _) => bool_decide (c = "."%char)
  | _ => false
  end.

(** The body of the [try] of lines 337-345: the path it returns, if it
    does; an exception is caught and logged. *)
Definition try_candidate (name : string) : option string :=
  match FileUtils_File name with
  | None => None
  | Some cmd =>
      match is_command cmd with
      | Some true => Some (file_path cmd)
      | _ => None
      end
  end.

(** The inner and the outer loop of lines 335-347. *)
Fixpoint search_exts (dir sep bin : string) (exts : list string) : option string :=
  match exts with
  | [] => None
  | pathext :: exts' =>
      match try_candidate (dir +:+ sep +:+ bin +:+ pathext) with
      | Some found => Some found
      | None => search_exts dir sep bin exts'
      end
  end.

Fixpoint search_dirs (dirs : list string) (sep bin : string) (exts : list string)
    : option string :=
  match dirs with
  | [] => None
  | dir :: dirs' =>
      match search_exts dir sep bin exts with
      | Some found => Some found
      | None => search_dirs dirs' sep bin exts
      end
  end.

(** Lines 304-351.  The result is [None] for [null]; the whole is [None]
    when an [expandWinVars] does not end within [fuel] rounds. *)
Definition pathSearch (fuel : nat) (bin : string) (alias : Alias)
    : option (option string * Alias) :=
  if isWin then
    let '(PATH, alias1) := getEnv "PATH" alias in
    '(path, alias2) ← expand_all fuel (filter (λ p, truthy p = true) (split ";" PATH))
                         alias1;
    let '(PATHEXT, alias3) := getEnv "PATHEXT" alias2 in
    let pathext := filter (λ pe, is_pathext pe = true) (split ";" PATHEXT) in
    if decide (length pathext = 0%nat) then Some (None, alias3)
    else if decide (length path = 0%nat) then Some (None, alias3)
    else Some (search_dirs path "\" bin pathext, alias3)
  else
    let PATH := ENV_get "PATH" in
    let path := filter (λ p, truthy p = true)
                       (split ":" (if truthy PATH then PATH else "")) in
    if decide (length path = 0%nat) then Some (None, alias)
    else Some (search_dirs path "/" bin [""], alias).

(** The names the two loops try, in the order they try them. *)
Definition candidates (dirs : list string) (sep bin : string) (exts : list string)
    : list string :=
  dir ← dirs; pathext ← exts; [dir +:+ sep +:+ bin +:+ pathext].

(** [found] is what the first of [names] to pass the tests gives; the names
    before it throw or fail a test. *)
Definition first_hit (names : list string) (found : string) : Prop :=
  ∃ before name after,
    names = before ++ name :: after
    ∧ try_candidate name = Some found
    ∧ ∀ n, n ∈ before → try_candidate n = None.

(** What the environment holds for a variable, the fall-back to another
    spelling of its name on Windows included. *)
Definition env_value (variable : string) : string :=
  let value := ENV_get variable in
  if truthy value || negb isWin then value
  else
    let a := first_set (permutations variable) in
    if truthy a then ENV_get a else "".

(** Every entry of the cache is the spelling the search of lines 279-284
    finds for its variable. *)
Definition alias_ok (alias : Alias) : Prop :=
  ∀ v a, alias !! v = Some a → a = first_set (permutations v).

(** *** [getEnv] on every name *)

(** The string conversion of [Object.prototype[name]] for the names every
    plain object answers to without having them stored ([constructor],
    [toString], [__proto__], ...), and [None] for every other name. *)
Variable inherited : string → option string.

(** [alias[variable]] *)
Definition alias_member (alias : Alias) (variable : string) : Member :=
  match alias !! variable with
  | Some a => Own a
  | None =>
      match inherited variable with
      | Some text => Inherited text
      | None => Undefined
      end
  end.

(** Lines 272-289 with [alias] as the plain object it is.  For an
    inherited member [typeof alias[variable]] is not ['undefined'], so the
    search of lines 278-284 is skipped and nothing is stored; the member is
    an object, hence truthy, and [ENV.get] is called with it. *)
Definition getEnv_object (variable : string) (alias : Alias) : string * Alias :=
  let value := ENV_get variable in
  if truthy value || negb isWin then (value, alias)
  else
    let alias :=
      match alias_member alias variable with
      | Undefined => <[variable := first_set (permutations variable)]> alias
      | _ => alias
      end in
    match alias_member alias variable with
    | Own a => if truthy a then (ENV_get a, alias) else ("", alias)
    | Inherited text => (ENV_get text, alias)
    | Undefined => ("", alias)
    end.

(** What [getEnv_object] answers, as a function of the environment alone. *)
Definition env_value_object (variable : string) : string :=
  let value := ENV_get variable in
  if truthy value || negb isWin then value
  else
    match inherited variable with
    | Some text => ENV_get text
    | None =>
        let a := first_set (permutations variable) in
        if truthy a then ENV_get a else ""
    end.

(** Every entry of the cache was stored by [getEnv_object]: under a name
    that is not inherited, the spelling the search finds for it. *)
Definition alias_ok_object (alias : Alias) : Prop :=
  ∀ v a, alias !! v = Some a → inherited v = None ∧ a = first_set (permutations v).

End env.

End PathSearch.

(** ** Sample data for the further properties *)

(** A definition that watches collection 1, alone in its store. *)
Definition root_def : AutoExportDef :=
  {| type := collection; id := 1; path := "/home/u/root.bib";
     translatorID := "better-bibtex"; exportNotes := true;
     useJournalAbbreviation := false; status := St_done; error := "" |}.

Definition root_ready : State :=
  AutoExport.init
    (module_load (DB.insert root_def {| DB.data := []; DB.maxId := 0 |}) Off false).

(** [scheduled.push({ id: 99 })]: no definition has key 99. *)
Definition orphan_run_queued : State := queue_push_new Kscheduled 99 ready.

(** Every spelling the table allows, the first choices first. *)
Definition all_spellings (config : list (list string)) : list string :=
  foldr (λ choices rest, c ← choices; s ← rest; [c +:+ s]) [""] config.

Definition unix_env (name : string) : string :=
  if decide (name = "PATH") then "/usr/local/bin::/usr/bin" else "".

Definition executable (name : string) : PathSearch.File :=
  {| PathSearch.file_exists := Some true; PathSearch.file_isFile := Some true;
     PathSearch.file_isExecutable := Some true; PathSearch.file_path := name |}.

Definition missing (name : string) : PathSearch.File :=
  {| PathSearch.file_exists := Some false; PathSearch.file_isFile := None;
     PathSearch.file_isExecutable := None; PathSearch.file_path := name |}.

(** [/usr/local/bin/git] cannot be looked at; [/usr/bin/git] is there. *)
Definition unix_files (name : string) : option PathSearch.File :=
  if decide (name = "/usr/local/bin/git") then None
  else if decide (name = "/usr/bin/git") then Some (executable name)
  else Some (missing name).

(** A Windows environment whose search path is set as [Path]. *)
Definition win_env (name : string) : string :=
  if decide (name = "Path") then "C:\bin;;D:\tools"
  else if decide (name = "PATHEXT") then ".EXE;.;bat;.CMD"
  else "".

Definition win_files (name : string) : option PathSearch.File :=
  if decide (name = "C:\bin\git.EXE") then None
  else if decide (name = "D:\tools\git.CMD") then Some (executable name)
  else Some (missing name).

(** Two of the members every object inherits, with the text their string
    conversion gives. *)
Definition object_members (name : string) : option string :=
  if decide (name = "constructor") then Some "function Object() { [native code] }"
  else if decide (name = "toString") then Some "function toString() { [native code] }"
  else None.

(** A Windows environment with a variable named like the text of a
    member. *)
Definition odd_env (name : string) : string :=
  if decide (name = "function Object() { [native code] }") then "odd" else win_env name.

(** An environment in which [PATH] refers to itself. *)
Definition loop_env (name : string) : string :=
  if decide (name = "PATH") then "%PATH%" else "".

(** * Properties *)

(** ** The store *)

Lemma get_loki (k : Z) (c : DB.Collection) (ae : Doc) :
  DB.get k c = Some ae → loki ae = k.
Proof.
  unfold DB.get. intros H. apply head_Some_elem_of in H.
  apply list_elem_of_filter in H. tauto.
Qed.

Lemma get_elem_of (k : Z) (c : DB.Collection) (ae : Doc) :
  DB.get k c = Some ae → ae ∈ DB.data c.
Proof.
  unfold DB.get. intros H. apply head_Some_elem_of in H.
  apply list_elem_of_filter in H. tauto.
Qed.

Lemma get_None (k : Z) (c : DB.Collection) :
  DB.get k c = None ↔ ∀ d, d ∈ DB.data c → loki d ≠ k.
Proof.
  unfold DB.get. rewrite head_None. split.
  - intros H d Hd Hk.
    assert (d ∈ filter (λ d, loki d = k) (DB.data c)) as Hin
      by (apply list_elem_of_filter; auto).
    rewrite H in Hin. by apply elem_of_nil in Hin.
  - intros H. apply elem_of_nil_inv. intros d [Hk Hd]%list_elem_of_filter.
    by apply (H d).
Qed.

Lemma get_replace (l : list Doc) (ae : Doc) (k : Z) :
  head (filter (λ d, loki d = k)
          ((λ d, if decide (loki d = loki ae) then ae else d) <$> l))
  = (λ d, if decide (loki d = loki ae) then ae else d)
      <$> head (filter (λ d, loki d = k) l).
Proof.
  induction l as [|d l IH]; [done|].
  rewrite fmap_cons, !filter_cons.
  destruct (decide (loki d = loki ae)) as [E|E];
    destruct (decide (loki d = k)) as [E'|E']; simpl;
    repeat case_decide; try congruence; try done.
Qed.

(** Updating a stored document succeeds, stores it, and leaves the others. *)
Lemma update_stored (ae old : Doc) (c : DB.Collection) :
  DB.get (loki ae) c = Some old →
  ∃ c', DB.update ae c = Some c'
        ∧ DB.get (loki ae) c' = Some ae
        ∧ (∀ k, k ≠ loki ae → DB.get k c' = DB.get k c)
        ∧ (∀ k, DB.get k c = None → DB.get k c' = None).
Proof.
  intros Hget. unfold DB.update. rewrite Hget. eexists. split; [done|].
  unfold DB.get in *. simpl. split; [|split].
  - rewrite get_replace, Hget. simpl.
    apply head_Some_elem_of, list_elem_of_filter in Hget.
    rewrite decide_True; tauto.
  - intros k Hk. rewrite get_replace.
    destruct (head (filter (λ d, loki d = k) (DB.data c))) as [d|] eqn:E; [|done].
    apply head_Some_elem_of, list_elem_of_filter in E. simpl.
    rewrite decide_False; [done|]. destruct E. congruence.
  - intros k Hk. by rewrite get_replace, Hk.
Qed.

Lemma set_status_loki (s : Status) (ae : Doc) : loki (set_status s ae) = loki ae.
Proof. done. Qed.

Lemma set_error_loki (e : string) (ae : Doc) : loki (set_error e ae) = loki ae.
Proof. done. Qed.

(** ** The run executor *)

(** What [scheduled]'s handler does once the export has settled, for a
    worker whose definition is still stored. *)
Lemma scheduled_settled_stored (result : option JsThrown) (w : Worker) (st : State)
    (t : Task) (ae : Doc) :
  heap st !! w_local w = Some t →
  DB.get (task_id t) (db st) = Some ae →
  ∃ c, scheduled_settled result w st = Some (with_db (λ _, c) st, Fulfilled)
       ∧ DB.get (task_id t) c
         = Some (set_status St_done
                   (set_error (match result with
                               | None => ""
                               | Some err => template err
                               end) ae)).
Proof.
  intros Ht Hae. unfold scheduled_settled. rewrite Ht. simpl. rewrite Hae.
  pose proof (get_loki _ _ _ Hae) as Hk.
  set (ae' := set_status St_done (set_error _ ae)).
  destruct (update_stored ae' ae (db st)) as (c & Hup & Hget & _).
  { by rewrite <- Hk in Hae. }
  rewrite Hup. exists c. split; [done|]. by rewrite <- Hk.
Qed.

(** ** The debounce scheduler: a task without a definition *)


(** ** [add] *)

(** C8.  After [add(ae)], looking up the store by [ae]'s path finds exactly
    one record, the one just inserted (under the next [$loki]); the records
    stored at other paths are all kept. *)
Theorem C8_add_replaces_path (ae : AutoExportDef) (st : State) :
  let added := {| loki := DB.maxId (db st) + 1; obj := ae |} in
  DB.find_path (path ae) (db (AutoExport.add ae st)) = [added]
  ∧ (∀ d, d ∈ DB.data (db (AutoExport.add ae st)) →
          path (obj d) = path ae → d = added)
  ∧ (∀ d, path (obj d) ≠ path ae →
          (d ∈ DB.data (db (AutoExport.add ae st)) ↔ d ∈ DB.data (db st))).
Proof.
  intros added.
  assert (DB.find_path (path ae) (db (AutoExport.add ae st)) = [added]) as Hfind.
  { unfold DB.find_path, AutoExport.add. simpl. rewrite filter_app.
    rewrite (elem_of_nil_inv (filter _ (filter _ _))).
    - rewrite filter_cons_True; done.
    - intros d [Hp [Hn _]%list_elem_of_filter]%list_elem_of_filter. done. }
  split; [done|]. split.
  - intros d Hd Hp.
    assert (d ∈ DB.find_path (path ae) (db (AutoExport.add ae st))) as Hin
      by (apply list_elem_of_filter; done).
    rewrite Hfind in Hin. by apply list_elem_of_singleton in Hin.
  - intros d Hp. unfold AutoExport.add. simpl.
    rewrite elem_of_app, list_elem_of_filter, list_elem_of_singleton. split.
    + intros [[_ ?]| ->]; [done|]. done.
    + intros ?. left. done.
Qed.

(** ** Pushing onto the debounce queue *)

Lemma put_keys (key : Z) (r : ref) (l : list (Z * ref)) (k : Z) :
  k ∈ (put key r l).*1 ↔ k = key ∨ k ∈ l.*1.
Proof.
  unfold put. case_decide as Hin.
  - assert (((λ e : Z * ref, if decide (e.1 = key) then (key, r) else e) <$> l).*1
            = l.*1) as E.
    { clear Hin. induction l as [|[a b] l IH]; [done|].
      rewrite !fmap_cons, IH. simpl. case_decide; simpl; congruence. }
    rewrite E. split; [by right|]. intros [->|?]; done.
  - rewrite fmap_app, elem_of_app. simpl. rewrite list_elem_of_singleton. tauto.
Qed.

(** What a push of a fresh task onto [scheduler] changes: the heap, and the
    queue's entries and push log. *)
Lemma push_new_scheduler (key : Z) (st : State) :
  let st' := queue_push_new Kscheduler key st in
  db st' = db st ∧ scheduled st' = scheduled st
  ∧ autoExport st' = autoExport st ∧ translations st' = translations st
  ∧ now st' = now st
  ∧ stopped (scheduler st') = stopped (scheduler st)
  ∧ workers (scheduler st') = workers (scheduler st)
  ∧ pushes (scheduler st') = pushes (scheduler st) ++ [key]
  ∧ (∀ k, k ∈ (tasks (scheduler st')).*1 ↔ k = key ∨ k ∈ (tasks (scheduler st)).*1).
Proof.
  simpl. repeat split; try done; apply put_keys.
Qed.

Lemma push_all_scheduler (l : list Doc) (st : State) :
  let st' := foldl (λ st ae, queue_push_new Kscheduler (loki ae) st) st l in
  db st' = db st ∧ scheduled st' = scheduled st
  ∧ autoExport st' = autoExport st ∧ translations st' = translations st
  ∧ now st' = now st
  ∧ stopped (scheduler st') = stopped (scheduler st)
  ∧ workers (scheduler st') = workers (scheduler st)
  ∧ pushes (scheduler st') = pushes (scheduler st) ++ (loki <$> l)
  ∧ (∀ k, k ∈ (tasks (scheduler st')).*1
          ↔ k ∈ (tasks (scheduler st)).*1 ∨ k ∈ loki <$> l).
Proof.
  revert st. induction l as [|ae l IH]; intros st.
  - simpl. rewrite app_nil_r. repeat split; try done; try tauto.
    intros [?|[]%elem_of_nil]. done.
  - cbn [foldl].
    destruct (IH (queue_push_new Kscheduler (loki ae) st))
      as (H1 & H2 & H3 & H4 & H5 & H6 & H7 & H8 & H9).
    destruct (push_new_scheduler (loki ae) st)
      as (G1 & G2 & G3 & G4 & G5 & G6 & G7 & G8 & G9).
    cbv zeta. rewrite H1, H2, H3, H4, H5, H6, H7, H8, G1, G2, G3, G4, G5, G6, G7, G8.
    repeat split; try done.
    + by rewrite fmap_cons, <- app_assoc.
    + rewrite H9, G9, fmap_cons, elem_of_cons. tauto.
    + rewrite H9, G9, fmap_cons, elem_of_cons. tauto.
Qed.

(** ** [init] *)

(** C3, as the code has it.  [init] pushes exactly the definitions whose
    status is not [done], in store order, onto the debounce queue
    [scheduler]: afterwards the queued keys of [scheduler] are the ones
    queued before together with the keys of those definitions, and the run
    queue [scheduled] is as it was.  The scheduler is then resumed when the
    trigger mode is [immediate], and otherwise left as it was. *)
Theorem C3_init_pushes_to_scheduler (st : State) :
  let st' := AutoExport.init st in
  let pending := DB.find_not_done (db st) in
  pushes (scheduler st') = pushes (scheduler st) ++ (loki <$> pending)
  ∧ (∀ k, k ∈ (tasks (scheduler st')).*1
          ↔ k ∈ (tasks (scheduler st)).*1 ∨ k ∈ loki <$> pending)
  ∧ (∀ ae, ae ∈ pending ↔ ae ∈ DB.data (db st) ∧ status (obj ae) ≠ St_done)
  ∧ scheduled st' = scheduled st
  ∧ db st' = db st
  ∧ stopped (scheduler st')
    = (if decide (autoExport st = Immediate) then false else stopped (scheduler st)).
Proof.
  intros st' pending. subst st'. unfold AutoExport.init.
  destruct (push_all_scheduler pending st)
    as (H1 & H2 & H3 & H4 & H5 & H6 & H7 & H8 & H9).
  fold pending. cbv zeta in *.
  set (st1 := foldl _ st pending) in *.
  rewrite H3.
  assert (∀ ae, ae ∈ pending ↔ ae ∈ DB.data (db st) ∧ status (obj ae) ≠ St_done) as Hp.
  { intros ae. unfold pending, DB.find_not_done. rewrite list_elem_of_filter. tauto. }
  destruct (decide (autoExport st = Immediate)); simpl;
    (split; [done|]); (split; [exact H9|]); (split; [exact Hp|]); done.
Qed.

(** C3, as stated, fails: with one definition left in status [scheduled],
    [init] puts nothing on the run queue [scheduled]; the definition's key
    is queued on the debounce queue [scheduler], where it still has to go
    through the wait. *)
Lemma C3_init_leaves_run_queue_empty :
  let st := sample_state St_scheduled Immediate in
  ¬ (∀ ae, ae ∈ DB.find_not_done (db st) →
           loki ae ∈ pushes (scheduled (AutoExport.init st)))
  ∧ tasks (scheduled (AutoExport.init st)) = []
  ∧ (tasks (scheduler (AutoExport.init st))).*1 = [1].
Proof.
  split; [|done]. intros H.
  specialize (H {| loki := 1; obj := sample_def St_scheduled |}).
  apply (elem_of_nil (1 : Z)). apply H. by apply list_elem_of_singleton.
Qed.

(** ** The trigger controller *)


Lemma queue_push_ctl (k : Kind) (key : Z) (r : ref) (st : State) :
  ctl (queue_push k key r st) = ctl st.
Proof. destruct k; done. Qed.

















(** ** [changed] *)

Lemma set_add_elem (x a : Z) (s : list Z) : a ∈ set_add x s ↔ a = x ∨ a ∈ s.
Proof.
  unfold set_add. case_decide.
  - split; [by right|]. intros [->|?]; done.
  - rewrite elem_of_app, list_elem_of_singleton. tauto.
Qed.

Lemma set_add_NoDup (x : Z) (s : list Z) : NoDup s → NoDup (set_add x s).
Proof.
  intros Hs. unfold set_add. case_decide; [done|].
  apply NoDup_app. split; [done|]. split; [|apply NoDup_singleton].
  intros y Hy ->%list_elem_of_singleton. done.
Qed.

Lemma truthy_spec (c : Z) : truthy c = true ↔ c ≠ 0.
Proof. unfold truthy. by rewrite bool_decide_eq_true. Qed.

Section changed_properties.

Variable parentID : Z → option Z.

(** The collection hierarchy is well founded: some measure goes down along
    every parent link. *)
Variable rank : Z → nat.
Hypothesis rank_parent :
  ∀ c p, c ≠ 0 → parentID c = Some p → p ≠ 0 → (rank p < rank c)%nat.

Local Abbreviation chain := (chain parentID).
Local Abbreviation closed := (closed parentID).
Local Abbreviation walk := (AutoExport.walk parentID).
Local Abbreviation visit := (AutoExport.visit parentID).

Lemma chain_nonzero (c a : Z) : chain c a → c ≠ 0.
Proof. by destruct 1. Qed.

Lemma chain_unfold (c a : Z) :
  chain c a ↔ c ≠ 0 ∧ (a = c ∨ ∃ p, parentID c = Some p ∧ chain p a).
Proof.
  split.
  - destruct 1 as [c Hc|c p a Hc Hp Hpa]; eauto.
  - intros [Hc [->|(p & Hp & Hpa)]]; [by apply chain_self|by eapply chain_parent].
Qed.

Lemma chain_trans (c b a : Z) : chain c b → chain b a → chain c a.
Proof.
  induction 1 as [c Hc|c p b Hc Hp Hpb IH]; [done|].
  intros Hba. eapply chain_parent; eauto.
Qed.

(** The [while] loop adds the collection it starts from and its chain, and
    ends within [fuel] iterations when [fuel] exceeds the rank. *)
Lemma walk_spec (fuel : nat) (o : option Z) (cs : list Z) :
  (∀ c, o = Some c → c ≠ 0 → (rank c < fuel)%nat) →
  ∃ cs', walk fuel o cs = Some cs'
         ∧ (NoDup cs → NoDup cs')
         ∧ (∀ a, a ∈ cs' ↔ a ∈ cs ∨ ∃ c, o = Some c ∧ chain c a).
Proof.
  revert o cs. induction fuel as [|n IH]; intros o cs Hfuel.
  - destruct o as [c|]; simpl.
    + destruct (truthy c) eqn:Ht.
      * apply truthy_spec in Ht. specialize (Hfuel c eq_refl Ht). lia.
      * exists cs. split; [done|]. split; [done|]. intros a. split; [by left|].
        intros [?|(c' & [= <-] & Hch)]; [done|]. apply chain_nonzero in Hch.
        apply truthy_spec in Hch. congruence.
    + exists cs. split; [done|]. split; [done|]. intros a. split; [by left|].
      intros [?|(c' & [=] & _)]. done.
  - destruct o as [c|]; simpl.
    + destruct (truthy c) eqn:Ht.
      * apply truthy_spec in Ht.
        destruct (IH (parentID c) (set_add c cs)) as (cs' & Hw & Hnd & Hin).
        { intros p Hp Hp0. pose proof (rank_parent c p Ht Hp Hp0).
          specialize (Hfuel c eq_refl Ht). lia. }
        exists cs'. split; [done|]. split.
        { intros ?. by apply Hnd, set_add_NoDup. }
        intros a. rewrite Hin, set_add_elem. split.
        -- intros [[->|?]|(p & Hp & Hpa)]; [right|by left|right].
           ++ exists c. split; [done|]. by apply chain_self.
           ++ exists c. split; [done|]. by eapply chain_parent.
        -- intros [?|(c' & [= <-] & Hch)]; [left; by right|].
           apply chain_unfold in Hch as [_ [->|(p & Hp & Hpa)]]; [left; by left|].
           right. eauto.
      * exists cs. split; [done|]. split; [done|]. intros a. split; [by left|].
        intros [?|(c' & [= <-] & Hch)]; [done|]. apply chain_nonzero in Hch.
        apply truthy_spec in Hch. congruence.
    + exists cs. split; [done|]. split; [done|]. intros a. split; [by left|].
      intros [?|(c' & [=] & _)]. done.
Qed.

Lemma visit_spec (fuel : nat) (cs : list Z) (c : Z) :
  (c ≠ 0 → (rank c < fuel)%nat) → NoDup cs → closed cs →
  ∃ cs', visit fuel (Some cs) c = Some cs'
         ∧ NoDup cs' ∧ closed cs'
         ∧ (∀ a, a ∈ cs' ↔ a ∈ cs ∨ chain c a).
Proof.
  intros Hfuel Hnd Hcl. unfold AutoExport.visit. simpl. case_decide as Hin.
  - exists cs. split; [done|]. split; [done|]. split; [done|].
    intros a. split; [by left|]. intros [?|Hch]; [done|]. by eapply Hcl.
  - destruct (walk_spec fuel (Some c) cs) as (cs' & Hw & Hnd' & Hin').
    { by intros ? [= <-]. }
    assert (∀ a, a ∈ cs' ↔ a ∈ cs ∨ chain c a) as Hin''.
    { intros a. rewrite Hin'. split.
      - intros [?|(? & [= <-] & ?)]; eauto.
      - intros [?|?]; eauto. }
    exists cs'. split; [done|]. split; [by apply Hnd'|]. split; [|done].
    intros x a Hx Hxa. apply Hin''. apply Hin'' in Hx as [Hx|Hx].
    + left. by eapply Hcl.
    + right. by eapply chain_trans.
Qed.

Lemma visit_all_spec (fuel : nat) (cl : list Z) (cs : list Z) :
  (∀ c, c ∈ cl → c ≠ 0 → (rank c < fuel)%nat) → NoDup cs → closed cs →
  ∃ cs', foldl (visit fuel) (Some cs) cl = Some cs'
         ∧ NoDup cs' ∧ closed cs'
         ∧ (∀ a, a ∈ cs' ↔ a ∈ cs ∨ ∃ c, c ∈ cl ∧ chain c a).
Proof.
  revert cs. induction cl as [|c cl IH]; intros cs Hfuel Hnd Hcl.
  - exists cs. split; [done|]. split; [done|]. split; [done|].
    intros a. split; [by left|]. intros [?|(c & []%elem_of_nil & _)]. done.
  - cbn [foldl].
    destruct (visit_spec fuel cs c) as (cs1 & Hv & Hnd1 & Hcl1 & Hin1); [|done..|].
    { apply Hfuel. by left. }
    rewrite Hv.
    destruct (IH cs1) as (cs' & Hf & Hnd' & Hcl' & Hin'); [|done..|].
    { intros c' Hc'. apply Hfuel. by right. }
    exists cs'. split; [done|]. split; [done|]. split; [done|].
    intros a. rewrite Hin', Hin1. split.
    + intros [[?|?]|(c' & ? & ?)]; [by left|right|right].
      * exists c. split; [by left|done].
      * exists c'. split; [by right|done].
    + intros [?|(c' & [->|?]%elem_of_cons & ?)]; [left; by left|left; by right|].
      right. eauto.
Qed.

(** The outer loop, from any sets gathered so far. *)
Lemma changed_from_spec (fuel : nat) (items : list Item) (cs ls : list Z) :
  (∀ item c, item ∈ items → c ∈ getCollections item → c ≠ 0 → (rank c < fuel)%nat) →
  NoDup cs → closed cs → NoDup ls →
  ∃ cs' ls',
    foldl (λ acc item,
             '(cs, ls) ← acc;
             let ls' := set_add (libraryID item) ls in
             cs' ← foldl (visit fuel) (Some cs) (getCollections item);
             Some (cs', ls'))
          (Some (cs, ls)) items = Some (cs', ls')
    ∧ NoDup cs' ∧ closed cs' ∧ NoDup ls'
    ∧ (∀ a, a ∈ cs' ↔ a ∈ cs ∨ ∃ item c, item ∈ items ∧ c ∈ getCollections item
                                          ∧ chain c a)
    ∧ (∀ l, l ∈ ls' ↔ l ∈ ls ∨ ∃ item, item ∈ items ∧ libraryID item = l).
Proof.
  revert cs ls. induction items as [|item items IH]; intros cs ls Hfuel Hnd Hcl Hndl.
  - exists cs, ls. split; [done|]. do 3 (split; [done|]). split.
    + intros a. split; [by left|]. intros [?|(i & c & []%elem_of_nil & _)]. done.
    + intros l. split; [by left|]. intros [?|(i & []%elem_of_nil & _)]. done.
  - cbn [foldl]. cbn [mbind option_bind].
    destruct (visit_all_spec fuel (getCollections item) cs)
      as (cs1 & Hv & Hnd1 & Hcl1 & Hin1); [|done..|].
    { intros c Hc. apply (Hfuel item); [by left|done]. }
    rewrite Hv. cbn [mbind option_bind].
    destruct (IH cs1 (set_add (libraryID item) ls))
      as (cs' & ls' & Hf & Hnd' & Hcl' & Hndl' & Hin' & Hinl'); [|done..| |].
    { intros i c Hi. apply Hfuel. by right. }
    { by apply set_add_NoDup. }
    exists cs', ls'. split; [done|]. do 3 (split; [done|]). split.
    + intros a. rewrite Hin', Hin1. split.
      * intros [[?|(c & ? & ?)]|(i & c & ? & ? & ?)]; [by left|right|right].
        -- exists item, c. split; [by left|done].
        -- exists i, c. split; [by right|done].
      * intros [?|(i & c & [->|?]%elem_of_cons & ? & ?)];
          [left; by left|left; right; eauto|right; eauto].
    + intros l. rewrite Hinl', set_add_elem. split.
      * intros [[->|?]|(i & ? & ?)]; [right|by left|right].
        -- exists item. split; [by left|done].
        -- exists i. split; [by right|done].
      * intros [?|(i & [->|?]%elem_of_cons & ?)];
          [left; by right|left; by left|right; eauto].
Qed.

Lemma changed_sets_spec (fuel : nat) (items : list Item) :
  (∀ item c, item ∈ items → c ∈ getCollections item → c ≠ 0 → (rank c < fuel)%nat) →
  ∃ cs ls,
    AutoExport.changed_sets parentID fuel items = Some (cs, ls)
    ∧ NoDup cs ∧ NoDup ls
    ∧ (∀ a, a ∈ cs ↔ ∃ item c, item ∈ items ∧ c ∈ getCollections item ∧ chain c a)
    ∧ (∀ l, l ∈ ls ↔ ∃ item, item ∈ items ∧ libraryID item = l).
Proof.
  intros Hfuel.
  destruct (changed_from_spec fuel items [] [])
    as (cs & ls & Hf & Hnd & _ & Hndl & Hin & Hinl); [done|apply NoDup_nil_2| |apply NoDup_nil_2|].
  { intros c a []%elem_of_nil. }
  exists cs, ls. split; [exact Hf|]. do 2 (split; [done|]). split.
  - intros a. rewrite Hin. split; [|by right]. intros [[]%elem_of_nil|?]. done.
  - intros l. rewrite Hinl. split; [|by right]. intros [[]%elem_of_nil|?]. done.
Qed.

Lemma emitted_collections (cs ls ids : list Z) :
  CollectionsChanged ids ∈ AutoExport.emitted cs ls ↔ ids = cs ∧ cs ≠ [].
Proof.
  unfold AutoExport.emitted. destruct cs, ls; simpl;
    rewrite ?elem_of_cons, ?elem_of_nil; intuition congruence.
Qed.

Lemma emitted_libraries (cs ls ids : list Z) :
  LibrariesChanged ids ∈ AutoExport.emitted cs ls ↔ ids = ls ∧ ls ≠ [].
Proof.
  unfold AutoExport.emitted. destruct cs, ls; simpl;
    rewrite ?elem_of_cons, ?elem_of_nil; intuition congruence.
Qed.

(** C7.  When [fuel] exceeds the rank of every collection the items are
    in, [changed] ends, and the collections it has gathered are, without
    duplicates, exactly the collections some item is in together with their
    chains of ancestors; for a single item in [c3], whose parent is [c2],
    whose parent is [c1], which has no parent, they are exactly [c1], [c2]
    and [c3].  [collections-changed] is emitted, with that set, exactly
    when it is not empty, and [libraries-changed], with the set of
    libraries, exactly when that is not empty. *)
Theorem C7_changed_collections (fuel : nat) (items : list Item) :
  (∀ item c, item ∈ items → c ∈ getCollections item → c ≠ 0 → (rank c < fuel)%nat) →
  ∃ cs ls,
    AutoExport.changed_sets parentID fuel items = Some (cs, ls)
    ∧ NoDup cs
    ∧ (∀ a, a ∈ cs ↔ ∃ item c, item ∈ items ∧ c ∈ getCollections item ∧ chain c a)
    ∧ (∀ lib c1 c2 c3,
         items = [ {| libraryID := lib; getCollections := [c3] |} ] →
         c3 ≠ 0 → parentID c3 = Some c2 →
         c2 ≠ 0 → parentID c2 = Some c1 →
         c1 ≠ 0 → parentID c1 = None →
         ∀ a, a ∈ cs ↔ a = c1 ∨ a = c2 ∨ a = c3)
    ∧ AutoExport.changed_events parentID fuel items = Some (AutoExport.emitted cs ls)
    ∧ (∀ ids, CollectionsChanged ids ∈ AutoExport.emitted cs ls ↔ ids = cs ∧ cs ≠ [])
    ∧ (∀ ids, LibrariesChanged ids ∈ AutoExport.emitted cs ls ↔ ids = ls ∧ ls ≠ []).
Proof.
  intros Hfuel.
  destruct (changed_sets_spec fuel items Hfuel) as (cs & ls & Hs & Hnd & _ & Hin & _).
  exists cs, ls. split; [done|]. split; [done|]. split; [done|]. split; [|split; [|split]].
  - intros lib c1 c2 c3 -> H3 P3 H2 P2 H1 P1 a. rewrite Hin. split.
    + intros (item & c & ->%list_elem_of_singleton & ->%list_elem_of_singleton & Hch).
      simpl in *.
      apply chain_unfold in Hch as [_ [->|(p & Hp & Hch)]]; [tauto|].
      rewrite P3 in Hp. injection Hp as <-.
      apply chain_unfold in Hch as [_ [->|(p & Hp & Hch)]]; [tauto|].
      rewrite P2 in Hp. injection Hp as <-.
      apply chain_unfold in Hch as [_ [->|(p & Hp & Hch)]]; [tauto|].
      congruence.
    + intros Ha. eexists _, c3. split; [by apply list_elem_of_singleton|].
      split; [by apply list_elem_of_singleton|].
      destruct Ha as [->|[->| ->]].
      * eapply chain_parent; [done..|]. eapply chain_parent; [done..|].
        by apply chain_self.
      * eapply chain_parent; [done..|]. by apply chain_self.
      * by apply chain_self.
  - unfold AutoExport.changed_events. by rewrite Hs.
  - apply emitted_collections.
  - apply emitted_libraries.
Qed.

(** C10.  For a batch that is not empty (and [fuel] as in C7), [changed]
    emits [libraries-changed]: its set holds the library of every item, so
    it is not empty.  [collections-changed] is not emitted when no item is
    in a collection. *)
Theorem C10_libraries_changed_emitted (fuel : nat) (items : list Item) :
  items ≠ [] →
  (∀ item c, item ∈ items → c ∈ getCollections item → c ≠ 0 → (rank c < fuel)%nat) →
  ∃ es ls,
    AutoExport.changed_events parentID fuel items = Some es
    ∧ LibrariesChanged ls ∈ es
    ∧ ls ≠ []
    ∧ (∀ l, l ∈ ls ↔ ∃ item, item ∈ items ∧ libraryID item = l)
    ∧ ((∀ item, item ∈ items → getCollections item = []) →
       ∀ cs, CollectionsChanged cs ∉ es).
Proof.
  intros Hne Hfuel.
  destruct (changed_sets_spec fuel items Hfuel) as (cs & ls & Hs & _ & _ & Hin & Hinl).
  assert (ls ≠ []) as Hls.
  { destruct items as [|item items]; [done|]. intros ->.
    apply (elem_of_nil (libraryID item)). apply Hinl. exists item. split; [by left|done]. }
  exists (AutoExport.emitted cs ls), ls.
  split; [unfold AutoExport.changed_events; by rewrite Hs|].
  split; [by apply emitted_libraries|]. split; [done|]. split; [done|].
  intros Hnone ids [-> Hcs]%emitted_collections. apply Hcs.
  apply elem_of_nil_inv. intros a (item & c & Hi & Hc & _)%Hin.
  rewrite (Hnone item Hi) in Hc. by apply elem_of_nil in Hc.
Qed.

End changed_properties.

(** ** Cancelling *)

Lemma heap_le_refl (h : list Task) : heap_le h h.
Proof. intros r t Ht. eauto. Qed.

Lemma heap_le_trans (h1 h2 h3 : list Task) :
  heap_le h1 h2 → heap_le h2 h3 → heap_le h1 h3.
Proof.
  intros H12 H23 r t Ht.
  destruct (H12 r t Ht) as (t2 & Ht2 & Hid2 & Hc2).
  destruct (H23 r t2 Ht2) as (t3 & Ht3 & Hid3 & Hc3).
  exists t3. split; [done|]. split; [congruence|]. auto.
Qed.

(** Cancelling the workers that run a task with key [key] flags the task
    object of each of them, and unflags nothing. *)
Lemma cancel_fold (key : Z) (h : list Task) (ws : list Worker) (r : ref) (t : Task) :
  h !! r = Some t →
  ∃ t', foldr (λ w h', if decide (task_id <$> h !! w_task w = Some key)
                       then handle_cancel w h' else h') h ws !! r = Some t'
        ∧ task_id t' = task_id t
        ∧ (cancelled t = true → cancelled t' = true)
        ∧ (r ∈ w_task <$> ws → task_id t = key → cancelled t' = true).
Proof.
  intros Ht. induction ws as [|w ws IH].
  - exists t. simpl. split; [done|]. split; [done|]. split; [done|].
    by intros []%elem_of_nil.
  - destruct IH as (t1 & Ht1 & Hid & Hc & Hk). cbn [foldr].
    set (h1 := foldr _ h ws) in *. clearbody h1.
    case_decide as Hw.
    + unfold handle_cancel. destruct (decide (w_task w = r)) as [->|Hne].
      * exists {| task_id := task_id t1; cancelled := true |}.
        split; [by rewrite list_lookup_alter_eq, Ht1|]. done.
      * exists t1. split; [by rewrite list_lookup_alter_ne|].
        split; [done|]. split; [done|]. rewrite fmap_cons.
        intros [?|?]%elem_of_cons; [congruence|]. auto.
    + exists t1. split; [done|]. split; [done|]. split; [done|]. rewrite fmap_cons.
      intros [->|?]%elem_of_cons Hkey; [|auto]. rewrite Ht in Hw. simpl in Hw.
      congruence.
Qed.

Lemma cancel_running_le (k : Kind) (key : Z) (st : State) :
  heap_le (heap st) (heap (cancel_running k key st)).
Proof.
  intros r t Ht. simpl.
  destruct (cancel_fold key (heap st) (workers (queue_of k st)) r t Ht)
    as (t' & H1 & H2 & H3 & _). eauto.
Qed.

Lemma cancel_running_flags (k : Kind) (key : Z) (st : State) (w : Worker) (t : Task) :
  w ∈ workers (queue_of k st) → heap st !! w_task w = Some t → task_id t = key →
  ∃ t', heap (cancel_running k key st) !! w_task w = Some t' ∧ cancelled t' = true.
Proof.
  intros Hw Ht Hk. simpl.
  destruct (cancel_fold key (heap st) (workers (queue_of k st)) (w_task w) t Ht)
    as (t' & H1 & _ & _ & H4).
  exists t'. split; [done|]. apply H4; [|done]. by apply list_elem_of_fmap_2.
Qed.

Lemma queue_cancel_le (k : Kind) (key : Z) (st : State) :
  heap_le (heap st) (heap (queue_cancel k key st)).
Proof. destruct k; apply (cancel_running_le _ key st). Qed.

Lemma queue_cancel_flags (k : Kind) (key : Z) (st : State) (w : Worker) (t : Task) :
  w ∈ workers (queue_of k st) → heap st !! w_task w = Some t → task_id t = key →
  ∃ t', heap (queue_cancel k key st) !! w_task w = Some t' ∧ cancelled t' = true.
Proof.
  intros Hw Ht Hk.
  destruct (cancel_running_flags k key st w t Hw Ht Hk) as (t' & H1 & H2).
  exists t'. split; [|done]. by destruct k.
Qed.

Lemma queue_cancel_tasks (k : Kind) (key : Z) (st : State) (e : Z * ref) :
  e ∈ tasks (queue_of k (queue_cancel k key st))
  ↔ e ∈ tasks (queue_of k st) ∧ e.1 ≠ key.
Proof. destruct k; simpl; rewrite list_elem_of_filter; tauto. Qed.

(** ** [remove] *)

Lemma remove_one_spec (st : State) (ae : Doc) :
  let st' := AutoExport.remove_one st ae in
  (∀ d, d ∈ DB.data (db st') ↔ d ∈ DB.data (db st) ∧ loki d ≠ loki ae)
  ∧ (∀ k e, e ∈ tasks (queue_of k st') ↔ e ∈ tasks (queue_of k st) ∧ e.1 ≠ loki ae)
  ∧ (∀ k, workers (queue_of k st') = workers (queue_of k st))
  ∧ translations st' = translations st
  ∧ heap_le (heap st) (heap st')
  ∧ (∀ k w t, w ∈ workers (queue_of k st) → heap st !! w_task w = Some t →
              task_id t = loki ae →
              ∃ t', heap st' !! w_task w = Some t' ∧ cancelled t' = true).
Proof.
  cbv zeta. unfold AutoExport.remove_one.
  set (st1 := queue_cancel Kscheduled (loki ae) st).
  set (st2 := queue_cancel Kscheduler (loki ae) st1).
  assert (heap_le (heap st) (heap st1)) as L1 by apply queue_cancel_le.
  assert (heap_le (heap st1) (heap st2)) as L2 by apply queue_cancel_le.
  split; [|split; [|split; [|split; [|split]]]].
  - intros d. simpl. rewrite list_elem_of_filter. tauto.
  - intros k e. destruct k; simpl; rewrite list_elem_of_filter; tauto.
  - intros k. by destruct k.
  - done.
  - by eapply heap_le_trans.
  - intros k w t Hw Ht Hk. change (heap (with_db ?f ?s)) with (heap s).
    destruct k.
    + destruct (L1 _ _ Ht) as (t1 & Ht1 & Hid1 & _).
      apply (queue_cancel_flags Kscheduler (loki ae) st1 w t1); [done|done|congruence].
    + destruct (queue_cancel_flags Kscheduled (loki ae) st w t Hw Ht Hk)
        as (t1 & Ht1 & Hc1).
      destruct (L2 _ _ Ht1) as (t2 & Ht2 & _ & Hc2). eauto.
Qed.

Lemma remove_fold (l : list Doc) (st : State) :
  let st' := foldl AutoExport.remove_one st l in
  (∀ d, d ∈ DB.data (db st') ↔ d ∈ DB.data (db st) ∧ loki d ∉ loki <$> l)
  ∧ (∀ k e, e ∈ tasks (queue_of k st')
            ↔ e ∈ tasks (queue_of k st) ∧ e.1 ∉ loki <$> l)
  ∧ (∀ k, workers (queue_of k st') = workers (queue_of k st))
  ∧ translations st' = translations st
  ∧ heap_le (heap st) (heap st')
  ∧ (∀ ae k w t, ae ∈ l → w ∈ workers (queue_of k st) →
                 heap st !! w_task w = Some t → task_id t = loki ae →
                 ∃ t', heap st' !! w_task w = Some t' ∧ cancelled t' = true).
Proof.
  revert st. induction l as [|ae l IH]; intros st.
  - cbn. split; [|split; [|split; [|split; [|split]]]]; try done.
    + intros d. rewrite elem_of_nil. tauto.
    + intros k e. rewrite elem_of_nil. tauto.
    + apply heap_le_refl.
    + by intros ae k w t []%elem_of_nil.
  - cbn [foldl].
    destruct (remove_one_spec st ae) as (A1 & A2 & A3 & A4 & A5 & A6).
    destruct (IH (AutoExport.remove_one st ae)) as (B1 & B2 & B3 & B4 & B5 & B6).
    cbv zeta in *.
    split; [|split; [|split; [|split; [|split]]]].
    + intros d. rewrite B1, A1, fmap_cons, not_elem_of_cons. tauto.
    + intros k e. rewrite B2, A2, fmap_cons, not_elem_of_cons. tauto.
    + intros k. by rewrite B3, A3.
    + by rewrite B4, A4.
    + by eapply heap_le_trans.
    + intros ae0 k w t [->|Hin]%elem_of_cons Hw Ht Hk.
      * destruct (A6 k w t Hw Ht Hk) as (t1 & Ht1 & Hc1).
        destruct (B5 _ _ Ht1) as (t2 & Ht2 & _ & Hc2). eauto.
      * destruct (A5 _ _ Ht) as (t1 & Ht1 & Hid1 & _).
        apply (B6 ae0 k w t1); [done| |done|congruence]. by rewrite A3.
Qed.

(** ** What the queues can do for a definition that is not in the store *)

Lemma update_absent (ae : Doc) (c c' : DB.Collection) (k : Z) :
  DB.update ae c = Some c' → DB.get k c = None → DB.get k c' = None.
Proof.
  unfold DB.update. destruct (DB.get (loki ae) c) eqn:E; [|done].
  intros [= <-] Hk. unfold DB.get in *. simpl. by rewrite get_replace, Hk.
Qed.

Lemma quiet_refl (k : Z) (st : State) : quiet k st st.
Proof. by intros ?. Qed.

Lemma quiet_trans (k : Z) (st1 st2 st3 : State) :
  quiet k st1 st2 → quiet k st2 st3 → quiet k st1 st3.
Proof.
  intros H12 H23 H1. destruct (H12 H1) as [H2 E2]. destruct (H23 H2) as [H3 E3].
  split; [done|congruence].
Qed.

Lemma quiet_dbt (k : Z) (st1 st1' st2 st2' : State) :
  dbt st1' = dbt st1 → dbt st2' = dbt st2 → quiet k st1 st2 → quiet k st1' st2'.
Proof.
  unfold quiet, exports_of, dbt. intros [= -> ->] [= -> ->]. done.
Qed.

Lemma settle_dbt (kind : Kind) (key : Z) (task : ref) (o : Outcome) (st : State) :
  dbt (settle kind key task o st) = dbt st.
Proof. destruct o, kind; done. Qed.

Lemma with_queue_dbt (k : Kind) (f : Queue → Queue) (st : State) :
  dbt (with_queue k f st) = dbt st.
Proof. by destruct k. Qed.

Lemma scheduler_handler_quiet (k : Z) (r : ref) (st st' : State) (o : Outcome) :
  scheduler_handler r st = Some (st', o) → quiet k st st'.
Proof.
  unfold scheduler_handler. destruct (heap st !! r); simpl; [|done].
  destruct (DB.get _ _); [destruct (DB.update _ _) eqn:Hup|]; intros [= <- <-] Hk;
    try done.
  split; [|done]. simpl. by eapply update_absent.
Qed.

Lemma scheduled_handler_quiet (k : Z) (r : ref) (st st' : State) (o : Outcome) :
  scheduled_handler r st = Some (st', o) → quiet k st st'.
Proof.
  unfold scheduled_handler. destruct (heap st !! r) as [t|]; simpl; [|done].
  destruct (DB.get _ _) as [ae|] eqn:Hget; [destruct (DB.update _ _) eqn:Hup|];
    intros [= <- <-] Hk; try done.
  split; [simpl; by eapply update_absent|].
  unfold exports_of. simpl. rewrite filter_app, filter_cons_False, app_nil_r; [done|].
  simpl. intros <-. apply get_loki in Hget as Hl. rewrite <- Hl in Hget. congruence.
Qed.

Lemma scheduler_woken_quiet (k : Z) (w : Worker) (st st' : State) (o : Outcome) :
  scheduler_woken w st = Some (st', o) → quiet k st st'.
Proof.
  unfold scheduler_woken. destruct (heap st !! w_local w) as [t|]; simpl; [|done].
  destruct (cancelled t); intros [= <- <-]; done.
Qed.

Lemma scheduled_settled_quiet (k : Z) (result : option JsThrown) (w : Worker)
    (st st' : State) (o : Outcome) :
  scheduled_settled result w st = Some (st', o) → quiet k st st'.
Proof.
  unfold scheduled_settled. destruct (heap st !! w_local w); simpl; [|done].
  destruct (DB.get _ _); [destruct (DB.update _ _) eqn:Hup|]; intros [= <- <-] Hk;
    try done.
  split; [|done]. simpl. by eapply update_absent.
Qed.

Lemma queueHandler_quiet (k : Z) (kind : Kind) (handler : Handler) (r : ref)
    (st st' : State) :
  (∀ r st st' o, handler r st = Some (st', o) → quiet k st st') →
  queueHandler kind handler r st = Some st' → quiet k st st'.
Proof.
  intros Hh. unfold queueHandler. destruct (heap st !! r); simpl; [|done].
  destruct (handler r st) as [[st1 o]|] eqn:E; simpl; [|done].
  intros [= <-]. eapply quiet_dbt; [done|apply settle_dbt|]. eauto.
Qed.

Lemma queueHandler_resume_quiet (k : Z) (kind : Kind) (cont : Continuation)
    (w : Worker) (st st' : State) :
  (∀ w st st' o, cont w st = Some (st', o) → quiet k st st') →
  queueHandler_resume kind cont w st = Some st' → quiet k st st'.
Proof.
  intros Hh. unfold queueHandler_resume. case_decide; [|done].
  destruct (heap st !! w_task w); simpl; [|done].
  destruct (cont w _) as [[st1 o]|] eqn:E; simpl; [|done].
  intros [= <-]. apply Hh in E.
  eapply quiet_dbt; [|apply settle_dbt|exact E]. by rewrite with_queue_dbt.
Qed.

Lemma queue_start_quiet (k : Z) (kind : Kind) (handler : Handler) (st st' : State) :
  (∀ r st st' o, handler r st = Some (st', o) → quiet k st st') →
  queue_start kind handler st = Some st' → quiet k st st'.
Proof.
  intros Hh. unfold queue_start. destruct (stopped _); [done|].
  destruct (tasks _) as [|[key r] rest]; [done|].
  intros H. apply (queueHandler_quiet k) in H; [|done].
  eapply quiet_dbt; [|done|exact H]. by rewrite with_queue_dbt.
Qed.

Lemma engine_step_quiet (k : Z) (e : Event) (st st' : State) :
  engine_step e st = Some st' → quiet k st st'.
Proof.
  destruct e as [dt| |w| |w result]; simpl.
  - case_decide; [|done]. by intros [= <-].
  - apply queue_start_quiet. intros ????. apply scheduler_handler_quiet.
  - destruct (w_await w); [|done]. case_decide; [|done].
    apply queueHandler_resume_quiet. intros ????. apply scheduler_woken_quiet.
  - apply queue_start_quiet. intros ????. apply scheduled_handler_quiet.
  - destruct (w_await w); [done|].
    apply queueHandler_resume_quiet. intros ????. apply scheduled_settled_quiet.
Qed.

Lemma engine_run_quiet (k : Z) (es : list Event) (st st' : State) :
  engine_run es st = Some st' → quiet k st st'.
Proof.
  revert st. induction es as [|e es IH]; intros st; simpl.
  - intros [= <-]. apply quiet_refl.
  - destruct (engine_step e st) as [st1|] eqn:E; simpl; [|done].
    intros H. eapply quiet_trans; [by eapply engine_step_quiet|by apply IH].
Qed.

(** What [remove(type, ids)] does get done for a definition [ae] that
    matches: afterwards the store holds no definition under [ae]'s key and
    none that matches (the others are kept); neither queue holds a queued
    entry under that key; the task object of every worker that was running
    under that key, in either queue, has been flagged by its [cancel]; and
    whatever the two queues do from then on, the definition does not come
    back and no export is made for it. *)
Lemma remove_cancels_and_deletes (ty : ScopeType) (ids : list Z) (st : State)
    (ae : Doc) :
  ae ∈ DB.find_scope ty ids (db st) →
  let st' := AutoExport.remove ty ids st in
  DB.get (loki ae) (db st') = None
  ∧ DB.find_scope ty ids (db st') = []
  ∧ (∀ d, d ∈ DB.data (db st')
          ↔ d ∈ DB.data (db st) ∧ loki d ∉ loki <$> DB.find_scope ty ids (db st))
  ∧ (∀ k, loki ae ∉ (tasks (queue_of k st')).*1)
  ∧ (∀ k w t, w ∈ workers (queue_of k st) → heap st !! w_task w = Some t →
              task_id t = loki ae →
              ∃ t', heap st' !! w_task w = Some t' ∧ cancelled t' = true)
  ∧ (∀ es st'', engine_run es st' = Some st'' →
                DB.get (loki ae) (db st'') = None
                ∧ exports_of (loki ae) st'' = exports_of (loki ae) st).
Proof.
  intros Hae st'. subst st'. unfold AutoExport.remove.
  set (l := DB.find_scope ty ids (db st)) in *.
  destruct (remove_fold l st) as (B1 & B2 & B3 & B4 & B5 & B6). cbv zeta in *.
  set (st' := foldl AutoExport.remove_one st l) in *.
  assert (loki ae ∈ loki <$> l) as Hk by (by apply list_elem_of_fmap_2).
  assert (DB.get (loki ae) (db st') = None) as Hgone.
  { apply get_None. intros d [_ Hd]%B1 E. congruence. }
  split; [done|]. split; [|split; [done|split; [|split]]].
  - apply elem_of_nil_inv. intros d [Hm [Hd Hn]%B1]%list_elem_of_filter.
    apply Hn, list_elem_of_fmap_2. unfold l, DB.find_scope.
    by apply list_elem_of_filter.
  - intros k [e [He [_ Hn]%B2]]%list_elem_of_fmap. congruence.
  - intros k w t. by apply B6.
  - intros es st'' Hrun. destruct (engine_run_quiet (loki ae) es st' st'' Hrun Hgone)
      as [H1 H2].
    split; [done|]. rewrite H2. unfold exports_of. by rewrite B4.
Qed.

(** ** Debouncing and cancelling *)

(** C1 does not hold of the code.  Two pushes for the same definition, the
    second one 500 ms into the quiet period of the first: the second push
    flags the task object of the first worker, but that worker tests its
    own copy, so both waits are pending together and each ends in a push
    onto [scheduled]: two promotions, whether the second worker starts at
    once or after the first handler is done. *)
Theorem C1_two_pushes_two_promotions :
  ∃ st0 mid st st',
    pushed_twice = Some st0
    ∧ engine_run [SchedulerStart] st0 = Some mid
    ∧ workers (scheduler mid) = [first_worker; second_worker 1500]
    ∧ heap mid !! 0%nat = Some {| task_id := 1; cancelled := true |}
    ∧ heap mid !! 1%nat = Some {| task_id := 1; cancelled := false |}
    ∧ engine_run overlapping st0 = Some st
    ∧ pushes (scheduler st) = [1; 1]
    ∧ pushes (scheduled st) = [1; 1]
    ∧ engine_run serial st0 = Some st'
    ∧ pushes (scheduled st') = [1; 1].
Proof. vm_compute. do 4 eexists. repeat split. Qed.

(** A cancelled worker's own task object is not the one its handler looks
    at: cancelling leaves every heap cell that is no worker's task object as
    it is. *)
Lemma cancel_fold_other (key : Z) (h h0 : list Task) (ws : list Worker) (r : ref) :
  r ∉ w_task <$> ws →
  foldr (λ w h', if decide (task_id <$> h0 !! w_task w = Some key)
                 then handle_cancel w h' else h') h ws !! r = h !! r.
Proof.
  induction ws as [|w ws IH]; [done|]. rewrite fmap_cons, not_elem_of_cons.
  intros [Hne Hnot]. cbn [foldr]. case_decide; [|by apply IH].
  unfold handle_cancel. rewrite list_lookup_alter_ne by done. by apply IH.
Qed.

(** C2 does not hold of the code.  A worker of [scheduler] starts on a task
    that is not cancelled and whose definition is stored; [cancel] is called
    for its key before the quiet period is over, which flags the task
    object the worker was started with; when the wait has elapsed the
    handler nevertheless pushes the task onto [scheduled], because the flag
    it tests is that of its own copy. *)
Theorem C2_cancel_does_not_stop_promotion (st : State) (r : ref) (t : Task) (ae : Doc) :
  heap st !! r = Some t →
  cancelled t = false →
  DB.get (task_id t) (db st) = Some ae →
  (∀ w', w' ∈ workers (scheduler st) → (w_task w' < length (heap st))%nat) →
  let w := {| w_task := r; w_local := length (heap st);
              w_await := Delay (now st + debounce_delay) |} in
  ∃ st1 st3,
    queueHandler Kscheduler scheduler_handler r st = Some st1
    ∧ w ∈ workers (scheduler st1)
    ∧ now st1 < now st + debounce_delay
    ∧ heap (queue_cancel Kscheduler (task_id t) st1) !! r
      = Some {| task_id := task_id t; cancelled := true |}
    ∧ db (queue_cancel Kscheduler (task_id t) st1) = db st1
    ∧ engine_run [Tick debounce_delay; SchedulerWake w]
        (queue_cancel Kscheduler (task_id t) st1) = Some st3
    ∧ pushes (scheduled st3) = pushes (scheduled st) ++ [task_id t].
Proof.
  intros Ht Hc Hae Hwf w.
  pose proof (get_loki _ _ _ Hae) as Hk.
  destruct (update_stored (set_status St_scheduled ae) ae (db st)) as (c & Hup & _).
  { by rewrite set_status_loki, Hk. }
  pose proof (lookup_lt_Some _ _ _ Ht) as Hr.
  set (st1 := settle Kscheduler (task_id t) r
                (Suspended (length (heap st)) (Delay (now st + debounce_delay)))
                (with_db (λ _, c) (with_heap (λ h, h ++ [t]) st))).
  assert (queueHandler Kscheduler scheduler_handler r st = Some st1) as Hstart.
  { unfold queueHandler, scheduler_handler. rewrite Ht. simpl. rewrite Hae, Hup. done. }
  set (st2 := queue_cancel Kscheduler (task_id t) st1).
  assert (w ∈ workers (scheduler st2)) as Hw.
  { simpl. apply elem_of_app. right. by apply list_elem_of_singleton. }
  assert (heap st1 !! r = Some t) as Ht1.
  { simpl. by rewrite lookup_app_l. }
  assert (heap st2 !! r = Some {| task_id := task_id t; cancelled := true |}) as Hflag.
  { destruct (queue_cancel_flags Kscheduler (task_id t) st1 w t) as (t' & Ht' & Hc');
      [by apply Hw|done|done|].
    destruct (queue_cancel_le Kscheduler (task_id t) st1 r t Ht1) as (t'' & Ht'' & Hid & _).
    fold st2 in Ht', Ht''. change (w_task w) with r in Ht'. rewrite Ht'' in Ht'.
    injection Ht' as ->. rewrite Ht''. destruct t'. simpl in *. congruence. }
  assert (heap st2 !! length (heap st) = Some t) as Hcopy.
  { simpl. rewrite cancel_fold_other.
    - rewrite lookup_app_r by lia. by rewrite Nat.sub_diag.
    - rewrite fmap_app, not_elem_of_app. split.
      + intros (w' & E & Hw')%list_elem_of_fmap. apply Hwf in Hw'. lia.
      + simpl. intros E%list_elem_of_singleton. lia. }
  exists st1. eexists. split; [done|]. split; [exact Hw|].
  split; [simpl; unfold debounce_delay; lia|]. split; [exact Hflag|]. split; [done|].
  split.
  - fold st2. cbn [engine_run engine_step]. rewrite decide_True by done.
    cbn [mbind option_bind]. change (w_await w) with (Delay (now st + debounce_delay)).
    cbv iota. rewrite decide_True by (simpl; lia).
    unfold queueHandler_resume. rewrite decide_True by exact Hw.
    change (w_task w) with r. change (heap (with_now ?f ?s)) with (heap s).
    rewrite Hflag. cbn [mbind option_bind].
    unfold scheduler_woken. change (w_local w) with (length (heap st)).
    change (heap (with_queue ?k ?f (with_now ?g ?s))) with (heap s).
    rewrite Hcopy. cbn [mbind option_bind]. rewrite Hc. cbn [mbind option_bind].
    reflexivity.
  - simpl. done.
Qed.

(** C5 does not hold of the code.  A push for the sample definition, whose
    debounce worker has started and is half way through its wait when
    [remove('collection', [7])] is called: [remove] cancels under the
    definition's key in both queues and deletes the definition, and the
    [cancel] of the waiting worker flags the task object the worker was
    started with.  The handler tests its own copy (line 102), so when the
    wait is over it pushes the removed definition's key onto [scheduled]
    all the same; the run queue starts that entry, whose handler throws
    the not-found error.  A run entry for the removed definition is made
    and executed after the [remove]; no export is made. *)
Theorem C5_removed_entry_still_runs :
  ∃ st1 st2,
    call_run removed_while_waiting ready = Some st1
    ∧ DB.data (db st1) = []
    ∧ tasks (scheduler st1) = []
    ∧ tasks (scheduled st1) = []
    ∧ workers (scheduler st1) = [first_worker]
    ∧ heap st1 = [ {| task_id := 1; cancelled := true |};
                   {| task_id := 1; cancelled := false |} ]
    ∧ pushes (scheduled st1) = []
    ∧ call_run woken_after_remove ready = Some st2
    ∧ pushes (scheduled st2) = [1]
    ∧ finished (scheduler st2) = [(1, None)]
    ∧ finished (scheduled st2) = [(1, Some (not_found 1))]
    ∧ translations st2 = [].
Proof. vm_compute. do 2 eexists. repeat split. Qed.

(** ** The run executor while other things happen *)

Lemma heap_le_app (h l : list Task) : heap_le h (h ++ l).
Proof.
  intros r t Ht. exists t. split; [|done].
  rewrite lookup_app_l; [done|]. by eapply lookup_lt_Some.
Qed.

Lemma queue_push_le (k : Kind) (key : Z) (r : ref) (st : State) :
  heap_le (heap st) (heap (queue_push k key r st)).
Proof.
  destruct k; [apply (cancel_running_le Kscheduler key st)|apply heap_le_refl].
Qed.

Lemma queue_push_new_le (k : Kind) (key : Z) (st : State) :
  heap_le (heap st) (heap (queue_push_new k key st)).
Proof.
  unfold queue_push_new. eapply heap_le_trans; [|apply queue_push_le].
  apply heap_le_app.
Qed.

Lemma push_all_le (k : Kind) (l : list Doc) (st : State) :
  heap_le (heap st) (heap (foldl (λ st ae, queue_push_new k (loki ae) st) st l)).
Proof.
  revert st. induction l as [|ae l IH]; intros st; simpl; [apply heap_le_refl|].
  eapply heap_le_trans; [apply queue_push_new_le|apply IH].
Qed.

Lemma settle_heap (kind : Kind) (key : Z) (task : ref) (o : Outcome) (st : State) :
  heap (settle kind key task o st) = heap st.
Proof. by destruct o, kind. Qed.

Lemma with_queue_heap (k : Kind) (f : Queue → Queue) (st : State) :
  heap (with_queue k f st) = heap st.
Proof. by destruct k. Qed.

Lemma scheduler_handler_le (r : ref) (st st' : State) (o : Outcome) :
  scheduler_handler r st = Some (st', o) → heap_le (heap st) (heap st').
Proof.
  unfold scheduler_handler. destruct (heap st !! r); simpl; [|done].
  destruct (DB.get _ _); [destruct (DB.update _ _)|]; intros [= <- <-];
    apply heap_le_app.
Qed.

Lemma scheduled_handler_le (r : ref) (st st' : State) (o : Outcome) :
  scheduled_handler r st = Some (st', o) → heap_le (heap st) (heap st').
Proof.
  unfold scheduled_handler. destruct (heap st !! r); simpl; [|done].
  destruct (DB.get _ _); [destruct (DB.update _ _)|]; intros [= <- <-];
    apply heap_le_refl.
Qed.

Lemma scheduler_woken_le (w : Worker) (st st' : State) (o : Outcome) :
  scheduler_woken w st = Some (st', o) → heap_le (heap st) (heap st').
Proof.
  unfold scheduler_woken. destruct (heap st !! w_local w) as [t|]; simpl; [|done].
  destruct (cancelled t); intros [= <- <-]; apply heap_le_refl.
Qed.

Lemma scheduled_settled_le (result : option JsThrown) (w : Worker) (st st' : State)
    (o : Outcome) :
  scheduled_settled result w st = Some (st', o) → heap_le (heap st) (heap st').
Proof.
  unfold scheduled_settled. destruct (heap st !! w_local w); simpl; [|done].
  destruct (DB.get _ _); [destruct (DB.update _ _)|]; intros [= <- <-];
    apply heap_le_refl.
Qed.

Lemma queueHandler_le (kind : Kind) (handler : Handler) (r : ref) (st st' : State) :
  (∀ r st st' o, handler r st = Some (st', o) → heap_le (heap st) (heap st')) →
  queueHandler kind handler r st = Some st' → heap_le (heap st) (heap st').
Proof.
  intros Hh. unfold queueHandler. destruct (heap st !! r); simpl; [|done].
  destruct (handler r st) as [[st1 o]|] eqn:E; simpl; [|done].
  intros [= <-]. rewrite settle_heap. eauto.
Qed.

Lemma queueHandler_resume_le (kind : Kind) (cont : Continuation) (w : Worker)
    (st st' : State) :
  (∀ w st st' o, cont w st = Some (st', o) → heap_le (heap st) (heap st')) →
  queueHandler_resume kind cont w st = Some st' → heap_le (heap st) (heap st').
Proof.
  intros Hh. unfold queueHandler_resume. case_decide; [|done].
  destruct (heap st !! w_task w); simpl; [|done].
  destruct (cont w _) as [[st1 o]|] eqn:E; simpl; [|done].
  intros [= <-]. rewrite settle_heap. apply Hh in E.
  by rewrite with_queue_heap in E.
Qed.

Lemma queue_start_le (kind : Kind) (handler : Handler) (st st' : State) :
  (∀ r st st' o, handler r st = Some (st', o) → heap_le (heap st) (heap st')) →
  queue_start kind handler st = Some st' → heap_le (heap st) (heap st').
Proof.
  intros Hh. unfold queue_start. destruct (stopped _); [done|].
  destruct (tasks _) as [|[key r] rest]; [done|].
  intros H. apply queueHandler_le in H; [|done]. by rewrite with_queue_heap in H.
Qed.

Lemma engine_step_le (e : Event) (st st' : State) :
  engine_step e st = Some st' → heap_le (heap st) (heap st').
Proof.
  destruct e as [dt| |w| |w result]; simpl.
  - case_decide; [|done]. intros [= <-]. apply heap_le_refl.
  - apply queue_start_le. intros ????. apply scheduler_handler_le.
  - destruct (w_await w); [|done]. case_decide; [|done].
    apply queueHandler_resume_le. intros ????. apply scheduler_woken_le.
  - apply queue_start_le. intros ????. apply scheduled_handler_le.
  - destruct (w_await w); [done|].
    apply queueHandler_resume_le. intros ????. apply scheduled_settled_le.
Qed.

(** No call and no step takes a task object away or changes its [id]. *)
Lemma call_step_le (c : Call) (st st' : State) :
  call_step c st = Some st' → heap_le (heap st) (heap st').
Proof.
  destruct c as [|ae|parentID fuel items|ty ids|ty ids|k|m|pref|topic|e]; simpl.
  - intros [= <-]. unfold AutoExport.init.
    set (st1 := foldl _ st _).
    assert (heap_le (heap st) (heap st1)) as H by apply push_all_le.
    by destruct (decide (autoExport st1 = Immediate)).
  - intros [= <-]. apply heap_le_refl.
  - unfold AutoExport.changed. destruct (AutoExport.changed_events _ _ _) as [es|];
      simpl; [|done].
    intros [= <-]. clear. revert st. induction es as [|e es IH]; intros st; simpl.
    + apply heap_le_refl.
    + eapply heap_le_trans; [|apply IH]. destruct e; apply push_all_le.
  - intros [= <-]. apply push_all_le.
  - intros [= <-]. unfold AutoExport.remove.
    by destruct (remove_fold (DB.find_scope ty ids (db st)) st) as (_ & _ & _ & _ & H & _).
  - unfold AutoExport.run. destruct (DB.get k (db st)); simpl; [|done].
    destruct (DB.update _ _); simpl; [|done]. intros [= <-].
    apply (queue_push_new_le Kscheduled).
  - intros [= <-]. unfold set_autoExport, preference_changed. simpl.
    by destruct m; apply heap_le_refl.
  - intros [= <-]. unfold preference_changed.
    destruct (decide (pref ≠ "autoExport")); [apply heap_le_refl|].
    destruct (autoExport st); apply heap_le_refl.
  - intros [= <-]. unfold idleObserver_observe.
    destruct (decide (autoExport st ≠ Idle)); [apply heap_le_refl|].
    destruct topic; apply heap_le_refl.
  - apply engine_step_le.
Qed.

Lemma call_run_le (cs : list Call) (st st' : State) :
  call_run cs st = Some st' → heap_le (heap st) (heap st').
Proof.
  revert st. induction cs as [|c cs IH]; intros st; simpl.
  - intros [= <-]. apply heap_le_refl.
  - destruct (call_step c st) as [st1|] eqn:E; simpl; [|done].
    intros H. eapply heap_le_trans; [by eapply call_step_le|by apply IH].
Qed.

(** C4, as the code has it.  One execution by the run executor, from the
    start of the worker on a queued task whose definition is stored, with
    whatever calls into the module and steps of the queues [cs] happen
    while the export is under way, to the end of the export ([None]:
    completed, [Some err]: threw [err]).  If the definition is still in the
    store when the export ends, the handler completes with [cb(null)], so
    the error does not propagate, and the stored definition then has
    status [done] and, as its last error, the empty string after a
    completed export and the error's text after a failed one.  If the
    definition has been removed in the meantime, the [db.update] of line
    85, which is outside the [try], raises: the handler fails with the
    store's error and nothing is recorded. *)
Theorem C4_run_executor_interleaved (st : State) (r : ref) (key : Z)
    (rest : list (Z * ref)) (t : Task) (ae : Doc) (cs : list Call) (st2 : State)
    (result : option JsThrown) :
  stopped (scheduled st) = false →
  tasks (scheduled st) = (key, r) :: rest →
  heap st !! r = Some t →
  DB.get (task_id t) (db st) = Some ae →
  let w := {| w_task := r; w_local := r; w_await := Export (translate_call ae) |} in
  let text := match result with None => "" | Some err => template err end in
  call_run (Engine ScheduledStart :: cs) st = Some st2 →
  w ∈ workers (scheduled st2) →
  ∃ st1 st3,
    engine_step ScheduledStart st = Some st1
    ∧ DB.get (task_id t) (db st1) = Some (set_status St_running ae)
    ∧ translations st1 = translations st ++ [(loki ae, translate_call ae)]
    ∧ call_run cs st1 = Some st2
    ∧ engine_step (ScheduledSettle w result) st2 = Some st3
    ∧ (∀ cur, DB.get (task_id t) (db st2) = Some cur →
              finished (scheduled st3) = finished (scheduled st2) ++ [(task_id t, None)]
              ∧ DB.get (task_id t) (db st3)
                = Some (set_status St_done (set_error text cur)))
    ∧ (DB.get (task_id t) (db st2) = None →
       finished (scheduled st3)
       = finished (scheduled st2) ++ [(task_id t, Some DB.not_in_collection)]
       ∧ db st3 = db st2).
Proof.
  intros Hrun Htasks Ht Hae w text Hcalls Hw.
  pose proof (get_loki _ _ _ Hae) as Hk.
  destruct (update_stored (set_status St_running ae) ae (db st)) as (c & Hup & Hget & _).
  { by rewrite set_status_loki, Hk. }
  simpl in Hget. rewrite Hk in Hget.
  set (st1 := settle Kscheduled (task_id t) r (Suspended r (Export (translate_call ae)))
                (with_translations (λ l, l ++ [(loki ae, translate_call ae)])
                   (with_db (λ _, c) (with_queue Kscheduled (with_tasks (λ _, rest)) st)))).
  assert (engine_step ScheduledStart st = Some st1) as Hstart.
  { simpl. unfold queue_start. simpl. rewrite Hrun, Htasks.
    unfold queueHandler, scheduled_handler. simpl. rewrite Ht. simpl.
    rewrite Hae, Hup. done. }
  assert (call_run cs st1 = Some st2) as Hcs.
  { revert Hcalls. cbn [call_run call_step]. rewrite Hstart. done. }
  destruct (call_run_le _ _ _ Hcs r t) as (t2 & Ht2 & Hid & _); [done|].
  set (st2' := with_queue Kscheduled (with_workers (λ ws, list_difference ws [w])) st2).
  assert (engine_step (ScheduledSettle w result) st2
          = '(st', o) ← scheduled_settled result w st2';
            Some (settle Kscheduled (task_id t) r o st')) as Hstep.
  { unfold engine_step. change (w_await w) with (Export (translate_call ae)).
    cbv iota. unfold queueHandler_resume. rewrite decide_True by exact Hw.
    change (w_task w) with r. rewrite Ht2. cbn [mbind option_bind].
    rewrite Hid. reflexivity. }
  assert (heap st2' !! w_local w = Some t2) as Ht2' by done.
  exists st1. destruct (DB.get (task_id t) (db st2)) as [cur|] eqn:Hcur.
  - destruct (scheduled_settled_stored result w st2' t2 cur Ht2') as (c2 & Hs & Hg).
    { by rewrite Hid. }
    rewrite Hs in Hstep. eexists. split; [done|]. split; [done|]. split; [done|].
    split; [done|]. split; [exact Hstep|]. split; [|done].
    intros ? [= <-]. split; [done|]. simpl. by rewrite <- Hid.
  - assert (scheduled_settled result w st2' = Some (st2', Threw DB.not_in_collection))
      as Hs.
    { unfold scheduled_settled. rewrite Ht2'. cbn [mbind option_bind]. rewrite Hid.
      change (db st2') with (db st2). by rewrite Hcur. }
    rewrite Hs in Hstep. eexists. split; [done|]. split; [done|]. split; [done|].
    split; [done|]. split; [exact Hstep|]. split; [done|]. intros _. done.
Qed.

(** C4 does not hold of the code as it is stated.  [run(1)] for the sample
    definition; the run executor starts on the entry and calls the
    translator; [remove('collection', [7])] deletes the definition while
    the export is under way; the export then fails with "disk full".  The
    handler ends in [cb(err)] with the store's error: the failure is not
    contained, no status [done] is stored, and the export's error is
    recorded nowhere. *)
Theorem C4_removed_during_export :
  ∃ st1 st2 st3,
    call_run export_started ready = Some st1
    ∧ workers (scheduled st1) = [run_worker]
    ∧ DB.data (db st1) = [set_status St_running sample_doc]
    ∧ call_run removed_during_export ready = Some st2
    ∧ workers (scheduled st2) = [run_worker]
    ∧ call_run removed_then_settled ready = Some st3
    ∧ finished (scheduled st3) = [(1, Some DB.not_in_collection)]
    ∧ DB.data (db st3) = []
    ∧ translations st3 = [(1, translate_call sample_doc)].
Proof. vm_compute. do 3 eexists. repeat split. Qed.

(** * The theorems at work on the sample data *)

(** C4 on an export that fails with "disk full", while a change to the
    watched collection is scheduled and its debounce handler starts. *)
Lemma C4_disk_full_meanwhile :
  (stopped (scheduled run_queued) = false
   ∧ tasks (scheduled run_queued) = [(1, 0%nat)]
   ∧ heap run_queued !! 0%nat = Some {| task_id := 1; cancelled := false |}
   ∧ DB.get 1 (db run_queued) = Some sample_doc)
  ∧ ∃ st2 st3,
      call_run [Engine ScheduledStart; Schedule collection [7]; Engine SchedulerStart]
               run_queued = Some st2
      ∧ DB.get 1 (db st2) = Some (set_status St_scheduled sample_doc)
      ∧ engine_step (ScheduledSettle run_worker (Some disk_full)) st2 = Some st3
      ∧ finished (scheduled st3) = [(1, None)]
      ∧ DB.get 1 (db st3)
        = Some (set_status St_done (set_error "Error: disk full" sample_doc)).
Proof.
  split; [by repeat split|].
  pose (st2 := default run_queued
                 (call_run [Engine ScheduledStart; Schedule collection [7];
                            Engine SchedulerStart] run_queued)).
  assert (call_run [Engine ScheduledStart; Schedule collection [7];
                    Engine SchedulerStart] run_queued = Some st2) as Hcalls
    by (vm_compute; reflexivity).
  assert (run_worker ∈ workers (scheduled st2)) as Hw
    by (vm_compute; apply list_elem_of_here).
  destruct (C4_run_executor_interleaved run_queued 0%nat 1 []
              {| task_id := 1; cancelled := false |} sample_doc
              [Schedule collection [7]; Engine SchedulerStart] st2 (Some disk_full)
              eq_refl eq_refl eq_refl eq_refl Hcalls Hw)
    as (st1 & st3 & _ & _ & _ & _ & H5 & H6 & _).
  exists st2, st3. split; [exact Hcalls|]. split; [reflexivity|]. split; [exact H5|].
  destruct (H6 (set_status St_scheduled sample_doc) eq_refl) as [H7 H8].
  split; [exact H7|exact H8].
Defined.




Lemma nested_rank_parent (c p : Z) :
  c ≠ 0 → nested_parent c = Some p → p ≠ 0 → (nested_rank p < nested_rank c)%nat.
Proof.
  unfold nested_parent, nested_rank. intros _ Hp _.
  destruct (decide (c = 3)) as [->|_].
  - injection Hp as <-. simpl. lia.
  - destruct (decide (c = 2)) as [->|_]; [|discriminate].
    injection Hp as <-. simpl. lia.
Defined.

(** C7 on one item in collection 3, inside 2, inside 1. *)
Lemma C7_nested :
  (∀ item c, item ∈ [nested_item] → c ∈ getCollections item → c ≠ 0 →
             (nested_rank c < 4)%nat)
  ∧ ∃ cs ls,
      AutoExport.changed_sets nested_parent 4 [nested_item] = Some (cs, ls)
      ∧ (∀ a, a ∈ cs ↔ a = 1 ∨ a = 2 ∨ a = 3)
      ∧ AutoExport.changed_events nested_parent 4 [nested_item]
        = Some (AutoExport.emitted cs ls).
Proof.
  assert (∀ item c, item ∈ [nested_item] → c ∈ getCollections item → c ≠ 0 →
                    (nested_rank c < 4)%nat) as Hfuel.
  { intros item c ->%list_elem_of_singleton ->%list_elem_of_singleton _.
    unfold nested_rank. simpl. lia. }
  split; [exact Hfuel|].
  destruct (C7_changed_collections nested_parent nested_rank nested_rank_parent
              4%nat [nested_item] Hfuel)
    as (cs & ls & H1 & _ & _ & H4 & H5 & _).
  exists cs, ls. split; [exact H1|]. split; [|exact H5].
  apply (H4 1 1 2 3); first [reflexivity | discriminate].
Defined.

(** C10 on one item that is in no collection. *)
Lemma C10_unfiled :
  ([unfiled_item] ≠ []
   ∧ ∀ item c, item ∈ [unfiled_item] → c ∈ getCollections item → c ≠ 0 →
               (nested_rank c < 0)%nat)
  ∧ ∃ es ls,
      AutoExport.changed_events nested_parent 0 [unfiled_item] = Some es
      ∧ LibrariesChanged ls ∈ es
      ∧ ls ≠ []
      ∧ ∀ cs, CollectionsChanged cs ∉ es.
Proof.
  assert (∀ item c, item ∈ [unfiled_item] → c ∈ getCollections item → c ≠ 0 →
                    (nested_rank c < 0)%nat) as Hfuel.
  { intros item c ->%list_elem_of_singleton Hc. by apply elem_of_nil in Hc. }
  split; [split; [discriminate|exact Hfuel]|].
  destruct (C10_libraries_changed_emitted nested_parent nested_rank nested_rank_parent
              0%nat [unfiled_item] ltac:(discriminate) Hfuel)
    as (es & ls & H1 & H2 & H3 & _ & H5).
  exists es, ls. split; [exact H1|]. split; [exact H2|]. split; [exact H3|].
  apply H5. intros item ->%list_elem_of_singleton. reflexivity.
Defined.

(** C2 on the sample definition: the failing run. *)
Lemma C2_sample_cancelled :
  (heap (touch ready) !! 0%nat = Some {| task_id := 1; cancelled := false |}
   ∧ DB.get 1 (db (touch ready)) = Some sample_doc
   ∧ ∀ w', w' ∈ workers (scheduler (touch ready)) →
           (w_task w' < length (heap (touch ready)))%nat)
  ∧ ∃ st1 st3,
      queueHandler Kscheduler scheduler_handler 0%nat (touch ready) = Some st1
      ∧ heap (queue_cancel Kscheduler 1 st1) !! 0%nat
        = Some {| task_id := 1; cancelled := true |}
      ∧ engine_run [Tick debounce_delay; SchedulerWake first_worker]
          (queue_cancel Kscheduler 1 st1) = Some st3
      ∧ pushes (scheduled st3) = [1].
Proof.
  assert (∀ w', w' ∈ workers (scheduler (touch ready)) →
                (w_task w' < length (heap (touch ready)))%nat) as Hwf.
  { intros w' Hw'. by apply elem_of_nil in Hw'. }
  split; [split; [reflexivity|split; [reflexivity|exact Hwf]]|].
  destruct (C2_cancel_does_not_stop_promotion (touch ready) 0%nat
              {| task_id := 1; cancelled := false |} sample_doc
              eq_refl eq_refl eq_refl Hwf)
    as (st1 & st3 & H1 & _ & _ & H4 & _ & H6 & H7).
  exists st1, st3. split; [exact H1|]. split; [exact H4|]. split; [exact H6|exact H7].
Defined.

(** The same through the queue: push, start, [scheduler.cancel(1)] half way
    through the quiet period, and the wait's end. *)
Example cancelled_then_woken_promoted :
  ∃ st, cancelled_then_woken = Some st
        ∧ heap st !! 0%nat = Some {| task_id := 1; cancelled := true |}
        ∧ pushes (scheduled st) = [1].
Proof. vm_compute. eexists. repeat split. Qed.

(** * Further properties of the auto-export module *)

(** ** [schedule] and [run] *)

(** X1.  [schedule(type, ids)] pushes, in store order, the keys of exactly
    the definitions of that type whose scope id is among [ids] onto the
    debounce queue; the store, the run queue, the waiting workers and the
    paused flag stay as they are.  With no matching definition (an empty
    [ids], say) nothing is queued. *)
Theorem X1_schedule_pushes_matching (ty : ScopeType) (ids : list Z) (st : State) :
  let st' := AutoExport.schedule ty ids st in
  pushes (scheduler st')
  = pushes (scheduler st) ++ (loki <$> DB.find_scope ty ids (db st))
  ∧ (∀ k, k ∈ (tasks (scheduler st')).*1
          ↔ k ∈ (tasks (scheduler st)).*1
            ∨ ∃ d, d ∈ DB.data (db st) ∧ type (obj d) = ty ∧ id (obj d) ∈ ids
                   ∧ loki d = k)
  ∧ (DB.find_scope ty ids (db st) = [] → st' = st)
  ∧ db st' = db st
  ∧ scheduled st' = scheduled st
  ∧ workers (scheduler st') = workers (scheduler st)
  ∧ stopped (scheduler st') = stopped (scheduler st).
Proof.
  intros st'. subst st'. unfold AutoExport.schedule.
  destruct (push_all_scheduler (DB.find_scope ty ids (db st)) st)
    as (H1 & H2 & H3 & H4 & H5 & H6 & H7 & H8 & H9).
  cbv zeta in *. split; [done|]. split.
  - intros k. rewrite H9. split; (intros [?|H]; [by left|right]).
    + apply list_elem_of_fmap in H as (d & -> & Hd).
      apply list_elem_of_filter in Hd as [[? ?] ?]. eauto 6.
    + destruct H as (d & Hd & Hty & Hid & <-). apply list_elem_of_fmap_2.
      apply list_elem_of_filter. done.
  - split; [by intros ->|]. done.
Qed.

(** X2.  [run(k)] for the key of a stored definition bypasses the debounce
    queue: the definition's status becomes [scheduled], a fresh task with
    that key is pushed and queued on [scheduled], and [scheduler] is left
    alone, whatever the trigger mode. *)
Theorem X2_run_bypasses_debounce (k : Z) (st : State) (ae : Doc) :
  DB.get k (db st) = Some ae →
  ∃ st', AutoExport.run k st = Some st'
         ∧ DB.get k (db st') = Some (set_status St_scheduled ae)
         ∧ pushes (scheduled st') = pushes (scheduled st) ++ [k]
         ∧ k ∈ (tasks (scheduled st')).*1
         ∧ heap st' = heap st ++ [ {| task_id := k; cancelled := false |} ]
         ∧ scheduler st' = scheduler st
         ∧ autoExport st' = autoExport st.
Proof.
  intros Hget. pose proof (get_loki _ _ _ Hget) as Hk.
  destruct (update_stored (set_status St_scheduled ae) ae (db st)) as (c & Hup & Hc & _).
  { by rewrite set_status_loki, Hk. }
  unfold AutoExport.run. rewrite Hget. cbn [mbind option_bind]. rewrite Hup.
  cbn [mbind option_bind]. eexists. split; [done|]. simpl. rewrite Hk.
  split; [by rewrite <- Hk|]. split; [done|]. split; [|done].
  apply put_keys. by left.
Qed.

(** ** The run executor on a task without a definition *)

(** X3.  When the run queue starts a task whose [id] has no definition in
    the store (lines 37-39), the handler throws the not-found error: the
    callback reports the failure, no export is made, nothing is stored, no
    worker is left, and the queue goes on with the entries behind it. *)
Theorem X3_run_executor_not_found (st : State) (key : Z) (r : ref)
    (rest : list (Z * ref)) (t : Task) :
  stopped (scheduled st) = false →
  tasks (scheduled st) = (key, r) :: rest →
  heap st !! r = Some t →
  DB.get (task_id t) (db st) = None →
  ∃ st', engine_step ScheduledStart st = Some st'
         ∧ finished (scheduled st')
           = finished (scheduled st) ++ [(task_id t, Some (not_found (task_id t)))]
         ∧ translations st' = translations st
         ∧ db st' = db st
         ∧ workers (scheduled st') = workers (scheduled st)
         ∧ tasks (scheduled st') = rest
         ∧ stopped (scheduled st') = false
         ∧ scheduler st' = scheduler st.
Proof.
  intros Hrun Htasks Ht Hnone. simpl. unfold queue_start. simpl.
  rewrite Hrun, Htasks. unfold queueHandler, scheduled_handler. simpl.
  rewrite Ht. simpl. rewrite Hnone. simpl. eexists. split; [done|]. simpl.
  by rewrite Hrun.
Qed.

(** ** From a push to the export *)

Lemma run_executor_steps (st : State) (r : ref) (key : Z) (rest : list (Z * ref))
    (t : Task) (ae : Doc) (result : option JsThrown) :
  stopped (scheduled st) = false →
  tasks (scheduled st) = (key, r) :: rest →
  heap st !! r = Some t →
  DB.get (task_id t) (db st) = Some ae →
  ∃ c1 c2,
    DB.get (task_id t) c2
      = Some (set_status St_done
                (set_error (match result with
                            | None => ""
                            | Some err => template err
                            end) ae))
    ∧ engine_run
        [ScheduledStart;
         ScheduledSettle {| w_task := r; w_local := r;
                            w_await := Export (translate_call ae) |} result] st
      = Some (settle Kscheduled (task_id t) r Fulfilled
                (with_db (λ _, c2)
                   (with_queue Kscheduled
                      (with_workers
                         (λ ws, list_difference ws
                                  [ {| w_task := r; w_local := r;
                                       w_await := Export (translate_call ae) |} ]))
                      (settle Kscheduled (task_id t) r
                         (Suspended r (Export (translate_call ae)))
                         (with_translations
                            (λ l, l ++ [(loki ae, translate_call ae)])
                            (with_db (λ _, c1)
                               (with_queue Kscheduled (with_tasks (λ _, rest)) st))))))).
Proof.
  intros Hrun Htasks Ht Hae.
  set (w := {| w_task := r; w_local := r; w_await := Export (translate_call ae) |}).
  pose proof (get_loki _ _ _ Hae) as Hk.
  destruct (update_stored (set_status St_running ae) ae (db st)) as (c & Hup & Hget & _).
  { by rewrite set_status_loki, Hk. }
  simpl in Hget. rewrite Hk in Hget.
  set (st1 := settle Kscheduled (task_id t) r (Suspended r (Export (translate_call ae)))
                (with_translations (λ l, l ++ [(loki ae, translate_call ae)])
                   (with_db (λ _, c) (with_queue Kscheduled (with_tasks (λ _, rest)) st)))).
  assert (engine_step ScheduledStart st = Some st1) as Hstart.
  { simpl. unfold queue_start. simpl. rewrite Hrun, Htasks.
    unfold queueHandler, scheduled_handler. simpl. rewrite Ht. simpl.
    rewrite Hae, Hup. done. }
  set (st1' := with_queue Kscheduled (with_workers (λ ws, list_difference ws [w])) st1).
  destruct (scheduled_settled_stored result w st1' t (set_status St_running ae))
    as (c2 & Hsettled & Hget2); [done..|].
  exists c, c2. split; [exact Hget2|].
  cbn [engine_run]. rewrite Hstart. cbn [mbind option_bind].
  unfold engine_step. change (w_await w) with (Export (translate_call ae)).
  cbv iota. unfold queueHandler_resume.
  rewrite decide_True
    by (subst st1; simpl; apply elem_of_app; right; by apply list_elem_of_singleton).
  fold st1'. replace (heap st1 !! w_task w) with (Some t) by done.
  rewrite Hsettled. reflexivity.
Qed.

Lemma engine_run_app (es1 es2 : list Event) (st st1 : State) :
  engine_run es1 st = Some st1 →
  engine_run (es1 ++ es2) st = engine_run es2 st1.
Proof.
  revert st. induction es1 as [|e es1 IH]; intros st; simpl.
  - by intros [= ->].
  - destruct (engine_step e st) as [st'|]; simpl; [|done]. apply IH.
Qed.

(** The debounce stage for one entry that nobody cancels. *)
Lemma debounce_steps (st : State) (r : ref) (key : Z) (rest : list (Z * ref))
    (t : Task) (ae : Doc) (dt : Z) :
  stopped (scheduler st) = false →
  tasks (scheduler st) = (key, r) :: rest →
  heap st !! r = Some t →
  cancelled t = false →
  DB.get (task_id t) (db st) = Some ae →
  debounce_delay ≤ dt →
  let w := {| w_task := r; w_local := length (heap st);
              w_await := Delay (now st + debounce_delay) |} in
  ∃ c,
    DB.get (task_id t) c = Some (set_status St_scheduled ae)
    ∧ engine_run [SchedulerStart; Tick dt; SchedulerWake w] st
      = Some (settle Kscheduler (task_id t) r Fulfilled
                (queue_push Kscheduled (task_id t) (length (heap st))
                   (with_queue Kscheduler
                      (with_workers (λ ws, list_difference ws [w]))
                      (with_now (λ n, n + dt)
                         (settle Kscheduler (task_id t) r
                            (Suspended (length (heap st))
                               (Delay (now st + debounce_delay)))
                            (with_db (λ _, c)
                               (with_heap (λ h, h ++ [t])
                                  (with_queue Kscheduler
                                     (with_tasks (λ _, rest)) st)))))))).
Proof.
  intros Hrun Htasks Ht Hc Hae Hdt w.
  pose proof (get_loki _ _ _ Hae) as Hk.
  destruct (update_stored (set_status St_scheduled ae) ae (db st)) as (c & Hup & Hget & _).
  { by rewrite set_status_loki, Hk. }
  simpl in Hget. rewrite Hk in Hget.
  exists c. split; [exact Hget|].
  set (st1 := settle Kscheduler (task_id t) r
                (Suspended (length (heap st)) (Delay (now st + debounce_delay)))
                (with_db (λ _, c) (with_heap (λ h, h ++ [t])
                   (with_queue Kscheduler (with_tasks (λ _, rest)) st)))).
  assert (engine_step SchedulerStart st = Some st1) as Hstart.
  { simpl. unfold queue_start. simpl. rewrite Hrun, Htasks.
    unfold queueHandler, scheduler_handler. simpl. rewrite Ht. simpl.
    rewrite Hae, Hup. done. }
  cbn [engine_run]. rewrite Hstart. cbn [mbind option_bind engine_step].
  assert (0 ≤ dt) as H0 by (unfold debounce_delay in Hdt; lia).
  rewrite decide_True by done. cbn [mbind option_bind].
  change (w_await w) with (Delay (now st + debounce_delay)). cbv iota.
  rewrite decide_True by (simpl; lia).
  unfold queueHandler_resume.
  rewrite decide_True
    by (simpl; apply elem_of_app; right; by apply list_elem_of_singleton).
  assert (heap st1 !! r = Some t) as Ht1.
  { simpl. rewrite lookup_app_l; [done|]. by eapply lookup_lt_Some. }
  change (heap (with_now ?f ?s)) with (heap s). change (w_task w) with r.
  rewrite Ht1. cbn [mbind option_bind]. unfold scheduler_woken.
  change (w_local w) with (length (heap st)).
  change (heap (with_queue ?k ?f (with_now ?g ?s))) with (heap s).
  assert (heap st1 !! length (heap st) = Some t) as Hcopy.
  { simpl. rewrite lookup_app_r by lia. by rewrite Nat.sub_diag. }
  rewrite Hcopy. cbn [mbind option_bind]. rewrite Hc. reflexivity.
Qed.

(** The start of the debounce handler on a queued task whose definition
    is stored. *)
Lemma debounce_start (st : State) (r : ref) (key : Z) (rest : list (Z * ref))
    (t : Task) (ae : Doc) :
  stopped (scheduler st) = false →
  tasks (scheduler st) = (key, r) :: rest →
  heap st !! r = Some t →
  DB.get (task_id t) (db st) = Some ae →
  ∃ c,
    DB.get (task_id t) c = Some (set_status St_scheduled ae)
    ∧ engine_step SchedulerStart st
      = Some (settle Kscheduler (task_id t) r
                (Suspended (length (heap st)) (Delay (now st + debounce_delay)))
                (with_db (λ _, c)
                   (with_heap (λ h, h ++ [t])
                      (with_queue Kscheduler (with_tasks (λ _, rest)) st)))).
Proof.
  intros Hrun Htasks Ht Hae.
  pose proof (get_loki _ _ _ Hae) as Hk.
  destruct (update_stored (set_status St_scheduled ae) ae (db st)) as (c & Hup & Hget & _).
  { by rewrite set_status_loki, Hk. }
  simpl in Hget. rewrite Hk in Hget.
  exists c. split; [exact Hget|].
  simpl. unfold queue_start. simpl. rewrite Hrun, Htasks.
  unfold queueHandler, scheduler_handler. simpl. rewrite Ht. simpl.
  rewrite Hae, Hup. done.
Qed.

(** X4.  A push that is neither cancelled nor repeated goes all the way:
    started from a queued, uncancelled task whose definition is stored,
    with an empty run queue, the debounce handler sets the status to
    [scheduled] and waits; while it waits nothing is pushed onto
    [scheduled], and its wake-up cannot happen in any state whose clock is
    short of the start time plus [debounce_delay].  Woken after a [dt] of
    at least [debounce_delay], it pushes the task's key onto [scheduled];
    the run executor then calls the translator once, with the
    definition's [translatorID], its two options, its scope ([collection]
    or [library] with the scope id, nothing for another type) and its
    path, and leaves the definition with status [done] and the export's
    outcome as its last error.  Both handlers complete with [cb(null)]. *)
Theorem X4_push_to_export (st : State) (r : ref) (key : Z) (rest : list (Z * ref))
    (t : Task) (ae : Doc) (dt : Z) (result : option JsThrown) :
  stopped (scheduler st) = false →
  tasks (scheduler st) = (key, r) :: rest →
  heap st !! r = Some t →
  cancelled t = false →
  DB.get (task_id t) (db st) = Some ae →
  stopped (scheduled st) = false →
  tasks (scheduled st) = [] →
  debounce_delay ≤ dt →
  let copy := length (heap st) in
  let w := {| w_task := r; w_local := copy;
              w_await := Delay (now st + debounce_delay) |} in
  let call := {| t_translatorID := translatorID (obj ae);
                 t_exportNotes := exportNotes (obj ae);
                 t_useJournalAbbreviation := useJournalAbbreviation (obj ae);
                 t_items := match type (obj ae) with
                            | collection => Some (ItemsCollection (id (obj ae)))
                            | library => Some (ItemsLibrary (id (obj ae)))
                            | other_type _ => None
                            end;
                 t_path := path (obj ae) |} in
  let w' := {| w_task := copy; w_local := copy; w_await := Export call |} in
  (∃ st',
     engine_run [SchedulerStart; Tick dt; SchedulerWake w;
                 ScheduledStart; ScheduledSettle w' result] st = Some st'
     ∧ translations st' = translations st ++ [(task_id t, call)]
     ∧ DB.get (task_id t) (db st')
       = Some (set_status St_done
                 (set_error (match result with
                             | None => ""
                             | Some err => template err
                             end) ae))
     ∧ pushes (scheduled st') = pushes (scheduled st) ++ [task_id t]
     ∧ finished (scheduler st') = finished (scheduler st) ++ [(task_id t, None)]
     ∧ finished (scheduled st') = finished (scheduled st) ++ [(task_id t, None)]
     ∧ tasks (scheduler st') = rest
     ∧ tasks (scheduled st') = [])
  ∧ (∀ dt' st1,
       engine_run [SchedulerStart; Tick dt'] st = Some st1 →
       workers (scheduler st1) = workers (scheduler st) ++ [w]
       ∧ DB.get (task_id t) (db st1) = Some (set_status St_scheduled ae)
       ∧ now st1 = now st + dt'
       ∧ scheduled st1 = scheduled st
       ∧ translations st1 = translations st)
  ∧ (∀ st1, now st1 < now st + debounce_delay →
            engine_step (SchedulerWake w) st1 = None).
Proof.
  intros Hrun Htasks Ht Hc Hae Hrun' Htasks' Hdt copy w call w'.
  assert (call = translate_call ae) as Ecall by reflexivity.
  clearbody call. subst call.
  pose proof (get_loki _ _ _ Hae) as Hk.
  split; [|split].
  - destruct (debounce_steps st r key rest t ae dt Hrun Htasks Ht Hc Hae Hdt)
      as (c & Hget & Hdeb).
    fold copy w in Hdeb. set (st3 := settle _ _ _ _ _) in Hdeb.
    assert (heap st3 !! copy = Some t) as Hcopy.
    { simpl. unfold copy. rewrite lookup_app_r by lia. by rewrite Nat.sub_diag. }
    destruct (run_executor_steps st3 copy (task_id t) [] t (set_status St_scheduled ae)
                result) as (c1 & c2 & Hget2 & Hexec).
    + simpl. exact Hrun'.
    + simpl. rewrite Htasks'. reflexivity.
    + exact Hcopy.
    + exact Hget.
    + change (translate_call (set_status St_scheduled ae)) with (translate_call ae)
        in Hexec.
      change (loki (set_status St_scheduled ae)) with (loki ae) in Hexec.
      eexists. split.
      { change [SchedulerStart; Tick dt; SchedulerWake w; ScheduledStart;
                ScheduledSettle w' result]
          with ([SchedulerStart; Tick dt; SchedulerWake w]
                ++ [ScheduledStart; ScheduledSettle w' result]).
        rewrite (engine_run_app _ _ _ _ Hdeb). exact Hexec. }
      simpl. split; [by rewrite Hk|]. split; [exact Hget2|]. done.
  - intros dt' st1.
    destruct (debounce_start st r key rest t ae Hrun Htasks Ht Hae) as (c & Hget & Hstart).
    cbn [engine_run]. rewrite Hstart. cbn [mbind option_bind engine_step].
    case_decide; [|done]. cbn [mbind option_bind]. intros [= <-].
    simpl. split; [done|]. split; [exact Hget|]. done.
  - intros st1 Hnow. unfold engine_step.
    change (w_await w) with (Delay (now st + debounce_delay)). cbv iota.
    rewrite decide_False by lia. reflexivity.
Qed.

(** ** From changed items to scheduled definitions *)

Lemma find_scope_nil (ty : ScopeType) (c : DB.Collection) :
  DB.find_scope ty [] c = [].
Proof.
  apply elem_of_nil_inv. intros d [[_ Hin] _]%list_elem_of_filter.
  by apply elem_of_nil in Hin.
Qed.

Lemma schedule_nil (ty : ScopeType) (st : State) :
  AutoExport.schedule ty [] st = st.
Proof. unfold AutoExport.schedule. by rewrite find_scope_nil. Qed.

(** Dispatching the events [changed] emits amounts to scheduling the
    collections and then the libraries, also when a set is empty. *)
Lemma dispatch_emitted (cs ls : list Z) (st : State) :
  foldl (λ st e, AutoExport.on_emitted e st) st (AutoExport.emitted cs ls)
  = AutoExport.schedule library ls (AutoExport.schedule collection cs st).
Proof.
  unfold AutoExport.emitted. destruct cs, ls; simpl; by rewrite ?schedule_nil.
Qed.

Section changed_schedules.

Variable parentID : Z → option Z.
Variable rank : Z → nat.
Hypothesis rank_parent :
  ∀ c p, c ≠ 0 → parentID c = Some p → p ≠ 0 → (rank p < rank c)%nat.

(** X5.  [changed(items)], through the two events and their listeners,
    queues on the debounce queue every stored collection definition whose
    collection is one an item is in or an ancestor of one, and every
    stored library definition whose library holds one of the items; it
    queues nothing else, first the collection definitions and then the
    library ones, and leaves the store and the run queue alone. *)
Theorem X5_changed_schedules_watchers (fuel : nat) (items : list Item) (st : State) :
  (∀ item c, item ∈ items → c ∈ getCollections item → c ≠ 0 → (rank c < fuel)%nat) →
  ∃ st' cs ls,
    AutoExport.changed parentID fuel items st = Some st'
    ∧ AutoExport.changed_sets parentID fuel items = Some (cs, ls)
    ∧ pushes (scheduler st')
      = pushes (scheduler st)
        ++ (loki <$> DB.find_scope collection cs (db st))
        ++ (loki <$> DB.find_scope library ls (db st))
    ∧ (∀ k, k ∈ (tasks (scheduler st')).*1
            ↔ k ∈ (tasks (scheduler st)).*1
              ∨ ∃ d, d ∈ DB.data (db st) ∧ loki d = k
                     ∧ ((type (obj d) = collection
                         ∧ ∃ item c, item ∈ items ∧ c ∈ getCollections item
                                     ∧ chain parentID c (id (obj d)))
                        ∨ (type (obj d) = library
                           ∧ ∃ item, item ∈ items ∧ libraryID item = id (obj d))))
    ∧ db st' = db st
    ∧ scheduled st' = scheduled st.
Proof.
  intros Hfuel.
  destruct (changed_sets_spec parentID rank rank_parent fuel items Hfuel)
    as (cs & ls & Hs & _ & _ & Hin & Hinl).
  set (st1 := AutoExport.schedule collection cs st).
  set (st2 := AutoExport.schedule library ls st1).
  exists st2, cs, ls.
  destruct (push_all_scheduler (DB.find_scope collection cs (db st)) st)
    as (A1 & A2 & _ & _ & _ & _ & _ & A8 & A9).
  destruct (push_all_scheduler (DB.find_scope library ls (db st1)) st1)
    as (B1 & B2 & _ & _ & _ & _ & _ & B8 & B9).
  cbv zeta in *. fold (AutoExport.schedule collection cs st) in A1, A2, A8, A9.
  fold (AutoExport.schedule library ls st1) in B1, B2, B8, B9.
  fold st1 in A1, A2, A8, A9. fold st2 in B1, B2, B8, B9.
  split.
  { unfold AutoExport.changed, AutoExport.changed_events. rewrite Hs.
    cbn [mbind option_bind]. by rewrite dispatch_emitted. }
  split; [done|]. split.
  { rewrite B8, A8, A1. by rewrite <- app_assoc. }
  split; [|split; congruence].
  intros k. rewrite B9, A9, A1. split.
  - intros [[?|H]|H]; [by left|right|right].
    + apply list_elem_of_fmap in H as (d & -> & [[Hty Hid] Hd]%list_elem_of_filter).
      exists d. split; [done|]. split; [done|]. left. split; [done|]. by apply Hin.
    + apply list_elem_of_fmap in H as (d & -> & [[Hty Hid] Hd]%list_elem_of_filter).
      exists d. split; [done|]. split; [done|]. right. split; [done|]. by apply Hinl.
  - intros [?|(d & Hd & <- & [[Hty H]|[Hty H]])]; [left; by left|left; right|right].
    + apply list_elem_of_fmap_2, list_elem_of_filter. split; [|done].
      split; [done|]. by apply Hin.
    + apply list_elem_of_fmap_2, list_elem_of_filter. split; [|done].
      split; [done|]. by apply Hinl.
Qed.

End changed_schedules.

(** ** What the module keeps true of the store *)

Lemma NoDup_fmap_filter {A B : Type} (f : A → B) (P : A → Prop)
    `{∀ x, Decision (P x)} (l : list A) :
  NoDup (f <$> l) → NoDup (f <$> filter P l).
Proof.
  intros Hl. eapply sublist_NoDup; [exact Hl|]. apply fmap_sublist, sublist_filter.
Qed.

Lemma NoDup_fmap_eq {A B : Type} (f : A → B) (l : list A) (x y : A) :
  NoDup (f <$> l) → x ∈ l → y ∈ l → f x = f y → x = y.
Proof.
  induction l as [|a l IH]; [by intros _ []%elem_of_nil|].
  rewrite fmap_cons, NoDup_cons. intros [Ha Hl] Hx Hy E.
  apply elem_of_cons in Hx as [->|Hx]; apply elem_of_cons in Hy as [->|Hy].
  - done.
  - exfalso. apply Ha. rewrite E. by apply list_elem_of_fmap_2.
  - exfalso. apply Ha. rewrite <- E. by apply list_elem_of_fmap_2.
  - by apply IH.
Qed.

Lemma db_wf_empty : db_wf {| DB.data := []; DB.maxId := 0 |}.
Proof.
  split; [apply NoDup_nil_2|]. split; [|apply NoDup_nil_2].
  by intros d []%elem_of_nil.
Qed.

(** [update] with a record that has the key and the path of the stored one. *)
Lemma update_wf (ae old : Doc) (c c' : DB.Collection) :
  db_wf c → DB.get (loki ae) c = Some old → path (obj ae) = path (obj old) →
  DB.update ae c = Some c' → db_wf c'.
Proof.
  intros (Hk & Hmax & Hp) Hget Hpath. unfold DB.update. rewrite Hget.
  intros [= <-]. unfold db_wf. simpl.
  assert (loki <$> ((λ d, if decide (loki d = loki ae) then ae else d) <$> DB.data c)
          = loki <$> DB.data c) as E1.
  { rewrite <- list_fmap_compose. apply list_fmap_ext. intros i d _. simpl.
    by case_decide. }
  assert ((λ d, path (obj d))
            <$> ((λ d, if decide (loki d = loki ae) then ae else d) <$> DB.data c)
          = (λ d, path (obj d)) <$> DB.data c) as E2.
  { rewrite <- list_fmap_compose. apply list_fmap_ext. intros i d Hd. simpl.
    case_decide as E; [|done].
    apply list_elem_of_lookup_2 in Hd. pose proof (get_elem_of _ _ _ Hget) as Ho.
    pose proof (get_loki _ _ _ Hget) as Hl.
    assert (d = old) as -> by (eapply (NoDup_fmap_eq loki); eauto; congruence).
    done. }
  rewrite E1, E2. split; [done|]. split; [|done].
  intros d (d0 & -> & Hd0)%list_elem_of_fmap. case_decide as E.
  - rewrite <- E. by apply Hmax.
  - by apply Hmax.
Qed.

Lemma remove_wf (ae : Doc) (c : DB.Collection) : db_wf c → db_wf (DB.remove ae c).
Proof.
  intros (Hk & Hmax & Hp). unfold db_wf, DB.remove. simpl.
  split; [by apply NoDup_fmap_filter|]. split; [|by apply NoDup_fmap_filter].
  intros d [_ Hd]%list_elem_of_filter. by apply Hmax.
Qed.

Lemma add_wf (ae : AutoExportDef) (c : DB.Collection) :
  db_wf c → db_wf (DB.insert ae (DB.removeWhere_path (path ae) c)).
Proof.
  intros (Hk & Hmax & Hp). unfold db_wf, DB.insert, DB.removeWhere_path. simpl.
  rewrite !fmap_app. simpl. split; [|split].
  - apply NoDup_app. split; [by apply NoDup_fmap_filter|]. split; [|apply NoDup_singleton].
    intros k (d & -> & [_ Hd]%list_elem_of_filter)%list_elem_of_fmap.
    intros E%list_elem_of_singleton. apply Hmax in Hd. lia.
  - intros d [[_ Hd]%list_elem_of_filter| ->%list_elem_of_singleton]%elem_of_app.
    + apply Hmax in Hd. lia.
    + simpl. lia.
  - apply NoDup_app. split; [by apply NoDup_fmap_filter|]. split; [|apply NoDup_singleton].
    intros p (d & -> & [Hne Hd]%list_elem_of_filter)%list_elem_of_fmap.
    intros E%list_elem_of_singleton. done.
Qed.

Lemma scheduler_handler_wf (r : ref) (st st' : State) (o : Outcome) :
  scheduler_handler r st = Some (st', o) → db_wf (db st) → db_wf (db st').
Proof.
  unfold scheduler_handler. destruct (heap st !! r) as [t|]; simpl; [|done].
  destruct (DB.get _ _) as [ae|] eqn:Hget;
    [destruct (DB.update _ _) eqn:Hup|]; intros [= <- <-] Hwf; try done.
  simpl. refine (update_wf _ ae _ _ Hwf _ _ Hup); [|reflexivity].
  pose proof (get_loki _ _ _ Hget) as Hk. simpl. by rewrite Hk.
Qed.

Lemma scheduled_handler_wf (r : ref) (st st' : State) (o : Outcome) :
  scheduled_handler r st = Some (st', o) → db_wf (db st) → db_wf (db st').
Proof.
  unfold scheduled_handler. destruct (heap st !! r) as [t|]; simpl; [|done].
  destruct (DB.get _ _) as [ae|] eqn:Hget;
    [destruct (DB.update _ _) eqn:Hup|]; intros [= <- <-] Hwf; try done.
  simpl. refine (update_wf _ ae _ _ Hwf _ _ Hup); [|reflexivity].
  pose proof (get_loki _ _ _ Hget) as Hk. simpl. by rewrite Hk.
Qed.

Lemma scheduler_woken_wf (w : Worker) (st st' : State) (o : Outcome) :
  scheduler_woken w st = Some (st', o) → db_wf (db st) → db_wf (db st').
Proof.
  unfold scheduler_woken. destruct (heap st !! w_local w) as [t|]; simpl; [|done].
  destruct (cancelled t); intros [= <- <-]; done.
Qed.

Lemma scheduled_settled_wf (result : option JsThrown) (w : Worker) (st st' : State)
    (o : Outcome) :
  scheduled_settled result w st = Some (st', o) → db_wf (db st) → db_wf (db st').
Proof.
  unfold scheduled_settled. destruct (heap st !! w_local w) as [t|]; simpl; [|done].
  destruct (DB.get _ _) as [ae|] eqn:Hget;
    [destruct (DB.update _ _) eqn:Hup|]; intros [= <- <-] Hwf; try done.
  simpl. refine (update_wf _ ae _ _ Hwf _ _ Hup); [|reflexivity].
  pose proof (get_loki _ _ _ Hget) as Hk. simpl. by rewrite Hk.
Qed.

Lemma settle_db (kind : Kind) (key : Z) (task : ref) (o : Outcome) (st : State) :
  db (settle kind key task o st) = db st.
Proof. destruct o, kind; done. Qed.

Lemma with_queue_db (k : Kind) (f : Queue → Queue) (st : State) :
  db (with_queue k f st) = db st.
Proof. by destruct k. Qed.

Lemma queueHandler_wf (kind : Kind) (handler : Handler) (r : ref) (st st' : State) :
  (∀ r st st' o, handler r st = Some (st', o) → db_wf (db st) → db_wf (db st')) →
  queueHandler kind handler r st = Some st' → db_wf (db st) → db_wf (db st').
Proof.
  intros Hh. unfold queueHandler. destruct (heap st !! r); simpl; [|done].
  destruct (handler r st) as [[st1 o]|] eqn:E; simpl; [|done].
  intros [= <-] Hwf. rewrite settle_db. eauto.
Qed.

Lemma queueHandler_resume_wf (kind : Kind) (cont : Continuation) (w : Worker)
    (st st' : State) :
  (∀ w st st' o, cont w st = Some (st', o) → db_wf (db st) → db_wf (db st')) →
  queueHandler_resume kind cont w st = Some st' → db_wf (db st) → db_wf (db st').
Proof.
  intros Hh. unfold queueHandler_resume. case_decide; [|done].
  destruct (heap st !! w_task w); simpl; [|done].
  destruct (cont w _) as [[st1 o]|] eqn:E; simpl; [|done].
  intros [= <-] Hwf. rewrite settle_db. eapply Hh; [exact E|].
  by rewrite with_queue_db.
Qed.

Lemma queue_start_wf (kind : Kind) (handler : Handler) (st st' : State) :
  (∀ r st st' o, handler r st = Some (st', o) → db_wf (db st) → db_wf (db st')) →
  queue_start kind handler st = Some st' → db_wf (db st) → db_wf (db st').
Proof.
  intros Hh. unfold queue_start. destruct (stopped _); [done|].
  destruct (tasks _) as [|[key r] rest]; [done|].
  intros H Hwf. eapply queueHandler_wf in H; [done|done|]. by rewrite with_queue_db.
Qed.

Lemma engine_step_wf (e : Event) (st st' : State) :
  engine_step e st = Some st' → db_wf (db st) → db_wf (db st').
Proof.
  destruct e as [dt| |w| |w result]; simpl.
  - case_decide; [|done]. by intros [= <-].
  - apply queue_start_wf, scheduler_handler_wf.
  - destruct (w_await w); [|done]. case_decide; [|done].
    apply queueHandler_resume_wf, scheduler_woken_wf.
  - apply queue_start_wf, scheduled_handler_wf.
  - destruct (w_await w); [done|].
    apply queueHandler_resume_wf. intros ????. apply scheduled_settled_wf.
Qed.

Lemma schedule_db (ty : ScopeType) (ids : list Z) (st : State) :
  db (AutoExport.schedule ty ids st) = db st.
Proof.
  unfold AutoExport.schedule.
  by destruct (push_all_scheduler (DB.find_scope ty ids (db st)) st) as (H & _).
Qed.

Lemma remove_fold_wf (l : list Doc) (st : State) :
  db_wf (db st) → db_wf (db (foldl AutoExport.remove_one st l)).
Proof.
  revert st. induction l as [|ae l IH]; intros st Hwf; [done|].
  cbn [foldl]. apply IH. unfold AutoExport.remove_one. simpl. by apply remove_wf.
Qed.

(** X6.  Whatever is called and whatever the queues do, a store in which
    keys are distinct and no two definitions share an output path stays
    so: [add] replaces what was stored at the new definition's path, and
    the handlers only rewrite a definition in place. *)
Theorem X6_store_stays_well_formed (c : Call) (st st' : State) :
  db_wf (db st) → call_step c st = Some st' →
  db_wf (db st')
  ∧ (∀ d1 d2, d1 ∈ DB.data (db st') → d2 ∈ DB.data (db st') →
              path (obj d1) = path (obj d2) ∨ loki d1 = loki d2 → d1 = d2).
Proof.
  intros Hwf Hstep.
  assert (db_wf (db st')) as Hwf'.
  { destruct c as [|ae|parentID fuel items|ty ids|ty ids|k|m|pref|topic|e];
      simpl in Hstep.
    - injection Hstep as <-. unfold AutoExport.init.
      destruct (push_all_scheduler (DB.find_not_done (db st)) st) as (H & _).
      cbv zeta in H. set (st1 := foldl _ st _) in *.
      case_decide; change (db_wf (db st1)); by rewrite H.
    - injection Hstep as <-. simpl. by apply add_wf.
    - unfold AutoExport.changed in Hstep.
      destruct (AutoExport.changed_events parentID fuel items) as [es|]; [|done].
      injection Hstep as <-. clear -Hwf. revert st Hwf.
      induction es as [|e es IH]; intros st Hwf; [done|].
      cbn [foldl]. apply IH. destruct e; simpl; by rewrite schedule_db.
    - injection Hstep as <-. by rewrite schedule_db.
    - injection Hstep as <-. by apply remove_fold_wf.
    - unfold AutoExport.run in Hstep.
      destruct (DB.get k (db st)) as [ae|] eqn:Hget; [|done]. simpl in Hstep.
      destruct (DB.update _ _) as [c'|] eqn:Hup; [|done]. injection Hstep as <-.
      simpl. refine (update_wf _ ae _ _ Hwf _ _ Hup); [|reflexivity].
      pose proof (get_loki _ _ _ Hget) as Hk. simpl. by rewrite Hk.
    - injection Hstep as <-. unfold set_autoExport, preference_changed.
      case_decide; [done|]. by destruct m.
    - injection Hstep as <-. unfold preference_changed.
      case_decide; [done|]. by destruct (autoExport st).
    - injection Hstep as <-. unfold idleObserver_observe.
      case_decide; [done|]. by destruct topic.
    - by eapply engine_step_wf. }
  split; [done|]. destruct Hwf' as (Hk & _ & Hp).
  intros d1 d2 H1 H2 [E|E].
  - by eapply (NoDup_fmap_eq (λ d, path (obj d))).
  - by eapply (NoDup_fmap_eq loki).
Qed.

(** ** The trigger controller is level triggered *)

(** X7.  The idle observer and the preference listener set the paused flag
    of [scheduler] from what they are told, not from what it was: of two
    notifications the later one decides (unless its topic is not one of
    [idle], [active] and [back], which changes nothing), a repeated
    notification or preference event changes nothing more, and a change of
    the preference overrides whatever the idle service said before. *)
Theorem X7_level_triggered (t1 t2 : Topic) (pref : string) (m : Mode) (st : State) :
  (match t2 with
   | T_other _ => idleObserver_observe t2 (idleObserver_observe t1 st)
                  = idleObserver_observe t1 st
   | _ => idleObserver_observe t2 (idleObserver_observe t1 st)
          = idleObserver_observe t2 st
   end)
  ∧ idleObserver_observe t1 (idleObserver_observe t1 st) = idleObserver_observe t1 st
  ∧ preference_changed pref (preference_changed pref st) = preference_changed pref st
  ∧ set_autoExport m (idleObserver_observe t1 st) = set_autoExport m st.
Proof.
  unfold set_autoExport, preference_changed, idleObserver_observe.
  split; [|split; [|split]].
  - destruct t2, t1, (autoExport st) eqn:E; simpl; rewrite ?E; reflexivity.
  - destruct t1, (autoExport st) eqn:E; simpl; rewrite ?E; reflexivity.
  - destruct (decide (pref ≠ "autoExport")); [reflexivity|].
    destruct (autoExport st) eqn:E; simpl; rewrite ?E; reflexivity.
  - destruct t1, m, (autoExport st) eqn:E; simpl; reflexivity.
Qed.

(** ** The run queue is never paused *)

Lemma settle_run_flag (kind : Kind) (key : Z) (task : ref) (o : Outcome) (st : State) :
  stopped (scheduled (settle kind key task o st)) = stopped (scheduled st).
Proof. destruct o, kind; done. Qed.

Lemma scheduler_handler_run_flag (r : ref) (st st' : State) (o : Outcome) :
  scheduler_handler r st = Some (st', o) →
  stopped (scheduled st') = stopped (scheduled st).
Proof.
  unfold scheduler_handler. destruct (heap st !! r); simpl; [|done].
  destruct (DB.get _ _); [destruct (DB.update _ _)|]; intros [= <- <-]; done.
Qed.

Lemma scheduled_handler_run_flag (r : ref) (st st' : State) (o : Outcome) :
  scheduled_handler r st = Some (st', o) →
  stopped (scheduled st') = stopped (scheduled st).
Proof.
  unfold scheduled_handler. destruct (heap st !! r); simpl; [|done].
  destruct (DB.get _ _); [destruct (DB.update _ _)|]; intros [= <- <-]; done.
Qed.

Lemma scheduler_woken_run_flag (w : Worker) (st st' : State) (o : Outcome) :
  scheduler_woken w st = Some (st', o) →
  stopped (scheduled st') = stopped (scheduled st).
Proof.
  unfold scheduler_woken. destruct (heap st !! w_local w) as [t|]; simpl; [|done].
  destruct (cancelled t); intros [= <- <-]; done.
Qed.

Lemma scheduled_settled_run_flag (result : option JsThrown) (w : Worker)
    (st st' : State) (o : Outcome) :
  scheduled_settled result w st = Some (st', o) →
  stopped (scheduled st') = stopped (scheduled st).
Proof.
  unfold scheduled_settled. destruct (heap st !! w_local w); simpl; [|done].
  destruct (DB.get _ _); [destruct (DB.update _ _)|]; intros [= <- <-]; done.
Qed.

Lemma queueHandler_run_flag (k : Kind) (handler : Handler) (r : ref) (st st' : State) :
  (∀ r st st' o, handler r st = Some (st', o) →
                 stopped (scheduled st') = stopped (scheduled st)) →
  queueHandler k handler r st = Some st' →
  stopped (scheduled st') = stopped (scheduled st).
Proof.
  intros Hh. unfold queueHandler. destruct (heap st !! r); simpl; [|done].
  destruct (handler r st) as [[st1 o]|] eqn:E; simpl; [|done].
  intros [= <-]. rewrite settle_run_flag. eauto.
Qed.

Lemma queueHandler_resume_run_flag (k : Kind) (cont : Continuation) (w : Worker)
    (st st' : State) :
  (∀ w st st' o, cont w st = Some (st', o) →
                 stopped (scheduled st') = stopped (scheduled st)) →
  queueHandler_resume k cont w st = Some st' →
  stopped (scheduled st') = stopped (scheduled st).
Proof.
  intros Hh. unfold queueHandler_resume. case_decide; [|done].
  destruct (heap st !! w_task w); simpl; [|done].
  destruct (cont w _) as [[st1 o]|] eqn:E; simpl; [|done].
  intros [= <-]. rewrite settle_run_flag. apply Hh in E. rewrite E. by destruct k.
Qed.

Lemma queue_start_run_flag (k : Kind) (handler : Handler) (st st' : State) :
  (∀ r st st' o, handler r st = Some (st', o) →
                 stopped (scheduled st') = stopped (scheduled st)) →
  queue_start k handler st = Some st' →
  stopped (scheduled st') = stopped (scheduled st).
Proof.
  intros Hh. unfold queue_start. destruct (stopped _); [done|].
  destruct (tasks _) as [|[key r] rest]; [done|].
  intros H. apply queueHandler_run_flag in H; [|done]. rewrite H. by destruct k.
Qed.

Lemma engine_step_run_flag (e : Event) (st st' : State) :
  engine_step e st = Some st' → stopped (scheduled st') = stopped (scheduled st).
Proof.
  destruct e as [dt| |w| |w result]; simpl.
  - case_decide; [|done]. by intros [= <-].
  - apply queue_start_run_flag, scheduler_handler_run_flag.
  - destruct (w_await w); [|done]. case_decide; [|done].
    apply queueHandler_resume_run_flag, scheduler_woken_run_flag.
  - apply queue_start_run_flag, scheduled_handler_run_flag.
  - destruct (w_await w); [done|].
    apply queueHandler_resume_run_flag, scheduled_settled_run_flag.
Qed.

Lemma remove_fold_run_flag (l : list Doc) (st : State) :
  stopped (scheduled (foldl AutoExport.remove_one st l)) = stopped (scheduled st).
Proof.
  revert st. induction l as [|ae l IH]; intros st; [done|].
  cbn [foldl]. by rewrite IH.
Qed.

Lemma call_step_run_flag (c : Call) (st st' : State) :
  call_step c st = Some st' → stopped (scheduled st') = stopped (scheduled st).
Proof.
  destruct c as [|ae|parentID fuel items|ty ids|ty ids|k|m|pref|topic|e]; simpl.
  - intros [= <-]. unfold AutoExport.init.
    destruct (push_all_scheduler (DB.find_not_done (db st)) st) as (_ & H & _).
    cbv zeta in H. set (st1 := foldl _ st _) in *.
    case_decide; change (stopped (scheduled st1) = stopped (scheduled st));
      by rewrite H.
  - by intros [= <-].
  - unfold AutoExport.changed.
    destruct (AutoExport.changed_events parentID fuel items) as [es|]; simpl; [|done].
    intros [= <-]. revert st. induction es as [|e es IH]; intros st; [done|].
    cbn [foldl]. rewrite IH. unfold AutoExport.on_emitted, AutoExport.schedule.
    destruct e as [ids|ids].
    + by destruct (push_all_scheduler (DB.find_scope collection ids (db st)) st)
        as (_ & -> & _).
    + by destruct (push_all_scheduler (DB.find_scope library ids (db st)) st)
        as (_ & -> & _).
  - intros [= <-]. unfold AutoExport.schedule.
    by destruct (push_all_scheduler (DB.find_scope ty ids (db st)) st) as (_ & -> & _).
  - intros [= <-]. apply remove_fold_run_flag.
  - unfold AutoExport.run. destruct (DB.get k (db st)); simpl; [|done].
    destruct (DB.update _ _); simpl; [|done]. by intros [= <-].
  - intros [= <-]. unfold set_autoExport, preference_changed.
    case_decide; [done|]. by destruct m.
  - intros [= <-]. unfold preference_changed.
    case_decide; [done|]. by destruct (autoExport st).
  - intros [= <-]. unfold idleObserver_observe.
    case_decide; [done|]. by destruct topic.
  - apply engine_step_run_flag.
Qed.

(** X8.  The run queue [scheduled] is resumed when the module is loaded
    (line 96) and nothing pauses it afterwards: in every state the module
    gets into, in every trigger mode and whatever the idle service says,
    it is running.  The trigger mode only gates the debounce queue. *)
Theorem X8_run_queue_never_paused (st : State) (sg : option Topic) :
  reachable st sg → stopped (scheduled st) = false.
Proof.
  induction 1 as [c m b|st sg c st' Hr IH Hstep].
  - pose proof (call_step_run_flag Init (module_load c m b) _ eq_refl) as H.
    simpl in H. rewrite H. unfold module_load. simpl. by case_decide.
  - apply call_step_run_flag in Hstep. congruence.
Qed.

(** ** What [remove] leaves alone *)

Lemma cancel_fold_keep (key : Z) (h : list Task) (ws : list Worker) (r : ref) (t : Task) :
  h !! r = Some t → task_id t ≠ key →
  foldr (λ w h', if decide (task_id <$> h !! w_task w = Some key)
                 then handle_cancel w h' else h') h ws !! r = Some t.
Proof.
  intros Ht Hne. induction ws as [|w ws IH]; [done|]. cbn [foldr].
  set (h1 := foldr _ h ws) in *. clearbody h1.
  case_decide as Hw; [|done]. unfold handle_cancel.
  rewrite list_lookup_alter_ne; [done|]. intros E. rewrite E, Ht in Hw.
  simpl in Hw. congruence.
Qed.

Lemma cancel_fold_length (key : Z) (h h0 : list Task) (ws : list Worker) :
  length (foldr (λ w h', if decide (task_id <$> h0 !! w_task w = Some key)
                         then handle_cancel w h' else h') h ws) = length h.
Proof.
  induction ws as [|w ws IH]; [done|]. cbn [foldr]. case_decide; [|done].
  unfold handle_cancel. by rewrite length_alter.
Qed.

Lemma remove_one_frame (st : State) (ae : Doc) :
  let st' := AutoExport.remove_one st ae in
  (∀ k, tasks (queue_of k st') = filter (λ e, e.1 ≠ loki ae) (tasks (queue_of k st)))
  ∧ (∀ r t, heap st !! r = Some t → task_id t ≠ loki ae → heap st' !! r = Some t)
  ∧ length (heap st') = length (heap st)
  ∧ (∀ k, stopped (queue_of k st') = stopped (queue_of k st))
  ∧ (∀ k, pushes (queue_of k st') = pushes (queue_of k st))
  ∧ (∀ k, finished (queue_of k st') = finished (queue_of k st))
  ∧ autoExport st' = autoExport st ∧ now st' = now st.
Proof.
  cbv zeta. unfold AutoExport.remove_one.
  split; [|split; [|split; [|split; [|split; [|split]]]]].
  - intros k. by destruct k.
  - intros r t Ht Hne. simpl. apply cancel_fold_keep; [|done].
    by apply cancel_fold_keep.
  - simpl. by rewrite !cancel_fold_length.
  - intros k. by destruct k.
  - intros k. by destruct k.
  - intros k. by destruct k.
  - done.
Qed.

(** X9.  [remove] disturbs nothing that belongs to other definitions: in
    both queues the queued entries under other keys stay queued, in their
    order; a task object whose [id] is not the key of a removed definition
    keeps its [cancelled] flag; no task object is added; and the paused
    flags, the push and callback records, the exports made, the trigger
    mode and the workers are as before. *)
Theorem X9_remove_frame (ty : ScopeType) (ids : list Z) (st : State) :
  let st' := AutoExport.remove ty ids st in
  let keys := loki <$> DB.find_scope ty ids (db st) in
  (∀ k, tasks (queue_of k st') = filter (λ e, e.1 ∉ keys) (tasks (queue_of k st)))
  ∧ (∀ r t, heap st !! r = Some t → task_id t ∉ keys → heap st' !! r = Some t)
  ∧ length (heap st') = length (heap st)
  ∧ (∀ k, stopped (queue_of k st') = stopped (queue_of k st))
  ∧ (∀ k, pushes (queue_of k st') = pushes (queue_of k st))
  ∧ (∀ k, finished (queue_of k st') = finished (queue_of k st))
  ∧ (∀ k, workers (queue_of k st') = workers (queue_of k st))
  ∧ translations st' = translations st
  ∧ autoExport st' = autoExport st.
Proof.
  cbv zeta. unfold AutoExport.remove.
  generalize (DB.find_scope ty ids (db st)). intros l.
  destruct (remove_fold l st) as (_ & _ & W & T & _). cbv zeta in W, T.
  assert (∀ st,
    (∀ k, tasks (queue_of k (foldl AutoExport.remove_one st l))
          = filter (λ e, e.1 ∉ loki <$> l) (tasks (queue_of k st)))
    ∧ (∀ r t, heap st !! r = Some t → task_id t ∉ loki <$> l →
              heap (foldl AutoExport.remove_one st l) !! r = Some t)
    ∧ length (heap (foldl AutoExport.remove_one st l)) = length (heap st)
    ∧ (∀ k, stopped (queue_of k (foldl AutoExport.remove_one st l))
            = stopped (queue_of k st))
    ∧ (∀ k, pushes (queue_of k (foldl AutoExport.remove_one st l))
            = pushes (queue_of k st))
    ∧ (∀ k, finished (queue_of k (foldl AutoExport.remove_one st l))
            = finished (queue_of k st))
    ∧ autoExport (foldl AutoExport.remove_one st l) = autoExport st) as H.
  { clear. induction l as [|ae l IH]; intros st.
    - cbn [foldl]. split; [|done]. intros k. symmetry.
      induction (tasks (queue_of k st)) as [|e es IHes]; [done|].
      rewrite filter_cons_True; [by rewrite IHes|]. by intros []%elem_of_nil.
    - cbn [foldl].
      destruct (remove_one_frame st ae) as (A1 & A2 & A3 & A4 & A5 & A6 & A7 & _).
      destruct (IH (AutoExport.remove_one st ae)) as (B1 & B2 & B3 & B4 & B5 & B6 & B7).
      cbv zeta in *. split; [|split; [|split; [|split; [|split; [|split]]]]].
      + intros k. rewrite B1, A1, list_filter_filter. apply list_filter_iff.
        intros e. rewrite fmap_cons, not_elem_of_cons. tauto.
      + intros r t Ht Hn. rewrite fmap_cons, not_elem_of_cons in Hn.
        destruct Hn as [Hne Hn]. apply B2; [|done]. by apply A2.
      + by rewrite B3, A3.
      + intros k. by rewrite B4, A4.
      + intros k. by rewrite B5, A5.
      + intros k. by rewrite B6, A6.
      + by rewrite B7, A7. }
  destruct (H st) as (H1 & H2 & H3 & H4 & H5 & H6 & H7).
  repeat (split; [done|]). done.
Qed.

(** * Properties of the PATH search *)

Section path_search_properties.

Import PathSearch.

Variable isWin : bool.
Variable ENV_get : string → string.
Variable permutater : list (list string) → list string.
Variable FileUtils_File : string → option File.

Variable inherited : string → option string.

Local Abbreviation getEnv := (getEnv isWin ENV_get permutater).
Local Abbreviation getEnv_object := (getEnv_object isWin ENV_get permutater inherited).
Local Abbreviation env_value_object :=
  (env_value_object isWin ENV_get permutater inherited).
Local Abbreviation alias_ok_object := (alias_ok_object ENV_get permutater inherited).
Local Abbreviation env_value := (env_value isWin ENV_get permutater).
Local Abbreviation alias_ok := (alias_ok ENV_get permutater).
Local Abbreviation first_set := (first_set ENV_get).
Local Abbreviation perms := (permutations permutater).
Local Abbreviation replace_refs := (replace_refs isWin ENV_get permutater).
Local Abbreviation replace := (replace isWin ENV_get permutater).
Local Abbreviation expandWinVars := (expandWinVars isWin ENV_get permutater).
Local Abbreviation expand_all := (expand_all isWin ENV_get permutater).
Local Abbreviation try_candidate := (try_candidate FileUtils_File).
Local Abbreviation search_exts := (search_exts FileUtils_File).
Local Abbreviation search_dirs := (search_dirs FileUtils_File).
Local Abbreviation first_hit := (first_hit FileUtils_File).
Local Abbreviation pathSearch := (pathSearch isWin ENV_get permutater FileUtils_File).

(** ** [getEnv] *)

Lemma truthy_true (s : string) : truthy s = true ↔ s ≠ "".
Proof. unfold truthy. by rewrite bool_decide_eq_true. Qed.

Lemma truthy_false (s : string) : truthy s = false ↔ s = "".
Proof.
  unfold truthy. rewrite bool_decide_eq_false. split; [apply dec_stable|auto].
Qed.

Lemma first_set_spec (l : list string) :
  (first_set l = "" ∧ ∀ p, p ∈ l → p ≠ "" → ENV_get p = "")
  ∨ (first_set l ∈ l ∧ ENV_get (first_set l) ≠ "").
Proof.
  induction l as [|p l IH]; simpl.
  - left. split; [done|]. by intros p []%elem_of_nil.
  - destruct (truthy (ENV_get p)) eqn:E.
    + right. split; [by left|]. by apply truthy_true.
    + apply truthy_false in E. destruct IH as [[H1 H2]|[H1 H2]].
      * left. split; [done|]. intros q [->|Hq]%elem_of_cons Hne; [done|]. by apply H2.
      * right. split; [by right|done].
Qed.

Lemma getEnv_ok (variable : string) (alias : gmap string string) :
  alias_ok alias →
  ∃ alias', getEnv variable alias = (env_value variable, alias')
            ∧ alias_ok alias'
            ∧ alias ⊆ alias'.
Proof.
  intros Hok. unfold PathSearch.getEnv, PathSearch.env_value.
  destruct (truthy (ENV_get variable) || negb isWin); [by exists alias|].
  destruct (alias !! variable) as [a|] eqn:E.
  - rewrite E. exists alias. rewrite <- (Hok _ _ E).
    by destruct (truthy a).
  - rewrite lookup_insert_eq. eexists. split; [by destruct (truthy _)|]. split.
    + intros v a. rewrite lookup_insert. case_decide as Hv; [|by apply Hok].
      intros [= <-]. by rewrite <- Hv.
    + by apply insert_subseteq.
Qed.

(** On Windows, for a variable that is not set under the name given (and
    no variable has the empty name), the search of lines 278-284 and what
    comes of it. *)
Lemma getEnv_search (variable : string) (alias : gmap string string) :
  isWin = true → ENV_get variable = "" → ENV_get "" = "" → alias_ok alias →
  ∃ before after alias',
    getEnv variable alias = (env_value variable, alias')
    ∧ ((env_value variable = "" ∧ ∀ p, p ∈ perms variable → ENV_get p = "")
       ∨ (∃ p, perms variable = before ++ p :: after
               ∧ env_value variable = ENV_get p
               ∧ ENV_get p ≠ ""
               ∧ alias' !! variable = Some p
               ∧ ∀ q, q ∈ before → ENV_get q = "")).
Proof.
  intros Hwin Hunset Hempty Hok.
  destruct (getEnv_ok variable alias Hok) as (alias' & H1 & H2 & H3).
  assert (alias' !! variable = Some (first_set (perms variable))) as Hcache.
  { revert H1. unfold PathSearch.getEnv. rewrite Hwin, Hunset. simpl.
    destruct (alias !! variable) as [a|] eqn:E.
    - rewrite E. intros H. assert (alias' = alias) as ->
        by (destruct (truthy _); apply (f_equal snd) in H; simpl in H; congruence).
      rewrite E. f_equal. by apply Hok.
    - rewrite lookup_insert_eq. intros H.
      assert (alias' = <[variable := first_set (perms variable)]> alias) as ->
        by (destruct (truthy _); apply (f_equal snd) in H; simpl in H; congruence).
      by rewrite lookup_insert_eq. }
  assert (env_value variable
          = if truthy (first_set (perms variable))
            then ENV_get (first_set (perms variable)) else "") as Hv.
  { unfold PathSearch.env_value. by rewrite Hwin, Hunset. }
  assert (∀ l : list string,
            (first_set l = "" ∧ ∀ p, p ∈ l → ENV_get p = "")
            ∨ ∃ before p after, l = before ++ p :: after ∧ first_set l = p
                                ∧ ENV_get p ≠ "" ∧ ∀ q, q ∈ before → ENV_get q = "")
    as Hfirst.
  { clear -Hempty. induction l as [|p l IH]; simpl.
    - left. split; [done|]. by intros p []%elem_of_nil.
    - destruct (truthy (ENV_get p)) eqn:E.
      + right. exists [], p, l. split; [done|]. split; [done|].
        split; [by apply truthy_true|]. by intros q []%elem_of_nil.
      + apply truthy_false in E. destruct IH as [[H1 H2]|(b & q & a & -> & H1 & H2 & H3)].
        * left. split; [done|]. intros q [->|Hq]%elem_of_cons; [done|]. by apply H2.
        * right. exists (p :: b), q, a. split; [done|]. split; [done|]. split; [done|].
          intros r [->|Hr]%elem_of_cons; [done|]. by apply H3. }
  destruct (Hfirst (perms variable)) as [[F1 F2]|(b & p & a & F1 & F2 & F3 & F4)].
  - exists [], [], alias'. split; [done|]. left. split; [|done].
    rewrite Hv, F1. done.
  - exists b, a, alias'. split; [done|]. right. exists p. split; [done|].
    assert (p ≠ "") as Hp by (intros ->; congruence).
    rewrite Hv, F2. apply truthy_true in Hp. rewrite Hp.
    split; [done|]. split; [done|]. split; [by rewrite Hcache, F2|done].
Qed.

(** *** With the cache as the plain object it is *)

Lemma alias_ok_object_ok (alias : gmap string string) :
  alias_ok_object alias → alias_ok alias.
Proof. intros Hok v a Hv. by destruct (Hok v a Hv). Qed.

(** On a name that is not inherited the two readings of the cache agree. *)
Lemma getEnv_object_agree (variable : string) (alias : gmap string string) :
  inherited variable = None → getEnv_object variable alias = getEnv variable alias.
Proof.
  intros Hn. unfold PathSearch.getEnv_object, PathSearch.getEnv, alias_member.
  destruct (truthy (ENV_get variable) || negb isWin); [done|].
  destruct (alias !! variable) as [a|] eqn:E.
  - by rewrite E.
  - by rewrite Hn, !lookup_insert_eq.
Qed.

Lemma env_value_object_agree (variable : string) :
  inherited variable = None → env_value_object variable = env_value variable.
Proof. intros Hn. unfold PathSearch.env_value_object, PathSearch.env_value. by rewrite Hn. Qed.

Lemma getEnv_object_ok (variable : string) (alias : gmap string string) :
  alias_ok_object alias →
  ∃ alias',
    getEnv_object variable alias = (env_value_object variable, alias')
    ∧ alias_ok_object alias'
    ∧ alias ⊆ alias'
    ∧ (isWin = false ∨ ENV_get variable ≠ "" ∨ is_Some (inherited variable)
       ∨ is_Some (alias !! variable) → alias' = alias)
    ∧ (isWin = true → ENV_get variable = "" → inherited variable = None →
       is_Some (alias' !! variable)).
Proof.
  intros Hok.
  unfold PathSearch.getEnv_object, PathSearch.env_value_object, alias_member.
  destruct (truthy (ENV_get variable) || negb isWin) eqn:Hfast.
  { exists alias. split; [done|]. split; [done|]. split; [done|]. split; [done|].
    intros -> Hunset. rewrite Hunset in Hfast. done. }
  assert (isWin = true ∧ ENV_get variable = "") as [Hwin Hunset].
  { apply orb_false_iff in Hfast as [Ht Hw]. apply negb_false_iff in Hw.
    split; [done|]. by apply truthy_false. }
  destruct (alias !! variable) as [a|] eqn:E.
  - destruct (Hok _ _ E) as [Hn Ha]. rewrite E, Hn, <- Ha. exists alias.
    split; [by destruct (truthy a)|]. split; [done|]. split; [done|].
    split; [done|]. intros _ _ _. by rewrite E.
  - destruct (inherited variable) as [text|] eqn:Hn.
    + exists alias. split; [by rewrite E|]. split; [done|]. split; [done|].
      split; done.
    + rewrite !lookup_insert_eq. eexists.
      split; [by destruct (truthy (first_set _))|]. split; [|split; [|split]].
      * intros v a. rewrite lookup_insert. case_decide as Hv; [|by apply Hok].
        intros [= <-]. by rewrite <- Hv.
      * by apply insert_subseteq.
      * intros [Hc|[Hc|[[? Hc]|[? Hc]]]]; congruence.
      * intros _ _ _. by rewrite lookup_insert_eq.
Qed.

(** X10.  The cache never changes an answer, for any name, inherited or
    not: as long as its entries come from [getEnv] itself (as they do from
    the empty cache on), [getEnv] returns for a variable what the
    environment holds for it, whatever was asked before; it only adds to
    the cache, asking again changes nothing more, and nothing is ever
    stored for a variable that is set, off Windows, or under the name of a
    member that every object inherits. *)
Theorem X10_getEnv_cache_transparent (variable : string) (alias : gmap string string) :
  alias_ok_object alias →
  ∃ alias',
    getEnv_object variable alias = (env_value_object variable, alias')
    ∧ alias_ok_object alias'
    ∧ alias ⊆ alias'
    ∧ getEnv_object variable alias' = (env_value_object variable, alias')
    ∧ (isWin = false ∨ ENV_get variable ≠ "" ∨ is_Some (inherited variable) →
       alias' = alias).
Proof.
  intros Hok.
  destruct (getEnv_object_ok variable alias Hok) as (alias' & H1 & H2 & H3 & H4 & H5).
  exists alias'. split; [done|]. split; [done|]. split; [done|]. split.
  - destruct (getEnv_object_ok variable alias' H2) as (alias'' & G1 & _ & _ & G4 & _).
    rewrite G1. f_equal. apply G4.
    destruct (decide (isWin = true)) as [Hwin|Hwin%not_true_is_false]; [|by left].
    destruct (decide (ENV_get variable = "")) as [Hunset|Hset]; [|by right; left].
    destruct (inherited variable) as [text|] eqn:Hn; [by right; right; left|].
    right. right. right. by apply H5.
  - intros [Hc|[Hc|Hc]]; apply H4; auto.
Qed.

(** X11.  On Windows, for a variable that is not set under the name given
    (and no variable has the empty name).  When the name is that of a
    member every object inherits, no other spelling is tried and nothing
    is stored: [getEnv] returns what the environment holds under the text
    of that member.  For every other name it falls back on the other
    spellings: it returns the value of the first spelling, in the order
    [permutater] lists them, that is set, and the empty string exactly
    when none is. *)
Theorem X11_getEnv_fallback (variable : string) (alias : gmap string string) :
  isWin = true → ENV_get variable = "" → ENV_get "" = "" → alias_ok_object alias →
  match inherited variable with
  | Some text => getEnv_object variable alias = (ENV_get text, alias)
  | None =>
      ∃ before after alias',
        getEnv_object variable alias = (env_value_object variable, alias')
        ∧ ((env_value_object variable = ""
            ∧ ∀ p, p ∈ perms variable → ENV_get p = "")
           ∨ (∃ p, perms variable = before ++ p :: after
                   ∧ env_value_object variable = ENV_get p
                   ∧ ENV_get p ≠ ""
                   ∧ alias' !! variable = Some p
                   ∧ ∀ q, q ∈ before → ENV_get q = ""))
  end.
Proof.
  intros Hwin Hunset Hempty Hok.
  destruct (inherited variable) as [text|] eqn:Hn.
  - unfold PathSearch.getEnv_object, alias_member. rewrite Hwin at 1.
    rewrite Hunset. simpl.
    destruct (alias !! variable) as [a|] eqn:E.
    + destruct (Hok _ _ E) as [Hn' _]. congruence.
    + rewrite Hn. cbv iota. by rewrite E.
  - rewrite getEnv_object_agree, env_value_object_agree by done.
    apply getEnv_search; [done..|]. by apply alias_ok_object_ok.
Qed.

(** ** The pattern of [expandWinVars] *)

Lemma var_char_percent : var_char "%" = false.
Proof. reflexivity. Qed.

Lemma is_name_count (s : string) : is_name s = true → count_percent s = 0%nat.
Proof.
  induction s as [|c s IH]; [done|]. simpl. intros [Hc Hs]%andb_true_iff.
  rewrite IH by done. case_decide as E; [|done]. rewrite E in Hc. done.
Qed.

Lemma count_percent_app (s1 s2 : string) :
  count_percent (s1 +:+ s2) = (count_percent s1 + count_percent s2)%nat.
Proof. induction s1 as [|c s1 IH]; [done|]. simpl. rewrite IH. lia. Qed.

Lemma length_app_string (s1 s2 : string) :
  String.length (s1 +:+ s2) = (String.length s1 + String.length s2)%nat.
Proof. induction s1 as [|c s1 IH]; [done|]. simpl. by rewrite IH. Qed.

Lemma span_name_spec (s p r : string) :
  span_name s = (p, r) →
  s = p +:+ r ∧ is_name p = true
  ∧ match r with String c _ => var_char c = false | EmptyString => True end.
Proof.
  revert p r. induction s as [|c s IH]; intros p r; simpl.
  - by intros [= <- <-].
  - destruct (var_char c) eqn:E.
    + destruct (span_name s) as [p' r'] eqn:Hs. intros [= <- <-].
      destruct (IH p' r' eq_refl) as (-> & Hp & Hr). simpl. by rewrite E.
    + intros [= <- <-]. by rewrite E.
Qed.

Lemma span_name_name (name rest : string) :
  is_name name = true →
  match rest with String c _ => var_char c = false | EmptyString => True end →
  span_name (name +:+ rest) = (name, rest).
Proof.
  intros Hn Hr. induction name as [|c name IH]; simpl.
  - destruct rest as [|c r]; [done|]. simpl. by rewrite Hr.
  - simpl in Hn. apply andb_true_iff in Hn as [Hc Hn]. by rewrite Hc, IH.
Qed.

Lemma match_ref_Some (s name rest : string) :
  match_ref s = Some (name, rest) →
  s = String "%" (name +:+ String "%" rest)
  ∧ is_name name = true ∧ name ≠ "".
Proof.
  unfold match_ref. destruct s as [|c s]; [done|].
  case_decide as Hc; [|done]. subst c.
  destruct (span_name s) as [p r] eqn:Hs.
  destruct p as [|n p]; [done|]. destruct r as [|c' r]; [done|].
  case_decide as Hc'; [|done]. subst c'. intros [= <- <-].
  destruct (span_name_spec _ _ _ Hs) as (-> & Hp & _). done.
Qed.

Lemma match_ref_name (name rest : string) :
  is_name name = true → name ≠ "" →
  match_ref (String "%" (name +:+ String "%" rest)) = Some (name, rest).
Proof.
  intros Hn Hne. unfold match_ref. rewrite decide_True by done.
  rewrite span_name_name by done. destruct name as [|n name]; [done|].
  by rewrite decide_True.
Qed.

Lemma has_ref_cons (c : ascii) (s : string) :
  has_ref (String c s) = false → has_ref s = false.
Proof.
  cbn [has_ref]. destruct (match_ref (String c s)); [done|]. done.
Qed.

Lemma has_ref_match (s : string) : has_ref s = false → match_ref s = None.
Proof. destruct s; cbn [has_ref]; by destruct (match_ref _). Qed.

(** Fewer than two [%]: no reference. *)
Lemma has_ref_count (s : string) : (count_percent s < 2)%nat → has_ref s = false.
Proof.
  induction s as [|c s IH]; [done|]. intros Hc. cbn [has_ref].
  destruct (match_ref (String c s)) as [[name rest]|] eqn:E.
  - apply match_ref_Some in E as (E & _). rewrite E in Hc. simpl in Hc.
    rewrite count_percent_app in Hc. simpl in Hc. lia.
  - apply IH. simpl in Hc. lia.
Qed.

(** On a string without a reference a replacement changes nothing and
    calls nothing. *)
Lemma replace_refs_none (fuel : nat) (s : string) (alias : gmap string string) :
  has_ref s = false → replace_refs fuel s alias = (s, alias, false).
Proof.
  revert s. induction fuel as [|n IH]; intros s Hs; [done|]. simpl.
  rewrite (has_ref_match s Hs). destruct s as [|c s]; [done|].
  by rewrite (IH s (has_ref_cons _ _ Hs)).
Qed.

Lemma getEnv_value (variable : string) (alias : gmap string string) :
  (getEnv variable alias).1 = "" ∨ ∃ name, (getEnv variable alias).1 = ENV_get name.
Proof.
  unfold PathSearch.getEnv.
  destruct (truthy (ENV_get variable) || negb isWin); [right; by eexists|].
  destruct (_ !! variable) as [a|]; [|by left].
  destruct (truthy a); [right; by eexists|by left].
Qed.

(** One replacement, when no value in the environment holds a [%]: the
    flag tells whether there was a reference, and each replaced reference
    takes two [%] away. *)
Lemma replace_refs_count (fuel : nat) (s : string) (alias : gmap string string) :
  (∀ name, count_percent (ENV_get name) = 0%nat) →
  (String.length s < fuel)%nat →
  ∃ out alias',
    replace_refs fuel s alias = (out, alias', has_ref s)
    ∧ (count_percent out + (if has_ref s then 2 else 0) ≤ count_percent s)%nat.
Proof.
  intros Henv. revert s alias. induction fuel as [|n IH]; intros s alias Hlen; [lia|].
  cbn [PathSearch.replace_refs].
  destruct (match_ref s) as [[name rest]|] eqn:E.
  - assert (has_ref s = true) as -> by (destruct s; cbn [has_ref]; by rewrite E).
    apply match_ref_Some in E as (-> & Hn & _).
    destruct (getEnv name alias) as [v alias1] eqn:Hv.
    destruct (IH rest alias1) as (out & alias2 & Hr & Hc).
    { simpl in Hlen. rewrite length_app_string in Hlen. simpl in Hlen. lia. }
    rewrite Hr. exists (v +:+ out), alias2. split; [done|].
    assert (count_percent v = 0%nat) as Hv0.
    { destruct (getEnv_value name alias) as [H|[x H]]; rewrite Hv in H; simpl in H;
        rewrite H; [done|apply Henv]. }
    rewrite count_percent_app, Hv0. simpl. rewrite count_percent_app. simpl.
    rewrite (is_name_count name Hn). destruct (has_ref rest); lia.
  - destruct s as [|c s]; [by exists "", alias|].
    assert (has_ref (String c s) = has_ref s) as ->
      by (cbn [has_ref]; by rewrite E).
    destruct (IH s alias) as (out & alias1 & Hr & Hc); [simpl in Hlen; lia|].
    rewrite Hr. exists (String c out), alias1. split; [done|]. simpl.
    destruct (has_ref s); lia.
Qed.

(** ** [expandWinVars] *)

Lemma expand_none (fuel : nat) (value : string) (alias : gmap string string) :
  has_ref value = false → expandWinVars (S fuel) value alias = Some (value, alias).
Proof.
  intros H. cbn [PathSearch.expandWinVars]. unfold PathSearch.replace.
  by rewrite replace_refs_none.
Qed.

(** X12.  A value without a reference of the form [%NAME%] (one with fewer
    than two [%], for a start) comes back from [expandWinVars] as it is,
    after one round, and neither the environment nor the cache is
    consulted. *)
Theorem X12_expand_without_reference (fuel : nat) (value : string)
    (alias : gmap string string) :
  (count_percent value < 2)%nat ∨ has_ref value = false →
  expandWinVars (S fuel) value alias = Some (value, alias)
  ∧ replace value alias = (value, alias, false).
Proof.
  intros H. assert (has_ref value = false) as Hr.
  { destruct H as [H|H]; [by apply has_ref_count|done]. }
  split; [by apply expand_none|]. unfold PathSearch.replace.
  by apply replace_refs_none.
Qed.

Lemma span_name_stop (name tail : string) :
  is_name name = false → count_percent name = 0%nat →
  ∃ p c r, span_name (name +:+ tail) = (p, String c r) ∧ c ≠ "%"%char.
Proof.
  induction name as [|c name IH]; [done|]. simpl. intros Hn Hc.
  destruct (decide (c = "%"%char)) as [->|Hne]; [done|].
  destruct (var_char c) eqn:E.
  - simpl in Hn. destruct (IH Hn Hc) as (p & c' & r & Hs & Hc').
    rewrite Hs. by exists (String c p), c', r.
  - by exists "", c, (name +:+ tail).
Qed.

(** X13.  The pattern's character class is [[A-Zaz]]: a reference whose
    name holds any other character, a small letter other than [a] and [z]
    say, is not a reference to [expandWinVars], which returns it
    unexpanded whatever the environment holds. *)
Theorem X13_expand_skips_other_names (fuel : nat) (name : string)
    (alias : gmap string string) :
  is_name name = false → count_percent name = 0%nat →
  expandWinVars (S fuel) ("%" +:+ name +:+ "%") alias
  = Some ("%" +:+ name +:+ "%", alias).
Proof.
  intros Hn Hc. apply expand_none.
  change ("%" +:+ name +:+ "%") with (String "%" (name +:+ "%")).
  cbn [has_ref].
  assert (match_ref (String "%" (name +:+ "%")) = None) as ->.
  { unfold match_ref. rewrite decide_True by done.
    destruct (span_name_stop name "%" Hn Hc) as (p & c & r & -> & Hne).
    destruct p; [done|]. by rewrite decide_False. }
  apply has_ref_count. rewrite count_percent_app, Hc. simpl. lia.
Qed.

(** X14.  When no value in the environment holds a [%], [expandWinVars]
    ends: each round but the last removes at least two [%], so half the
    number of [%] in the value, plus one, bounds the rounds; what it
    returns has no reference left. *)
Theorem X14_expand_terminates (fuel : nat) (value : string) (alias : gmap string string) :
  (∀ name, count_percent (ENV_get name) = 0%nat) →
  (count_percent value < 2 * fuel)%nat →
  ∃ value' alias',
    expandWinVars fuel value alias = Some (value', alias')
    ∧ has_ref value' = false
    ∧ (count_percent value' ≤ count_percent value)%nat.
Proof.
  intros Henv. revert value alias. induction fuel as [|n IH]; intros value alias Hc; [lia|].
  cbn [PathSearch.expandWinVars]. unfold PathSearch.replace.
  destruct (replace_refs_count (S (String.length value)) value alias Henv)
    as (out & alias1 & Hr & Hcount); [lia|].
  rewrite Hr. destruct (has_ref value) eqn:Hh.
  - destruct (IH out alias1) as (v' & a' & H1 & H2 & H3); [lia|].
    exists v', a'. split; [done|]. split; [done|]. lia.
  - rewrite replace_refs_none in Hr by done. injection Hr as <- <-.
    exists value, alias. done.
Qed.

Lemma append_empty_r (s : string) : s +:+ "" = s.
Proof.
  induction s as [|c s IH]; [done|].
  change (String c (s +:+ "") = String c s). by rewrite IH.
Qed.

Lemma replace_self (name : string) (alias : gmap string string) :
  is_name name = true → name ≠ "" →
  ENV_get name = "%" +:+ name +:+ "%" →
  replace ("%" +:+ name +:+ "%") alias = ("%" +:+ name +:+ "%", alias, true).
Proof.
  intros Hn Hne Henv. unfold PathSearch.replace.
  change ("%" +:+ name +:+ "%") with (String "%" (name +:+ String "%" "")).
  cbn [PathSearch.replace_refs]. rewrite match_ref_name by done.
  assert (getEnv name alias = (String "%" (name +:+ String "%" ""), alias)) as ->.
  { unfold PathSearch.getEnv. rewrite Henv. done. }
  assert (∀ k, replace_refs k "" alias = ("", alias, false)) as -> by (by intros []).
  by rewrite append_empty_r.
Qed.

(** X15.  A variable whose value refers to the variable itself makes
    [expandWinVars] replace without end: for a name [N] with
    [ENV.get(N) = "%N%"], no number of rounds finishes the expansion of
    ["%N%"]; and on Windows a [PATH] that is ["%PATH%"] keeps
    [pathSearch] from ever returning. *)
Theorem X15_expand_self_reference (name : string) (fuel : nat) (bin : string)
    (alias : gmap string string) :
  is_name name = true → name ≠ "" →
  ENV_get name = "%" +:+ name +:+ "%" →
  expandWinVars fuel ("%" +:+ name +:+ "%") alias = None
  ∧ (isWin = true → name = "PATH" → pathSearch fuel bin alias = None).
Proof.
  intros Hn Hne Henv.
  assert (∀ fuel, expandWinVars fuel ("%" +:+ name +:+ "%") alias = None) as Hloop.
  { clear fuel. induction fuel as [|n IH]; [done|].
    cbn [PathSearch.expandWinVars]. by rewrite replace_self. }
  split; [apply Hloop|]. intros Hwin ->. unfold PathSearch.pathSearch.
  rewrite Hwin at 1.
  assert (getEnv "PATH" alias = ("%PATH%", alias)) as ->.
  { unfold PathSearch.getEnv. rewrite Henv. done. }
  change (filter _ (split ";" "%PATH%")) with ["%PATH%"].
  cbn [PathSearch.expand_all]. change "%PATH%" with ("%" +:+ "PATH" +:+ "%").
  by rewrite Hloop.
Qed.

(** ** The search *)

Lemma first_hit_nil (found : string) : ¬ first_hit [] found.
Proof. intros (b & n & a & E & _). by destruct b. Qed.

Lemma first_hit_cons (n : string) (l : list string) (found : string) :
  first_hit (n :: l) found
  ↔ try_candidate n = Some found ∨ (try_candidate n = None ∧ first_hit l found).
Proof.
  split.
  - intros (b & m & a & E & Hm & Hb). destruct b as [|b0 b].
    + injection E as <- <-. by left.
    + injection E as <- ->. right. split; [apply Hb; by left|].
      exists b, m, a. split; [done|]. split; [done|]. intros q Hq. apply Hb. by right.
  - intros [H|[H (b & m & a & -> & Hm & Hb)]].
    + exists [], n, l. split; [done|]. split; [done|]. by intros q []%elem_of_nil.
    + exists (n :: b), m, a. split; [done|]. split; [done|].
      intros q [->|Hq]%elem_of_cons; [done|]. by apply Hb.
Qed.

Lemma first_hit_app (l1 l2 : list string) (found : string) :
  first_hit (l1 ++ l2) found
  ↔ first_hit l1 found
    ∨ ((∀ n, n ∈ l1 → try_candidate n = None) ∧ first_hit l2 found).
Proof.
  induction l1 as [|n l1 IH]; simpl.
  - split; [intros H; right; split; [by intros n []%elem_of_nil|done]|].
    intros [H|[_ H]]; [by apply first_hit_nil in H|done].
  - rewrite !first_hit_cons, IH. split.
    + intros [H|[Hn [H|[Hl H]]]]; [left; by left|left; right; done|right].
      split; [|done]. intros q [->|Hq]%elem_of_cons; [done|]. by apply Hl.
    + intros [[H|[Hn H]]|[Hl H]]; [by left|right; split; [done|by left]|].
      right. split; [apply Hl; by left|]. right. split; [|done].
      intros q Hq. apply Hl. by right.
Qed.

Lemma candidates_cons (dir : string) (dirs : list string) (sep bin : string)
    (exts : list string) :
  candidates (dir :: dirs) sep bin exts
  = candidates [dir] sep bin exts ++ candidates dirs sep bin exts.
Proof. unfold candidates. simpl. by rewrite app_nil_r. Qed.

Lemma search_exts_spec (dir sep bin : string) (exts : list string) :
  (∀ found, search_exts dir sep bin exts = Some found
            ↔ first_hit (candidates [dir] sep bin exts) found)
  ∧ (search_exts dir sep bin exts = None
     ↔ ∀ n, n ∈ candidates [dir] sep bin exts → try_candidate n = None).
Proof.
  induction exts as [|e exts [IH1 IH2]].
  - split.
    + intros found. split; [done|]. intros H. by apply first_hit_nil in H.
    + split; [by intros _ n []%elem_of_nil|done].
  - assert (candidates [dir] sep bin (e :: exts)
            = (dir +:+ sep +:+ bin +:+ e) :: candidates [dir] sep bin exts) as ->
      by done.
    cbn [PathSearch.search_exts].
    destruct (try_candidate (dir +:+ sep +:+ bin +:+ e)) as [f|] eqn:E; split.
    + intros found. rewrite first_hit_cons, E. split; [by left|].
      intros [H|[H _]]; done.
    + split; [done|]. intros H. rewrite (H _ (list_elem_of_here _ _)) in E. done.
    + intros found. rewrite first_hit_cons, E, IH1. split; [by right|].
      intros [H|[_ H]]; done.
    + rewrite IH2. split.
      * intros H n [->|Hn]%elem_of_cons; [done|]. by apply H.
      * intros H n Hn. apply H. by right.
Qed.

Lemma search_dirs_spec (dirs : list string) (sep bin : string) (exts : list string) :
  (∀ found, search_dirs dirs sep bin exts = Some found
            ↔ first_hit (candidates dirs sep bin exts) found)
  ∧ (search_dirs dirs sep bin exts = None
     ↔ ∀ n, n ∈ candidates dirs sep bin exts → try_candidate n = None).
Proof.
  induction dirs as [|dir dirs [IH1 IH2]].
  - split.
    + intros found. split; [done|]. intros H. by apply first_hit_nil in H.
    + split; [by intros _ n []%elem_of_nil|done].
  - rewrite candidates_cons. cbn [PathSearch.search_dirs].
    destruct (search_exts_spec dir sep bin exts) as [E1 E2].
    destruct (search_exts dir sep bin exts) as [f|] eqn:E; split.
    + intros found. rewrite first_hit_app. split.
      * intros [= <-]. left. by apply E1.
      * intros [H|[Hn H]]; [apply E1 in H; congruence|].
        apply E2 in Hn. done.
    + split; [done|]. intros H.
      assert (first_hit (candidates [dir] sep bin exts) f) as (b & n & a & Hc & Hn & _)
        by (by apply E1).
      rewrite H in Hn; [done|]. apply elem_of_app. left. rewrite Hc.
      apply elem_of_app. right. by left.
    + intros found. rewrite first_hit_app, IH1. split.
      * intros H. right. split; [by apply E2|done].
      * intros [H|[_ H]]; [apply E1 in H; congruence|done].
    + rewrite IH2. split.
      * intros H n [Hn|Hn]%elem_of_app; [by apply E2|by apply H].
      * intros H n Hn. apply H, elem_of_app. by right.
Qed.

Lemma candidates_elem (dirs : list string) (sep bin : string) (exts : list string)
    (n : string) :
  n ∈ candidates dirs sep bin exts
  ↔ ∃ dir ext, dir ∈ dirs ∧ ext ∈ exts ∧ n = dir +:+ sep +:+ bin +:+ ext.
Proof.
  unfold candidates. rewrite list_elem_of_bind. split.
  - intros (dir & (ext & ->%list_elem_of_singleton & He)%list_elem_of_bind & Hd).
    eauto.
  - intros (dir & ext & Hd & He & ->). exists dir. split; [|done].
    apply list_elem_of_bind. exists ext. split; [by apply list_elem_of_singleton|done].
Qed.

Lemma try_candidate_Some (n found : string) :
  try_candidate n = Some found
  ↔ ∃ cmd, FileUtils_File n = Some cmd
           ∧ file_exists cmd = Some true
           ∧ file_isFile cmd = Some true
           ∧ file_isExecutable cmd = Some true
           ∧ found = file_path cmd.
Proof.
  unfold PathSearch.try_candidate, is_command. split.
  - destruct (FileUtils_File n) as [cmd|]; [|done].
    destruct (file_exists cmd) as [[]|] eqn:E1; try done.
    destruct (file_isFile cmd) as [[]|] eqn:E2; try done.
    destruct (file_isExecutable cmd) as [[]|] eqn:E3; try done.
    intros [= <-]. by exists cmd.
  - intros (cmd & -> & -> & -> & -> & ->). done.
Qed.

(** X16.  The two loops of [pathSearch] return the path of the first name
    that passes, trying for each directory in turn each extension in
    turn: a name passes when its file object can be made and says, without
    throwing, that it exists, is a file and is executable; a name that
    throws anywhere is skipped like one that fails a test, and the search
    goes on.  They return nothing exactly when no name passes. *)
Theorem X16_search_first_hit (dirs : list string) (sep bin : string) (exts : list string) :
  (∀ found, search_dirs dirs sep bin exts = Some found
            ↔ ∃ before name after cmd,
                candidates dirs sep bin exts = before ++ name :: after
                ∧ FileUtils_File name = Some cmd
                ∧ file_exists cmd = Some true
                ∧ file_isFile cmd = Some true
                ∧ file_isExecutable cmd = Some true
                ∧ found = file_path cmd
                ∧ ∀ n, n ∈ before → try_candidate n = None)
  ∧ (search_dirs dirs sep bin exts = None
     ↔ ∀ n, n ∈ candidates dirs sep bin exts → try_candidate n = None)
  ∧ (∀ n, n ∈ candidates dirs sep bin exts
          ↔ ∃ dir ext, dir ∈ dirs ∧ ext ∈ exts ∧ n = dir +:+ sep +:+ bin +:+ ext)
  ∧ (∀ dir dirs' ext exts',
       candidates (dir :: dirs') sep bin (ext :: exts')
       = (dir +:+ sep +:+ bin +:+ ext)
           :: candidates [dir] sep bin exts' ++ candidates dirs' sep bin (ext :: exts')).
Proof.
  destruct (search_dirs_spec dirs sep bin exts) as [H1 H2].
  split; [|split; [done|split; [apply candidates_elem|]]].
  - intros found. rewrite H1. split.
    + intros (b & n & a & E & Hn & Hb).
      apply try_candidate_Some in Hn as (cmd & ? & ? & ? & ? & ?).
      exists b, n, a, cmd. done.
    + intros (b & n & a & cmd & E & ? & ? & ? & ? & ? & Hb).
      exists b, n, a. split; [done|]. split; [|done].
      apply try_candidate_Some. by exists cmd.
  - intros dir dirs' ext exts'. by rewrite candidates_cons.
Qed.

(** ** [pathSearch] *)

Lemma candidates_no_ext (dirs : list string) (sep bin : string) :
  candidates dirs sep bin [""] = (λ dir, dir +:+ sep +:+ bin) <$> dirs.
Proof.
  induction dirs as [|dir dirs IH]; [done|].
  rewrite candidates_cons, IH, fmap_cons.
  change (candidates [dir] sep bin [""]) with [dir +:+ sep +:+ bin +:+ ""].
  by rewrite append_empty_r.
Qed.

Lemma split_count (sep : ascii) (s p : string) :
  p ∈ split sep s → (count_percent p ≤ count_percent s)%nat.
Proof.
  revert p. induction s as [|c s IH]; intros p; simpl.
  - intros ->%list_elem_of_singleton. done.
  - case_decide as E.
    + intros [->|Hp]%elem_of_cons; [simpl; lia|]. apply IH in Hp. lia.
    + destruct (split sep s) as [|q qs] eqn:Hs.
      * intros ->%list_elem_of_singleton. simpl. lia.
      * intros [->|Hp]%elem_of_cons.
        -- assert (count_percent q ≤ count_percent s)%nat by (apply IH; by left).
           simpl. lia.
        -- assert (count_percent p ≤ count_percent s)%nat by (apply IH; by right).
           lia.
Qed.

Lemma truthy_or_empty (s : string) : (if truthy s then s else "") = s.
Proof. destruct (truthy s) eqn:E; [done|]. by apply truthy_false in E. Qed.

Lemma length_zero_nil {A : Type} (l : list A) : length l = 0%nat ↔ l = [].
Proof. by destruct l. Qed.

(** X17.  Off Windows, [pathSearch] looks for [dir/bin] in each non-empty,
    colon-separated component [dir] of [PATH], in order, and returns the
    path of the first that exists, is a file and is executable, or [null]
    when there is none: in particular when [PATH] is not set.  It always
    returns, expands nothing and leaves the cache alone. *)
Theorem X17_pathSearch_unix (fuel : nat) (bin : string) (alias : gmap string string) :
  isWin = false →
  let dirs := filter (λ p, truthy p = true) (split ":" (ENV_get "PATH")) in
  ∃ r,
    pathSearch fuel bin alias = Some (r, alias)
    ∧ (∀ found, r = Some found
                ↔ first_hit ((λ dir, dir +:+ "/" +:+ bin) <$> dirs) found)
    ∧ (r = None ↔ ∀ dir, dir ∈ dirs → try_candidate (dir +:+ "/" +:+ bin) = None)
    ∧ (∀ dir, dir ∈ dirs ↔ dir ≠ "" ∧ dir ∈ split ":" (ENV_get "PATH"))
    ∧ (ENV_get "PATH" = "" → r = None).
Proof.
  intros Hwin dirs.
  destruct (search_dirs_spec dirs "/" bin [""]) as [H1 H2].
  rewrite candidates_no_ext in H1, H2.
  assert (∀ dir, dir ∈ dirs ↔ dir ≠ "" ∧ dir ∈ split ":" (ENV_get "PATH")) as Hd.
  { intros dir. unfold dirs. by rewrite list_elem_of_filter, truthy_true. }
  assert (pathSearch fuel bin alias = Some (search_dirs dirs "/" bin [""], alias)) as Hp.
  { unfold PathSearch.pathSearch. rewrite Hwin at 1. cbv zeta.
    rewrite truthy_or_empty. fold dirs. case_decide as E; [|done].
    apply length_zero_nil in E. by rewrite E. }
  exists (search_dirs dirs "/" bin [""]). split; [done|]. split; [done|]. split.
  - rewrite H2. split.
    + intros H dir Hdir. apply H. apply list_elem_of_fmap. by exists dir.
    + intros H n (dir & -> & Hdir)%list_elem_of_fmap. by apply H.
  - split; [done|]. intros Hunset. apply H2.
    intros n (dir & -> & [Hne Hdir]%Hd)%list_elem_of_fmap.
    rewrite Hunset in Hdir. simpl in Hdir. by apply list_elem_of_singleton in Hdir.
Qed.

Lemma expand_all_plain (fuel : nat) (paths : list string) (alias : gmap string string) :
  (∀ p, p ∈ paths → (count_percent p < 2)%nat) →
  expand_all (S fuel) paths alias = Some (paths, alias).
Proof.
  induction paths as [|p paths IH]; intros H; [done|].
  cbn [PathSearch.expand_all].
  rewrite expand_none by (apply has_ref_count, H; by left).
  cbn [mbind option_bind]. rewrite IH by (intros q Hq; apply H; by right). done.
Qed.

(** X18.  On Windows, with a [PATH] that holds no [%], [pathSearch] looks
    for [dir\bin.ext] in each non-empty, semicolon-separated component
    [dir] of [PATH] and, within a directory, for each entry [.ext] of
    [PATHEXT] that starts with a dot and is longer than the dot, in order;
    it returns the first that passes, and [null] when [PATHEXT] has no
    such entry or [PATH] no component, without looking at any file. *)
Theorem X18_pathSearch_windows (fuel : nat) (bin : string) (alias : gmap string string) :
  isWin = true → alias_ok alias →
  count_percent (env_value "PATH") = 0%nat →
  let dirs := filter (λ p, truthy p = true) (split ";" (env_value "PATH")) in
  let exts := filter (λ pe, is_pathext pe = true) (split ";" (env_value "PATHEXT")) in
  ∃ r alias',
    pathSearch (S fuel) bin alias = Some (r, alias')
    ∧ alias_ok alias'
    ∧ (∀ found, r = Some found ↔ first_hit (candidates dirs "\" bin exts) found)
    ∧ (r = None ↔ ∀ dir ext, dir ∈ dirs → ext ∈ exts →
                             try_candidate (dir +:+ "\" +:+ bin +:+ ext) = None)
    ∧ (∀ ext, ext ∈ exts
              ↔ ext ∈ split ";" (env_value "PATHEXT")
                ∧ ∃ c rest, ext = String "." (String c rest)).
Proof.
  intros Hwin Hok Hpath dirs exts.
  destruct (getEnv_ok "PATH" alias Hok) as (alias1 & G1 & Hok1 & _).
  destruct (getEnv_ok "PATHEXT" alias1 Hok1) as (alias3 & G3 & Hok3 & _).
  destruct (search_dirs_spec dirs "\" bin exts) as [H1 H2].
  assert (expand_all (S fuel) dirs alias1 = Some (dirs, alias1)) as Hexp.
  { apply expand_all_plain. intros p [_ Hp]%list_elem_of_filter.
    apply (split_count ";") in Hp. lia. }
  assert (pathSearch (S fuel) bin alias
          = Some (if decide (length exts = 0%nat) then None
                  else if decide (length dirs = 0%nat) then None
                       else search_dirs dirs "\" bin exts, alias3)) as Hr.
  { unfold PathSearch.pathSearch. rewrite Hwin at 1. rewrite G1. fold dirs.
    rewrite Hexp. cbn [mbind option_bind]. rewrite G3. fold exts.
    by repeat case_decide. }
  assert ((if decide (length exts = 0%nat) then None
           else if decide (length dirs = 0%nat) then None
                else search_dirs dirs "\" bin exts)
          = search_dirs dirs "\" bin exts) as Hsame.
  { assert (exts = [] ∨ dirs = [] → search_dirs dirs "\" bin exts = None) as Hnil.
    { intros Hnil. apply H2.
      intros n (dir & ext & Hd & He & _)%candidates_elem.
      destruct Hnil as [E|E].
      - rewrite E in He. by apply elem_of_nil in He.
      - rewrite E in Hd. by apply elem_of_nil in Hd. }
    case_decide as E1.
    - symmetry. apply Hnil. left. by apply length_zero_nil.
    - case_decide as E2; [|done]. symmetry. apply Hnil. right.
      by apply length_zero_nil. }
  rewrite Hsame in Hr.
  exists (search_dirs dirs "\" bin exts), alias3.
  split; [done|]. split; [done|]. split; [done|]. split.
  - rewrite H2. split.
    + intros H dir ext Hd He. apply H, candidates_elem. eauto.
    + intros H n (dir & ext & Hd & He & ->)%candidates_elem. by apply H.
  - intros ext. unfold exts. rewrite list_elem_of_filter. split.
    + intros [Hp He]. split; [done|]. unfold is_pathext in Hp.
      destruct ext as [|c [|c' rest]]; try done.
      apply bool_decide_eq_true in Hp as ->. eauto.
    + intros [He (c & rest & ->)]. split; [|done]. done.
Qed.

End path_search_properties.

(** * The further properties on the sample data *)

Lemma X2_run_sample :
  DB.get 1 (db ready) = Some sample_doc
  ∧ ∃ st', AutoExport.run 1 ready = Some st'
           ∧ DB.get 1 (db st') = Some (set_status St_scheduled sample_doc)
           ∧ (tasks (scheduled st')).*1 = [1]
           ∧ tasks (scheduler st') = [].
Proof.
  split; [reflexivity|].
  destruct (X2_run_bypasses_debounce 1 ready sample_doc eq_refl)
    as (st' & H1 & H2 & _ & _ & _ & H6 & _).
  exists st'. split; [exact H1|]. split; [exact H2|]. split.
  - injection H1 as <-. reflexivity.
  - rewrite H6. reflexivity.
Defined.

Lemma X3_orphan_run :
  (stopped (scheduled orphan_run_queued) = false
   ∧ tasks (scheduled orphan_run_queued) = [(99, 0%nat)]
   ∧ heap orphan_run_queued !! 0%nat = Some {| task_id := 99; cancelled := false |}
   ∧ DB.get 99 (db orphan_run_queued) = None)
  ∧ ∃ st', engine_step ScheduledStart orphan_run_queued = Some st'
           ∧ finished (scheduled st')
             = [(99, Some (JsError "Error" "AutoExport 99 not found"))]
           ∧ translations st' = []
           ∧ tasks (scheduled st') = [].
Proof.
  split; [by repeat split|].
  destruct (X3_run_executor_not_found orphan_run_queued 99 0%nat []
              {| task_id := 99; cancelled := false |} eq_refl eq_refl eq_refl eq_refl)
    as (st' & H1 & H2 & H3 & _ & _ & H6 & _).
  exists st'. split; [exact H1|]. split; [exact H2|]. split; [exact H3|exact H6].
Defined.

Lemma X4_sample_exported :
  (stopped (scheduler (touch ready)) = false
   ∧ tasks (scheduler (touch ready)) = [(1, 0%nat)]
   ∧ heap (touch ready) !! 0%nat = Some {| task_id := 1; cancelled := false |}
   ∧ DB.get 1 (db (touch ready)) = Some sample_doc
   ∧ stopped (scheduled (touch ready)) = false
   ∧ tasks (scheduled (touch ready)) = []
   ∧ debounce_delay ≤ 1000)
  ∧ (∃ st',
       engine_run [SchedulerStart; Tick 1000; SchedulerWake first_worker;
                   ScheduledStart;
                   ScheduledSettle
                     {| w_task := 1; w_local := 1;
                        w_await :=
                          Export {| t_translatorID := "better-bibtex";
                                    t_exportNotes := false;
                                    t_useJournalAbbreviation := false;
                                    t_items := Some (ItemsCollection 7);
                                    t_path := "/home/u/refs.bib" |} |}
                     None]
                  (touch ready) = Some st'
       ∧ translations st'
         = [(1, {| t_translatorID := "better-bibtex"; t_exportNotes := false;
                   t_useJournalAbbreviation := false;
                   t_items := Some (ItemsCollection 7);
                   t_path := "/home/u/refs.bib" |})]
       ∧ DB.get 1 (db st') = Some sample_doc
       ∧ pushes (scheduled st') = [1])
  ∧ (∀ st1, engine_run [SchedulerStart; Tick 999] (touch ready) = Some st1 →
            pushes (scheduled st1) = []
            ∧ engine_step (SchedulerWake first_worker) st1 = None).
Proof.
  split; [by repeat split|].
  destruct (X4_push_to_export (touch ready) 0%nat 1 []
              {| task_id := 1; cancelled := false |} sample_doc 1000 None
              eq_refl eq_refl eq_refl eq_refl eq_refl eq_refl eq_refl)
    as ((st' & H1 & H2 & H3 & H4 & _) & Hwait & Hearly); [done|].
  split.
  - exists st'. split; [exact H1|]. split; [exact H2|]. split; [exact H3|exact H4].
  - intros st1 Hst1. destruct (Hwait 999 st1 Hst1) as (_ & _ & Hnow & Hq & _).
    split; [by rewrite Hq|]. apply Hearly. rewrite Hnow. reflexivity.
Defined.

Lemma X5_nested_schedules_root :
  (∀ item c, item ∈ [nested_item] → c ∈ getCollections item → c ≠ 0 →
             (nested_rank c < 4)%nat)
  ∧ ∃ st', AutoExport.changed nested_parent 4 [nested_item] root_ready = Some st'
           ∧ 1 ∈ (tasks (scheduler st')).*1
           ∧ pushes (scheduled st') = [].
Proof.
  assert (∀ item c, item ∈ [nested_item] → c ∈ getCollections item → c ≠ 0 →
                    (nested_rank c < 4)%nat) as Hfuel.
  { intros item c ->%list_elem_of_singleton ->%list_elem_of_singleton _.
    unfold nested_rank. simpl. lia. }
  split; [exact Hfuel|].
  destruct (X5_changed_schedules_watchers nested_parent nested_rank nested_rank_parent
              4%nat [nested_item] root_ready Hfuel)
    as (st' & cs & ls & H1 & _ & _ & H4 & _ & H6).
  exists st'. split; [exact H1|]. split.
  - apply H4. right. exists {| loki := 1; obj := root_def |}.
    split; [by apply list_elem_of_singleton|]. split; [reflexivity|]. left.
    split; [reflexivity|]. exists nested_item, 3.
    split; [by apply list_elem_of_singleton|].
    split; [by apply list_elem_of_singleton|].
    apply (chain_parent nested_parent 3 2); [discriminate|reflexivity|].
    apply (chain_parent nested_parent 2 1); [discriminate|reflexivity|].
    apply chain_self. discriminate.
  - rewrite H6. reflexivity.
Defined.

Lemma sample_db_wf : db_wf (db (touch ready)).
Proof.
  split; [apply NoDup_singleton|]. split; [|apply NoDup_singleton].
  intros d ->%list_elem_of_singleton. simpl. lia.
Defined.

Lemma X6_add_keeps_store :
  db_wf (db (touch ready))
  ∧ call_step (Add (sample_def St_scheduled)) (touch ready)
    = Some (AutoExport.add (sample_def St_scheduled) (touch ready))
  ∧ db_wf (db (AutoExport.add (sample_def St_scheduled) (touch ready)))
  ∧ DB.data (db (AutoExport.add (sample_def St_scheduled) (touch ready)))
    = [ {| loki := 2; obj := sample_def St_scheduled |} ].
Proof.
  split; [exact sample_db_wf|]. split; [reflexivity|]. split; [|reflexivity].
  exact (proj1 (X6_store_stays_well_formed (Add (sample_def St_scheduled)) (touch ready)
                  _ sample_db_wf eq_refl)).
Defined.

Lemma X8_idle_state :
  reachable idle_state (Some T_idle)
  ∧ autoExport idle_state = Idle
  ∧ stopped (scheduled idle_state) = false.
Proof.
  assert (reachable idle_state (Some T_idle)) as Hr.
  { exact (reachable_call _ None (Observe T_idle) idle_state
             (reachable_init (sample_db St_done) Idle false) eq_refl). }
  split; [exact Hr|]. split; [reflexivity|].
  exact (X8_run_queue_never_paused idle_state (Some T_idle) Hr).
Defined.

Lemma alias_ok_empty (ENV_get : string → string)
    (permutater : list (list string) → list string) :
  PathSearch.alias_ok ENV_get permutater ∅.
Proof. intros v a H. rewrite lookup_empty in H. discriminate. Defined.

Lemma alias_ok_object_empty (ENV_get : string → string)
    (permutater : list (list string) → list string)
    (inherited : string → option string) :
  PathSearch.alias_ok_object ENV_get permutater inherited ∅.
Proof. intros v a H. rewrite lookup_empty in H. discriminate. Defined.

Lemma X10_win_path :
  PathSearch.alias_ok_object win_env all_spellings object_members ∅
  ∧ ∃ alias',
      PathSearch.getEnv_object true win_env all_spellings object_members "PATH" ∅
      = ("C:\bin;;D:\tools", alias')
      ∧ PathSearch.getEnv_object true win_env all_spellings object_members "PATH" alias'
        = ("C:\bin;;D:\tools", alias').
Proof.
  split; [apply alias_ok_object_empty|].
  destruct (X10_getEnv_cache_transparent true win_env all_spellings object_members
              "PATH" ∅ (alias_ok_object_empty _ _ _)) as (alias' & H1 & _ & _ & H4 & _).
  exists alias'. split; [exact H1|exact H4].
Defined.

Lemma X11_win_path_spelling :
  (win_env "PATH" = "" ∧ win_env "" = ""
   ∧ odd_env "constructor" = "" ∧ odd_env "" = ""
   ∧ PathSearch.alias_ok_object win_env all_spellings object_members ∅)
  ∧ (∃ alias',
       PathSearch.getEnv_object true win_env all_spellings object_members "PATH" ∅
       = ("C:\bin;;D:\tools", alias')
       ∧ alias' !! "PATH" = Some "Path")
  ∧ PathSearch.getEnv_object true odd_env all_spellings object_members "constructor" ∅
    = ("odd", ∅).
Proof.
  split; [do 4 (split; [reflexivity|]); apply alias_ok_object_empty|].
  split.
  - pose proof (X11_getEnv_fallback true win_env all_spellings object_members "PATH" ∅
                  eq_refl eq_refl eq_refl (alias_ok_object_empty _ _ _)) as H.
    change (object_members "PATH") with (@None string) in H. cbv iota in H.
    destruct H as (before & after & alias' & H1 & [[H2 _]|(p & Hp & H3 & H4 & H5 & H6)]).
    + discriminate H2.
    + exists alias'. split; [exact H1|]. rewrite H5. f_equal.
      assert (win_env p = "C:\bin;;D:\tools") as Hv by (by rewrite <- H3).
      unfold win_env in Hv. destruct (decide (p = "Path")) as [->|_]; [reflexivity|].
      destruct (decide (p = "PATHEXT")); discriminate Hv.
  - exact (X11_getEnv_fallback true odd_env all_spellings object_members "constructor" ∅
             eq_refl eq_refl eq_refl (alias_ok_object_empty _ _ _)).
Defined.

Lemma X12_plain_directory :
  (PathSearch.count_percent "C:\bin" < 2)%nat
  ∧ PathSearch.expandWinVars true win_env all_spellings 1 "C:\bin" ∅
    = Some ("C:\bin", ∅).
Proof.
  split; [simpl; lia|].
  apply (X12_expand_without_reference true win_env all_spellings 0 "C:\bin" ∅).
  left. simpl. lia.
Defined.

Lemma X13_mixed_case_name :
  (PathSearch.is_name "Path" = false ∧ PathSearch.count_percent "Path" = 0%nat)
  ∧ PathSearch.expandWinVars true win_env all_spellings 1 "%Path%" ∅
    = Some ("%Path%", ∅).
Proof.
  split; [by split|].
  exact (X13_expand_skips_other_names true win_env all_spellings 0 "Path" ∅
           eq_refl eq_refl).
Defined.

Lemma win_env_plain (name : string) : PathSearch.count_percent (win_env name) = 0%nat.
Proof.
  unfold win_env. destruct (decide (name = "Path")); [reflexivity|].
  destruct (decide (name = "PATHEXT")); reflexivity.
Defined.

Lemma X14_two_references :
  (∀ name, PathSearch.count_percent (win_env name) = 0%nat)
  ∧ (PathSearch.count_percent "%PATHEXT%;%TEMP%" < 2 * 3)%nat
  ∧ ∃ value' alias',
      PathSearch.expandWinVars true win_env all_spellings 3 "%PATHEXT%;%TEMP%" ∅
      = Some (value', alias')
      ∧ PathSearch.has_ref value' = false.
Proof.
  split; [exact win_env_plain|]. split; [simpl; lia|].
  destruct (X14_expand_terminates true win_env all_spellings 3 "%PATHEXT%;%TEMP%" ∅
              win_env_plain ltac:(simpl; lia)) as (v & a & H1 & H2 & _).
  exists v, a. split; [exact H1|exact H2].
Defined.

Lemma X15_path_loop :
  (PathSearch.is_name "PATH" = true ∧ loop_env "PATH" = "%PATH%")
  ∧ PathSearch.expandWinVars true loop_env all_spellings 1000 "%PATH%" ∅ = None
  ∧ PathSearch.pathSearch true loop_env all_spellings win_files 1000 "git" ∅ = None.
Proof.
  split; [by split|].
  destruct (X15_expand_self_reference true loop_env all_spellings win_files
              "PATH" 1000 "git" ∅ eq_refl ltac:(discriminate) eq_refl) as [H1 H2].
  split; [exact H1|]. exact (H2 eq_refl eq_refl).
Defined.

Lemma X17_unix_git :
  ∃ r, PathSearch.pathSearch false unix_env all_spellings unix_files 0 "git" ∅
       = Some (r, ∅)
       ∧ r = Some "/usr/bin/git".
Proof.
  destruct (X17_pathSearch_unix false unix_env all_spellings unix_files 0 "git" ∅ eq_refl)
    as (r & H1 & _).
  exists r. split; [exact H1|].
  vm_compute in H1. injection H1 as <-. reflexivity.
Defined.

Lemma X18_windows_git :
  (PathSearch.alias_ok win_env all_spellings ∅
   ∧ PathSearch.count_percent (PathSearch.env_value true win_env all_spellings "PATH")
     = 0%nat)
  ∧ ∃ r alias',
      PathSearch.pathSearch true win_env all_spellings win_files 1 "git" ∅
      = Some (r, alias')
      ∧ (r = None ↔ ∀ dir ext, dir ∈ ["C:\bin"; "D:\tools"] → ext ∈ [".EXE"; ".CMD"] →
                               PathSearch.try_candidate win_files
                                 (dir +:+ "\" +:+ "git" +:+ ext) = None).
Proof.
  split; [split; [apply alias_ok_empty|reflexivity]|].
  destruct (X18_pathSearch_windows true win_env all_spellings win_files 0 "git" ∅
              eq_refl (alias_ok_empty _ _) eq_refl) as (r & alias' & H1 & _ & _ & H4 & _).
  exists r, alias'. split; [exact H1|exact H4].
Defined.
